(** * planrun: a DAG orchestrator

    A shallow embedding of the orchestrator core (context store, node
    contract, graph levelling, control nodes, runner) and the
    verification of its specification.

    Python dictionaries whose iteration order is never observed by a
    property are [gmap]s; the node registry, whose insertion order seeds
    the first level, is an association list; Python sets are [gset]s
    that are iterated through [elements]. *)

From Stdlib Require Import ZArith String Ascii.
From stdpp Require Import base option list sets gmap strings relations pretty.

Set Warnings "-register-all,-clear-no-such-hyp,-notation-incompatible-prefix".
Local Open Scope Z_scope.

(** ** Values stored in contexts, outputs and metadata (Python's [Any])

    A float is kept as its IEEE 754 binary64 bit pattern; no arithmetic on
    floats is modelled. *)

Inductive Value : Type :=
| VNone
| VBool (b : bool)
| VInt (z : Z)
| VFloat (bits : Z)
| VStr (s : string)
| VList (l : list Value)
| VDict (d : list (string * Value)).

(** Python truth value testing. *)
Definition truthy (v : Value) : bool :=
  match v with
  | VNone => false
  | VBool b => b
  | VInt z => negb (z =? 0)
  | VFloat bits => negb ((bits =? 0) || (bits =? 2 ^ 63))
  | VStr s => negb (String.eqb s "")
  | VList l => negb (bool_decide (l = []))
  | VDict d => negb (bool_decide (d = []))
  end.

(** Exceptions that the modelled code raises or handles:
    [ValueError(f"Unknown {role} node: {node_id!r}")], [KeyError(key)],
    [IndexError] from an empty deque,
    [CycleError(f"Graph contains a cycle (visited {visited}/{total} nodes)")],
    and any other [Exception], of which only [str(e)] matters. *)
Inductive Exception : Type :=
| ValueError (role node_id : string)
| KeyError (key : string)
| IndexError
| CycleError (visited total : Z)
| Fault (msg : string).

(** Outcome of a call: a value, a raised exception, or [OutOfFuel] when
    the bound that the model puts on a [while] loop was too small. *)
Inductive res (A : Type) : Type :=
| Ok (a : A)
| Raise (e : Exception)
| OutOfFuel.
Arguments Ok {A} a.
Arguments Raise {A} e.
Arguments OutOfFuel {A}.

#[global] Instance res_bind : MBind res := λ A B f m,
  match m with
  | Ok a => f a
  | Raise e => Raise e
  | OutOfFuel => OutOfFuel
  end.
#[global] Instance res_ret : MRet res := λ A a, Ok a.

(** ** core/graph.py *)

Module Graph.
Section graph.
(** The graph never looks inside a node beyond its [node_id]. *)
Context {Node : Type} (node_id : Node → string).

Record t : Type := mk {
  _nodes : list (string * Node);
  _edges : gmap string (gset string);
  _reverse : gmap string (gset string)
}.

Definition empty : t := {| _nodes := []; _edges := ∅; _reverse := ∅ |}.

(** [d[k] = v] on an insertion-ordered dictionary. *)
Fixpoint dict_set (k : string) (v : Node) (d : list (string * Node))
  : list (string * Node) :=
  match d with
  | [] => [(k, v)]
  | (k', v') :: d' =>
      if decide (k = k') then (k, v) :: d' else (k', v') :: dict_set k v d'
  end.

Fixpoint dict_get (k : string) (d : list (string * Node)) : option Node :=
  match d with
  | [] => None
  | (k', v) :: d' => if decide (k = k') then Some v else dict_get k d'
  end.

(** [d.setdefault(k, set())] *)
Definition setdefault (k : string) (d : gmap string (gset string))
  : gmap string (gset string) :=
  match d !! k with
  | Some _ => d
  | None => <[k := ∅]> d
  end.

Definition node_ids (g : t) : list string := (_nodes g).*1.

Definition contains (g : t) (nid : string) : bool :=
  bool_decide (nid ∈ node_ids g).

Definition add_node (node : Node) (g : t) : t :=
  {| _nodes := dict_set (node_id node) node (_nodes g);
     _edges := setdefault (node_id node) (_edges g);
     _reverse := setdefault (node_id node) (_reverse g) |}.

(** [d[k].add(x)] *)
Definition set_add (k x : string) (d : gmap string (gset string))
  : res (gmap string (gset string)) :=
  match d !! k with
  | Some s => Ok (<[k := s ∪ {[x]}]> d)
  | None => Raise (KeyError k)
  end.

Definition add_edge (source target : string) (g : t) : res t :=
  if negb (contains g source) then Raise (ValueError "source" source)
  else if negb (contains g target) then Raise (ValueError "target" target)
  else
    edges ← set_add source target (_edges g) ;
    reverse ← set_add target source (_reverse g) ;
    Ok {| _nodes := _nodes g; _edges := edges; _reverse := reverse |}.

Definition get_node (g : t) (nid : string) : res Node :=
  match dict_get nid (_nodes g) with
  | Some n => Ok n
  | None => Raise (KeyError nid)
  end.

Definition predecessors (g : t) (nid : string) : gset string :=
  default ∅ (_reverse g !! nid).

Definition successors (g : t) (nid : string) : gset string :=
  default ∅ (_edges g !! nid).

Definition len (g : t) : Z := Z.of_nat (length (_nodes g)).

(** *** [levels]: Kahn's algorithm *)

(** The mutable locals of the loop. *)
Record kahn : Type := mkKahn {
  in_degree : gmap string Z;
  queue : list string;
  visited : Z
}.

(** Body of [for succ in self._edges.get(nid, set())]. *)
Definition relax (succ : string) (st : kahn) : res kahn :=
  match in_degree st !! succ with
  | None => Raise (KeyError succ)
  | Some d =>
      let in_degree' := <[succ := d - 1]> (in_degree st) in
      if bool_decide (d - 1 = 0)
      then Ok (mkKahn in_degree' (queue st ++ [succ]) (visited st))
      else Ok (mkKahn in_degree' (queue st) (visited st))
  end.

Fixpoint relax_all (succs : list string) (st : kahn) : res kahn :=
  match succs with
  | [] => Ok st
  | succ :: succs' => st' ← relax succ st ; relax_all succs' st'
  end.

(** Body of [for _ in range(len(queue))]: pop one node into the level. *)
Definition pop (g : t) (level : list string) (st : kahn)
  : res (list string * kahn) :=
  match queue st with
  | [] => Raise IndexError
  | nid :: queue' =>
      st' ← relax_all (elements (successors g nid))
               (mkKahn (in_degree st) queue' (visited st + 1)) ;
      Ok (level ++ [nid], st')
  end.

Fixpoint drain (g : t) (n : nat) (level : list string) (st : kahn)
  : res (list string * kahn) :=
  match n with
  | O => Ok (level, st)
  | S n' => '(level', st') ← pop g level st ; drain g n' level' st'
  end.

(** [while queue:]; every turn of the loop empties the queue it found,
    so the registry size bounds the number of turns: [fuel] runs out
    only if it is smaller than that. *)
Fixpoint while_queue (fuel : nat) (g : t) (levels : list (list string))
    (st : kahn) : res (list (list string) * kahn) :=
  match queue st with
  | [] => Ok (levels, st)
  | _ :: _ =>
      match fuel with
      | O => OutOfFuel
      | S fuel' =>
          '(level, st') ← drain g (length (queue st)) [] st ;
          while_queue fuel' g (levels ++ [level]) st'
      end
  end.

Definition init_in_degree (g : t) : gmap string Z :=
  list_to_map
    ((λ nid, (nid, Z.of_nat (size (predecessors g nid)))) <$> node_ids g).

Definition init (g : t) : kahn :=
  let in_degree := init_in_degree g in
  {| in_degree := in_degree;
     queue := filter (λ nid, in_degree !! nid = Some 0) (node_ids g);
     visited := 0 |}.

Definition levels (g : t) : res (list (list string)) :=
  '(levels, st) ← while_queue (length (_nodes g)) g [] (init g) ;
  if bool_decide (visited st ≠ len g)
  then Raise (CycleError (visited st) (len g))
  else Ok levels.

End graph.

(** *** Specification vocabulary for graphs *)

Section graph_spec.
Context {Node : Type}.
Implicit Types (g : t (Node:=Node)) (u v nid : string).

(** The representation invariant of a graph: the registry has one entry
    per id, both adjacency maps have exactly the registered ids as keys
    and they mirror each other. *)
Record wf g : Prop := {
  wf_nodup : NoDup (node_ids g);
  wf_edges_dom : ∀ u, is_Some (_edges g !! u) ↔ u ∈ node_ids g;
  wf_reverse_dom : ∀ v, is_Some (_reverse g !! v) ↔ v ∈ node_ids g;
  wf_mirror : ∀ u v, v ∈ successors g u ↔ u ∈ predecessors g v
}.

(** The graphs that the public interface can build. *)
Inductive built (node_id : Node → string) : t (Node:=Node) → Prop :=
| built_empty : built node_id empty
| built_add_node node g :
    built node_id g → built node_id (add_node node_id node g)
| built_add_edge source target g g' :
    built node_id g → add_edge source target g = Ok g' → built node_id g'.

Definition edge g : relation string := λ u v, v ∈ successors g u.

(** A directed cycle: a node that reaches itself along at least one edge. *)
Definition cyclic g : Prop := ∃ v, tc (edge g) v v.
Definition acyclic g : Prop := ∀ v, ¬ tc (edge g) v v.

(** Index of the first group that holds [v]. *)
Fixpoint group_index (levels : list (list string)) v : option nat :=
  match levels with
  | [] => None
  | level :: levels' =>
      if decide (v ∈ level) then Some O else S <$> group_index levels' v
  end.

Definition max_index (levels : list (list string)) (vs : gset string) : nat :=
  max_list ((λ v, default O (group_index levels v)) <$> elements vs).

(** A walk: consecutive entries are joined by an edge. *)
Fixpoint is_walk g (l : list string) : Prop :=
  match l with
  | u :: l' => match l' with v :: _ => edge g u v | [] => True end ∧ is_walk g l'
  | [] => True
  end.

(** Invariant of Kahn's loop between two pops, [done] being the nodes
    popped so far: the queue holds exactly the nodes that are not done
    and whose predecessors all are, and every count is the number of
    predecessors still to come. *)
Record kahn_inv g (done : list string) (st : kahn) : Prop := {
  ki_nodup : NoDup (done ++ queue st);
  ki_registered : ∀ v, v ∈ done ++ queue st → v ∈ node_ids g;
  ki_visited : visited st = Z.of_nat (length done);
  ki_count : ∀ v, v ∈ node_ids g →
    in_degree st !! v =
      Some (Z.of_nat (size (predecessors g v ∖ list_to_set done)));
  ki_ready : ∀ v, v ∈ queue st → predecessors g v ⊆ list_to_set done;
  ki_complete : ∀ v, v ∈ node_ids g → v ∉ done →
    predecessors g v ⊆ list_to_set done → v ∈ queue st;
  ki_closed : ∀ v, v ∈ done → predecessors g v ⊆ list_to_set done
}.

(** What the levels emitted so far satisfy: the predecessors of a node
    sit in earlier groups, one of them in the group just before. *)
Definition levels_inv g (levels : list (list string)) : Prop :=
  ∀ i level v, levels !! i = Some level → v ∈ level →
    (∀ p, p ∈ predecessors g v →
       ∃ j level', (j < i)%nat ∧ levels !! j = Some level' ∧ p ∈ level') ∧
    (∀ i', i = S i' →
       ∃ p level', p ∈ predecessors g v ∧ levels !! i' = Some level' ∧ p ∈ level').

End graph_spec.
End Graph.

(** ** Concrete graphs used to exercise the theorems *)

Module Examples.

Definition of_res {Node} (r : res (Graph.t (Node:=Node))) : Graph.t :=
  match r with
  | Ok g => g
  | _ => Graph.empty
  end.

(** Nodes that are just their id. *)
Definition ids (l : list string) : Graph.t (Node:=string) :=
  foldl (λ g n, Graph.add_node id n g) Graph.empty l.

(** test_diamond_graph: a→b, a→c, b→d, c→d. *)
Definition diamond : Graph.t (Node:=string) :=
  of_res (Graph.add_edge "c" "d"
    (of_res (Graph.add_edge "b" "d"
      (of_res (Graph.add_edge "a" "c"
        (of_res (Graph.add_edge "a" "b" (ids ["a"; "b"; "c"; "d"])))))))).

(** test_cycle_raises: a→b, b→a. *)
Definition two_cycle : Graph.t (Node:=string) :=
  of_res (Graph.add_edge "b" "a"
    (of_res (Graph.add_edge "a" "b" (ids ["a"; "b"])))).

(** Nodes with a payload next to their id, and one edge a→b. *)
Definition tagged_edge : Graph.t (Node:=string * nat) :=
  of_res (Graph.add_edge "a" "b"
    (Graph.add_node fst ("b", 0%nat)
      (Graph.add_node fst ("a", 1%nat) Graph.empty))).

End Examples.

(** ** core/context.py *)

Module Context.

Record t : Type := mk { _data : gmap string Value }.

(** [Context(initial)]: [dict(initial) if initial else {}] *)
Definition new (initial : option (gmap string Value)) : t :=
  {| _data := default ∅ initial |}.

Definition get (ctx : t) (key : string) (default : Value) : Value :=
  match _data ctx !! key with
  | Some v => v
  | None => default
  end.

Definition set (key : string) (value : Value) (ctx : t) : t :=
  {| _data := <[key := value]> (_data ctx) |}.

Definition contains (ctx : t) (key : string) : bool :=
  bool_decide (is_Some (_data ctx !! key)).

(** [f"{namespace}.{k}"] *)
Definition qualified (namespace k : string) : string :=
  namespace +:+ "." +:+ k.

(** [for k, v in outputs.items(): self._data[f"{namespace}.{k}"] = v] *)
Definition merge (namespace : string) (outputs : gmap string Value) (ctx : t)
  : t :=
  foldl (λ ctx kv, set (qualified namespace kv.1) kv.2 ctx) ctx
        (map_to_list outputs).

Definition snapshot (ctx : t) : gmap string Value := _data ctx.

(** *** Templates *)

Definition is_open (c : ascii) : bool := Ascii.eqb c "{".
Definition is_close (c : ascii) : bool := Ascii.eqb c "}".
Definition is_brace (c : ascii) : bool := is_open c || is_close c.

Fixpoint brace_free (s : string) : bool :=
  match s with
  | EmptyString => true
  | String c s' => negb (is_brace c) && brace_free s'
  end.

(** The longest run of non-brace characters at the start of [s], and what
    follows it: the greedy [[^{}]+], which never has to give characters
    back because the character after a shorter run is not a brace. *)
Fixpoint key_run (s : string) : string * string :=
  match s with
  | EmptyString => (EmptyString, EmptyString)
  | String c s' =>
      if is_brace c then (EmptyString, s)
      else let '(k, r) := key_run s' in (String c k, r)
  end.

(** [_TEMPLATE_RE.match(s)] for [_TEMPLATE_RE = \{([^{}]+)\}]: group 1 and
    the text after the match. *)
Definition _TEMPLATE_RE_match (s : string) : option (string * string) :=
  match s with
  | String c s' =>
      if is_open c then
        match key_run s' with
        | (String k0 k, String d rest) =>
            if is_close d then Some (String k0 k, rest) else None
        | _ => None
        end
      else None
  | EmptyString => None
  end.

(** [_TEMPLATE_RE.sub(repl, s)]: at each position, left to right, a match
    is replaced and scanning resumes after it; otherwise the character is
    copied. The inner loop is the match attempt at an opening brace, [k]
    being the key read so far. *)
Fixpoint _TEMPLATE_RE_sub (repl : string → string) (s : string) : string :=
  match s with
  | EmptyString => EmptyString
  | String c s' =>
      let no_match := String c (_TEMPLATE_RE_sub repl s') in
      if is_open c then
        (fix attempt (t k : string) {struct t} : string :=
           match t with
           | EmptyString => no_match
           | String d t' =>
               if is_close d then
                 match k with
                 | EmptyString => no_match
                 | String _ _ => repl k +:+ _TEMPLATE_RE_sub repl t'
                 end
               else if is_open d then no_match
               else attempt t' (k +:+ String d EmptyString)
           end) s' EmptyString
      else no_match
  end.

(** The match attempt of [_TEMPLATE_RE_sub] on its own, [cont] standing
    for the scan that resumes after a match. *)
Definition attempt (repl cont : string → string) (no_match : string)
  : string → string → string :=
  fix attempt (t k : string) {struct t} : string :=
    match t with
    | EmptyString => no_match
    | String d t' =>
        if is_close d then
          match k with
          | EmptyString => no_match
          | String _ _ => repl k +:+ cont t'
          end
        else if is_open d then no_match
        else attempt t' (k +:+ String d EmptyString)
    end.

Section format.
(** Python's builtin [str]. *)
Variable str : Value → string.

(** The nested [_replace(match)], applied to group 1. *)
Definition _replace (ctx : t) (key : string) : string :=
  match _data ctx !! key with
  | Some v => str v
  | None => "{" +:+ key +:+ "}"
  end.

Definition format_template (ctx : t) (template : string) : string :=
  _TEMPLATE_RE_sub (_replace ctx) template.

End format.

(** [str] on scalars. Containers, whose rendering goes through [repr],
    get a placeholder; the theorems hold for any [str]. *)
Definition str_scalar (v : Value) : string :=
  match v with
  | VStr s => s
  | VNone => "None"
  | VBool true => "True"
  | VBool false => "False"
  | VInt z => pretty z
  | VFloat _ => "<float>"
  | VList _ => "[...]"
  | VDict _ => "{...}"
  end.

(** Contexts used to exercise the theorems. *)
Definition ctx_clash : t :=
  merge "a.b" {["c" := VInt 2]} (merge "a" {["b.c" := VInt 1]} (new None)).

Definition ctx_step : t :=
  merge "step_1" {["output" := VStr "data"]} (new None).

End Context.

(** ** Coroutines

    An [async def] body runs in segments: when it is resumed it runs on
    the shared state, without interruption, up to its next suspension
    point or to its end. [await]ing another coroutine that does not
    suspend continues in the same segment. *)

Inductive coro (S A : Type) : Type :=
| Segment (k : S → S * (A + coro S A)).
Arguments Segment {S A} k.

Definition resume {S A} (c : coro S A) : S → S * (A + coro S A) :=
  match c with Segment k => k end.

Definition ret {S A} (a : A) : coro S A := Segment (λ s, (s, inl a)).

(** [x = await c; f x] *)
Fixpoint bind {S A B} (c : coro S A) (f : A → coro S B) : coro S B :=
  match c with
  | Segment k =>
      Segment (λ s,
        match k s with
        | (s', inl a) => resume (f a) s'
        | (s', inr c') => (s', inr (bind c' f))
        end)
  end.

(** A statement that reads or writes the shared state and does not
    suspend. *)
Definition atomic {S A} (f : S → S * A) : coro S A :=
  Segment (λ s, let '(s', a) := f s in (s', inl a)).

(** A coroutine on a part of the state, run on the whole state. *)
Fixpoint lift {S T A} (get : T → S) (put : S → T → T) (c : coro S A)
  : coro T A :=
  match c with
  | Segment k =>
      Segment (λ t,
        match k (get t) with
        | (s', inl a) => (put s' t, inl a)
        | (s', inr c') => (put s' t, inr (lift get put c'))
        end)
  end.

(** Running a coroutine alone: it is resumed as soon as it suspends. *)
Fixpoint finish {S A} (c : coro S A) (s : S) : S * A :=
  match c with
  | Segment k =>
      match k s with
      | (s', inl a) => (s', a)
      | (s', inr c') => finish c' s'
      end
  end.

(** The coroutine, started in state [s], ends in state [s'] with result
    [a]; while it is suspended the state may change in any way. *)
Inductive completes {S A} : coro S A → S → S → A → Prop :=
| completes_return k s s' a :
    k s = (s', inl a) → completes (Segment k) s s' a
| completes_await k s s1 c' s2 s' a :
    k s = (s1, inr c') → completes c' s2 s' a → completes (Segment k) s s' a.

(** Every segment of the coroutine changes the state within [R], and
    the coroutine can only end in a state and with a result that satisfy
    [P], whatever the states it is resumed in. *)
Fixpoint obeys {S A} (R : S → S → Prop) (P : S → A → Prop) (c : coro S A)
  : Prop :=
  match c with
  | Segment k =>
      ∀ s, R s (k s).1 ∧
           match (k s).2 with
           | inl a => P (k s).1 a
           | inr c' => obeys R P c'
           end
  end.

(** ** core/node.py *)

Inductive NodeStatus : Type := SUCCESS | FAILURE | SKIPPED.

#[global] Instance NodeStatus_eq_dec : EqDecision NodeStatus.
Proof. solve_decision. Defined.

(** [NodeStatus.value] *)
Definition status_value (s : NodeStatus) : string :=
  match s with
  | SUCCESS => "success"
  | FAILURE => "failure"
  | SKIPPED => "skipped"
  end.

Record NodeResult : Type := mkNodeResult {
  status : NodeStatus;
  outputs : gmap string Value;
  error : option string;
  metadata : gmap string Value
}.

(** [NodeResult(status=...)] with the dataclass defaults. *)
Definition result_of (s : NodeStatus) : NodeResult :=
  {| status := s; outputs := ∅; error := None; metadata := ∅ |}.

(** [result.metadata.setdefault(key, value)] *)
Definition metadata_setdefault (key : string) (value : Value)
    (r : NodeResult) : NodeResult :=
  match metadata r !! key with
  | Some _ => r
  | None =>
      {| status := status r; outputs := outputs r; error := error r;
         metadata := <[key := value]> (metadata r) |}
  end.

(** What a call ends with: a returned value, or a raised [Exception]
    whose [str] is [msg]. The nodes and the runner below are those whose
    calls end in one of these two ways; [ending] and [execute_ending]
    say what [Node.execute] does with the others. *)
Inductive exn (A : Type) : Type :=
| Return (a : A)
| Raises (msg : string).
Arguments Return {A} a.
Arguments Raises {A} msg.

(** What a call ends with when every way of ending is counted in: one of
    the two above, or a raised [BaseException] that is not an [Exception]
    ([asyncio.CancelledError], [KeyboardInterrupt], [SystemExit],
    [GeneratorExit]), named by its class. *)
Inductive ending (A : Type) : Type :=
| Ends (x : exn A)
| Escapes (base_exception : string).
Arguments Ends {A} x.
Arguments Escapes {A} base_exception.

(** A coroutine that ends in one of the first two ways, among those that
    can end in any. *)
Definition ends {S A} (c : coro S (exn A)) : coro S (ending A) :=
  bind c (λ x, ret (Ends x)).

(** [await] that lets an exception of the awaited coroutine through. *)
Definition bind_exn {S A B} (c : coro S (exn A)) (f : A → coro S (exn B))
  : coro S (exn B) :=
  bind c (λ x, match x with
               | Return a => f a
               | Raises msg => ret (Raises msg)
               end).

(** The world outside the context that nodes act on (processes, files,
    services), with the monotonic clock. [elapsed_ms start stop] is
    [round((stop - start) * 1000, 1)] as a Python float. *)
Class World (W : Type) : Type := {
  Time : Type;
  monotonic : W → Time;
  elapsed_ms : Time → Time → Value
}.

(** Who executes a node: the runner, for the node of that id in the
    graph, or a retry node, for its verify or its fix node. *)
Inductive Role : Type := Top (node_id : string) | Verify | Fix.

#[global] Instance Role_eq_dec : EqDecision Role.
Proof. solve_decision. Defined.

(** What the log records: a call of [execute], named by the roles from
    the runner down to the node, and the runner merging the outputs of a
    node into the context. *)
Inductive Event : Type :=
| Executed (path : list Role)
| Merged (node_id : string).

#[global] Instance Event_eq_dec : EqDecision Event.
Proof. solve_decision. Defined.

(** The state that coroutines share: the context, the world, and the log.
    The log is not part of the program; nodes cannot reach it. *)
Record State (W : Type) : Type := mkState {
  ctx : Context.t;
  world : W;
  log : list Event
}.
Arguments mkState {W} ctx world log.
Arguments ctx {W} s.
Arguments world {W} s.
Arguments log {W} s.

Section node.
Context `{World W}.

(** Shapes of log entries: a call of [execute] made as [path] or below
    it, and one made strictly below it. *)
Definition below (path : list Role) (e : Event) : Prop :=
  ∃ more, e = Executed (path ++ more).
Definition strictly_below (path : list Role) (e : Event) : Prop :=
  ∃ role more, e = Executed (path ++ role :: more).

(** The step from [st] to [st'] only adds entries that satisfy [ok] to
    the log. *)
Definition appends (ok : Event → Prop) (st st' : State W) : Prop :=
  ∃ new, log st' = log st ++ new ∧ Forall ok new.

Definition with_ctx (f : Context.t → Context.t) (st : State W) : State W :=
  mkState (f (ctx st)) (world st) (log st).

Definition log_event (e : Event) (st : State W) : State W :=
  mkState (ctx st) (world st) (log st ++ [e]).

(** [try: result = <outcome of run> except Exception as e:
    result = NodeResult(status=NodeStatus.FAILURE, error=str(e))], for a
    [run] that returns or raises an [Exception]; what is raised outside
    [Exception] is not caught and has no result, see [execute_ending]. *)
Definition absorb (outcome : exn NodeResult) : NodeResult :=
  match outcome with
  | Return result => result
  | Raises e =>
      {| status := FAILURE; outputs := ∅; error := Some e; metadata := ∅ |}
  end.

(** [Node.execute], [body] being [self.run(ctx)], for a [run] that returns
    or raises an [Exception]. *)
Definition execute_body (path : list Role) (body : coro (State W) (exn NodeResult))
  : coro (State W) (exn NodeResult) :=
  Segment (λ st,
    let start := monotonic (world st) in
    resume
      (bind body (λ outcome,
         atomic (λ st',
           let result := absorb outcome in
           let elapsed := elapsed_ms start (monotonic (world st')) in
           (st', Return (metadata_setdefault "duration_ms" elapsed result)))))
      (log_event (Executed path) st)).

(** [Node.execute] for a [run] that can end in any way: [except Exception]
    does not catch what is not an [Exception], which leaves [execute] as
    it was raised, before [elapsed_ms] is computed. *)
Definition execute_ending (path : list Role)
    (body : coro (State W) (ending NodeResult))
  : coro (State W) (ending NodeResult) :=
  Segment (λ st,
    let start := monotonic (world st) in
    resume
      (bind body (λ outcome,
         atomic (λ st',
           (st',
            match outcome with
            | Ends x =>
                let result := absorb x in
                let elapsed := elapsed_ms start (monotonic (world st')) in
                Ends (Return (metadata_setdefault "duration_ms" elapsed result))
            | Escapes e => Escapes e
            end))))
      (log_event (Executed path) st)).

(** *** nodes/control.py *)

(** [GateNode.run] *)
Definition gate_run (predicate : Context.t → bool) (reason : string)
  : coro (State W) (exn NodeResult) :=
  atomic (λ st,
    if predicate (ctx st) then
      (st, Return {| status := SUCCESS;
                     outputs := {["gate_open" := VBool true]};
                     error := None; metadata := ∅ |})
    else
      (st, Return {| status := SKIPPED;
                     outputs := {["gate_open" := VBool false]};
                     error := Some reason; metadata := ∅ |})).

Definition opt_str (o : option string) : Value :=
  match o with
  | Some s => VStr s
  | None => VNone
  end.

Definition len (attempts : list Value) : Z := Z.of_nat (length attempts).

(** The statements of [RetryNode.run] after the loop. *)
Definition retry_exhausted (last_verify : option NodeResult)
    (attempts : list Value) : NodeResult :=
  let error_msg :=
    "Verification failed after " +:+ pretty (len attempts) +:+ " attempts" +:+
    match last_verify with
    | Some lv =>
        match error lv with
        | Some e => if bool_decide (e = "") then "" else ": " +:+ e
        | None => ""
        end
    | None => ""
    end in
  {| status := FAILURE;
     outputs := {["passed" := VBool false; "attempts" := VInt (len attempts)]};
     error := Some error_msg;
     metadata := {["attempts" := VList attempts]} |}.

(** The loop of [RetryNode.run] over the attempts still to make. *)
Fixpoint retry_loop (node_id : string)
    (verify_execute fix_execute : coro (State W) (exn NodeResult))
    (max_retries : Z) (pass_key : string)
    (todo : list Z) (last_verify : option NodeResult) (attempts : list Value)
  : coro (State W) (exn NodeResult) :=
  match todo with
  | [] => ret (Return (retry_exhausted last_verify attempts))
  | attempt :: todo' =>
      bind_exn verify_execute (λ last_verify,
      bind (atomic (λ st,
              (with_ctx (Context.merge (node_id +:+ ".verify")
                           (outputs last_verify)) st, ()))) (λ _,
      let passed :=
        default (VBool false) (outputs last_verify !! pass_key) in
      let attempts :=
        attempts ++ [VDict [("attempt", VInt attempt); ("passed", passed);
                            ("error", opt_str (error last_verify))]] in
      if truthy passed then
        ret (Return
          {| status := SUCCESS;
             outputs :=
               outputs last_verify ∪
               {["passed" := VBool true; "attempts" := VInt (len attempts)]};
             error := None;
             metadata := {["attempts" := VList attempts]} |})
      else if bool_decide (attempt < max_retries) then
        bind_exn fix_execute (λ fix_result,
        bind (atomic (λ st,
                (with_ctx (Context.merge (node_id +:+ ".fix")
                             (outputs fix_result)) st, ()))) (λ _,
        retry_loop node_id verify_execute fix_execute max_retries pass_key
          todo' (Some last_verify) attempts))
      else
        retry_loop node_id verify_execute fix_execute max_retries pass_key
          todo' (Some last_verify) attempts))
  end.

(** [range(1, max_retries + 1)] *)
Definition attempts_range (max_retries : Z) : list Z :=
  (λ i, Z.of_nat i) <$> seq 1 (Z.to_nat max_retries).

(** The nodes: a node whose [run] is any coroutine on the context and the
    world, and the two control nodes. *)
Inductive Node : Type :=
| CustomNode (node_id : string) (run : coro (Context.t * W) (exn NodeResult))
| GateNode (node_id : string) (predicate : Context.t → bool) (reason : string)
| RetryNode (node_id : string) (verify_node fix_node : Node)
    (max_retries : Z) (pass_key : string).

Definition node_id (n : Node) : string :=
  match n with
  | CustomNode node_id _ => node_id
  | GateNode node_id _ _ => node_id
  | RetryNode node_id _ _ _ _ => node_id
  end.

(** [node.run(ctx)], for the node executed as [path]. *)
Fixpoint run (path : list Role) (n : Node) : coro (State W) (exn NodeResult) :=
  match n with
  | CustomNode _ body =>
      lift (λ st, (ctx st, world st))
           (λ cw st, mkState cw.1 cw.2 (log st)) body
  | GateNode _ predicate reason => gate_run predicate reason
  | RetryNode node_id verify_node fix_node max_retries pass_key =>
      retry_loop node_id
        (execute_body (path ++ [Verify]) (run (path ++ [Verify]) verify_node))
        (execute_body (path ++ [Fix]) (run (path ++ [Fix]) fix_node))
        max_retries pass_key (attempts_range max_retries) None []
  end.

(** The outcome of a verify node that does not pass: its outputs hold no
    truthy value under [pass_key]. *)
Definition never_passes (pass_key : string) (outcome : exn NodeResult) : Prop :=
  match outcome with
  | Return r => truthy (default (VBool false) (outputs r !! pass_key)) = false
  | Raises _ => True
  end.

(** The outcome of a verify node that passes: its outputs hold a truthy
    value under [pass_key]. *)
Definition passes (pass_key : string) (outcome : exn NodeResult) : Prop :=
  match outcome with
  | Return r => truthy (default (VBool false) (outputs r !! pass_key)) = true
  | Raises _ => False
  end.

(** The log entries of the calls of [execute] that the retry node executed
    as [path] makes itself. *)
Definition direct (path : list Role) (e : Event) : Prop :=
  e = Executed (path ++ [Verify]) ∨ e = Executed (path ++ [Fix]).

#[global] Instance direct_dec path e : Decision (direct path e).
Proof. unfold direct. apply _. Defined.

(** [node.execute(ctx)] *)
Definition execute (path : list Role) (n : Node)
  : coro (State W) (exn NodeResult) :=
  execute_body path (run path n).

End node.
Arguments Node W : clear implicits.

(** ** core/runner.py *)

Module Runner.
Section runner.
Context `{World W}.

Record RunReport : Type := mkReport {
  results : gmap string NodeResult;
  duration_ms : option Value
}.

Definition success (report : RunReport) : bool :=
  forallb (λ kr, bool_decide (status kr.2 = SUCCESS ∨ status kr.2 = SKIPPED))
          (map_to_list (results report)).

(** The dictionary that [summary] returns; [by_status] is read by key
    only. *)
Record Summary : Type := mkSummary {
  total : Z;
  by_status : gmap string Z;
  summary_duration_ms : option Value;
  summary_success : bool
}.

(** [by_status[r.status.value] = by_status.get(r.status.value, 0) + 1] *)
Definition count_status (by_status : gmap string Z) (r : NodeResult)
  : gmap string Z :=
  <[status_value (status r) :=
      default 0 (by_status !! status_value (status r)) + 1]> by_status.

Definition summary (report : RunReport) : Summary :=
  {| total := Z.of_nat (size (results report));
     by_status := foldl count_status ∅ (map_to_list (results report)).*2;
     summary_duration_ms := duration_ms report;
     summary_success := success report |}.

(** The state that the tasks of a run share: what the nodes see, and
    [report.results]. *)
Record RunState : Type := mkRunState {
  nodes_state : State W;
  report_results : gmap string NodeResult
}.

Definition record (node_id : string) (result : NodeResult) (rs : RunState)
  : RunState :=
  mkRunState (nodes_state rs) (<[node_id := result]> (report_results rs)).

Record t : Type := mk { fail_fast : bool; dry_run : bool }.

(** [Runner()] *)
Definition defaults : t := {| fail_fast := false; dry_run := false |}.

Definition _should_skip (node_id : string) (graph : Graph.t (Node:=Node W))
    (results : gmap string NodeResult) : bool :=
  existsb (λ pred,
             match results !! pred with
             | Some result => bool_decide (status result = FAILURE)
             | None => false
             end)
          (elements (Graph.predecessors graph node_id)).

(** A task ends normally or with the exception that its coroutine let
    through. *)
Definition _run_node (node_id : string) (graph : Graph.t (Node:=Node W))
    (level_idx : Z) : coro RunState (res unit) :=
  match Graph.get_node graph node_id with
  | Ok node =>
      bind (lift nodes_state (λ st rs, mkRunState st (report_results rs))
              (execute [Top node_id] node))
        (λ outcome,
           match outcome with
           | Return result =>
               atomic (λ rs,
                 let result := metadata_setdefault "level" (VInt level_idx) result in
                 let rs :=
                   if bool_decide (status result = SUCCESS)
                   then mkRunState
                          (log_event (Merged node_id)
                             (with_ctx (Context.merge node_id (outputs result))
                                       (nodes_state rs)))
                          (report_results rs)
                   else rs in
                 (record node_id result rs, Ok ()))
           | Raises msg => ret (Raise (Fault msg))
           end)
  | Raise e => ret (Raise e)
  | OutOfFuel => ret OutOfFuel
  end.

(** [await asyncio.gather] of the tasks of a level. The event loop resumes
    one pending task at a time; [sched] says which, by position among the
    tasks still pending, and when [sched] is used up the remaining tasks
    are run one after the other. asyncio starts the tasks in the order of
    the list and resumes a suspended task once what it waits for is done;
    the schedules of the model include these orders and others, so what
    holds for every [sched] holds for asyncio, and an example of what
    asyncio does takes a schedule that starts the tasks in order. The
    first exception that a task lets through is raised to the caller. *)
Fixpoint gather_rest (tasks : list (coro RunState (res unit))) (rs : RunState)
  : RunState * res unit :=
  match tasks with
  | [] => (rs, Ok ())
  | task :: tasks' =>
      match finish task rs with
      | (rs', Ok _) => gather_rest tasks' rs'
      | (rs', r) => (rs', r)
      end
  end.

Fixpoint gather (sched : list nat) (tasks : list (coro RunState (res unit)))
    (rs : RunState) : RunState * res unit :=
  match sched with
  | [] => gather_rest tasks rs
  | i :: sched' =>
      match tasks !! i with
      | None => gather sched' tasks rs
      | Some task =>
          match resume task rs with
          | (rs', inl (Ok _)) => gather sched' (delete i tasks) rs'
          | (rs', inl r) => (rs', r)
          | (rs', inr task') => gather sched' (<[i := task']> tasks) rs'
          end
      end
  end.

(** [for node_id in level:] of the non-dry-run branch: record the skipped
    nodes, collect a task for each of the others. *)
Fixpoint schedule_level (graph : Graph.t (Node:=Node W)) (level_idx : Z)
    (level : list string) (tasks : list (coro RunState (res unit)))
    (rs : RunState) : list (coro RunState (res unit)) * RunState :=
  match level with
  | [] => (tasks, rs)
  | node_id :: level' =>
      if _should_skip node_id graph (report_results rs) then
        schedule_level graph level_idx level' tasks
          (record node_id
             {| status := SKIPPED; outputs := ∅;
                error := Some "upstream dependency failed";
                metadata := {["level" := VInt level_idx]} |} rs)
      else
        schedule_level graph level_idx level'
          (tasks ++ [_run_node node_id graph level_idx]) rs
    end.

(** [for node_id in level:] of the dry-run branch. *)
Definition dry_run_level (level_idx : Z) (level : list string) (rs : RunState)
  : RunState :=
  foldl (λ rs node_id,
           record node_id
             {| status := SKIPPED; outputs := ∅; error := None;
                metadata := {["dry_run" := VBool true;
                              "level" := VInt level_idx]} |} rs)
        rs level.

(** The fail-fast test after a level. *)
Definition level_failed (level : list string)
    (results : gmap string NodeResult) : bool :=
  existsb (λ nid,
             bool_decide
               (status (default (result_of SUCCESS) (results !! nid)) = FAILURE))
          level.

(** One turn of the loop in the non-dry-run branch, up to the gather. *)
Definition run_level (graph : Graph.t (Node:=Node W)) (sched : list nat)
    (level_idx : Z) (level : list string) (rs : RunState)
  : RunState * res unit :=
  let '(tasks, rs) := schedule_level graph level_idx level [] rs in
  match tasks with
  | [] => (rs, Ok ())
  | _ :: _ => gather sched tasks rs
  end.

(** [for level_idx, level in enumerate(levels):], [sched level_idx] being
    the schedule of the tasks of that level. *)
Fixpoint run_levels (self : t) (graph : Graph.t (Node:=Node W))
    (sched : Z → list nat) (level_idx : Z) (levels : list (list string))
    (rs : RunState) : RunState * res unit :=
  match levels with
  | [] => (rs, Ok ())
  | level :: levels' =>
      if dry_run self then
        run_levels self graph sched (level_idx + 1) levels'
          (dry_run_level level_idx level rs)
      else
        match run_level graph (sched level_idx) level_idx level rs with
        | (rs, Ok _) =>
            if fail_fast self && level_failed level (report_results rs)
            then (rs, Ok ())
            else run_levels self graph sched (level_idx + 1) levels' rs
        | (rs, r) => (rs, r)
        end
  end.

(** [Runner.run]: the report, or the exception raised, and the context,
    the world and the log of the run at the end. *)
Definition run (self : t) (graph : Graph.t (Node:=Node W))
    (sched : Z → list nat) (ctx : Context.t) (w : W)
  : State W * res RunReport :=
  let st := mkState ctx w [] in
  let start := monotonic (world st) in
  match Graph.levels graph with
  | Ok levels =>
      match run_levels self graph sched 0 levels (mkRunState st ∅) with
      | (rs, Ok _) =>
          (nodes_state rs,
           Ok {| results := report_results rs;
                 duration_ms :=
                   Some (elapsed_ms start
                           (monotonic (world (nodes_state rs)))) |})
      | (rs, Raise e) => (nodes_state rs, Raise e)
      | (rs, OutOfFuel) => (nodes_state rs, OutOfFuel)
      end
  | Raise e => (st, Raise e)
  | OutOfFuel => (st, OutOfFuel)
  end.

(** *** Specification vocabulary for runs *)

(** The log entries of the task of node [id]: the calls of [execute] for
    it and below it, and the merge of its outputs. *)
Definition task_event (id : string) (e : Event) : Prop :=
  below [Top id] e ∨ e = Merged id.

Definition level_event (ids : list string) (e : Event) : Prop :=
  ∃ id, id ∈ ids ∧ task_event id e.

(** What a segment of the task of [id] may do to the run state: write the
    result of [id] and add log entries of [id]. *)
Definition task_step (id : string) (rs rs' : RunState) : Prop :=
  (∀ id', id' ≠ id → report_results rs' !! id' = report_results rs !! id') ∧
  appends (task_event id) (nodes_state rs) (nodes_state rs').

Definition level_step (ids : list string) (rs rs' : RunState) : Prop :=
  (∀ id', id' ∉ ids → report_results rs' !! id' = report_results rs !! id') ∧
  appends (level_event ids) (nodes_state rs) (nodes_state rs').

(** The result of an executed node: what [execute] made of an outcome of
    [run] that satisfies [P], with the level added. *)
Definition executed_result (P : exn NodeResult → Prop) (level_idx : Z)
    (r : NodeResult) : Prop :=
  ∃ outcome elapsed,
    P outcome ∧
    r = metadata_setdefault "level" (VInt level_idx)
          (metadata_setdefault "duration_ms" elapsed (absorb outcome)).

(** The task of [id] ended: its result, of the shape [P], is recorded, and
    its outputs were merged if it succeeded. *)
Definition task_ended (P : NodeResult → Prop) (id : string) (rs : RunState)
  : Prop :=
  ∃ r, report_results rs !! id = Some r ∧ P r ∧
       (status r = SUCCESS → Merged id ∈ log (nodes_state rs)).

(** The first segment of a task logs [e]. *)
Definition entry_logs (e : Event) (c : coro RunState (res unit)) : Prop :=
  ∀ rs, e ∈ log (nodes_state (resume c rs).1).

(** A pending task of [id]: it obeys the discipline of tasks, ends with
    its result recorded, and its call of [execute] is logged by its first
    segment or was logged already. And a task that has ended. *)
Definition pending (P : string → NodeResult → Prop) (rs : RunState)
    (id : string)
    (c : coro RunState (res unit)) : Prop :=
  obeys (task_step id)
        (λ rs' a, a = Ok () ∧ task_ended (P id) id rs') c ∧
  (entry_logs (Executed [Top id]) c ∨
   Executed [Top id] ∈ log (nodes_state rs)).

Definition ended (P : string → NodeResult → Prop) (id : string)
    (rs : RunState) : Prop :=
  task_ended (P id) id rs ∧
  Executed [Top id] ∈ log (nodes_state rs).

(** The record that the runner makes of a node that it skips. *)
Definition skipped_upstream (level_idx : Z) : NodeResult :=
  {| status := SKIPPED; outputs := ∅;
     error := Some "upstream dependency failed";
     metadata := {["level" := VInt level_idx]} |}.

(** The record that the runner makes of a node in a dry run. *)
Definition dry_run_skipped (level_idx : Z) : NodeResult :=
  {| status := SKIPPED; outputs := ∅; error := None;
     metadata := {["dry_run" := VBool true; "level" := VInt level_idx]} |}.

(** The result of the node registered under [id], executed at the level
    [level_idx]: what a call of [execute] on that node returned, started
    in some state [st] and ended in some state [st'], with the level
    added. *)
Definition own_result (graph : Graph.t (Node:=Node W)) (id : string)
    (level_idx : Z) (r : NodeResult) : Prop :=
  ∃ node st st' result,
    Graph.get_node graph id = Ok node ∧
    completes (execute [Top id] node) st st' (Return result) ∧
    r = metadata_setdefault "level" (VInt level_idx) result.

(** What the runner records for the node [id] of the level
    [level_idx]. *)
Definition recorded (self : t) (graph : Graph.t (Node:=Node W)) (id : string)
    (level_idx : Z) (r : NodeResult) : Prop :=
  if dry_run self then r = dry_run_skipped level_idx
  else r = skipped_upstream level_idx ∨ own_result graph id level_idx r.

(** *** What the context holds

    A step that leaves the context alone at [key]. *)
Definition keeps (key : string) (st st' : State W) : Prop :=
  Context._data (ctx st') !! key = Context._data (ctx st) !! key.

(** The value that the node [id], if it is recorded as SUCCESS, is
    recorded with for its output [k], is what the context holds under
    [id.k]. *)
Definition published (id k : string) (rs : RunState) : Prop :=
  ∀ r v, report_results rs !! id = Some r → status r = SUCCESS →
         outputs r !! k = Some v →
         Context._data (ctx (nodes_state rs)) !! Context.qualified id k
           = Some v.

(** *** Counting the calls of [execute]

    The number of times that the runner has called [execute] for the
    node [id], according to the log. *)
Definition calls (id : string) (l : list Event) : nat :=
  length (filter (λ e, e = Executed [Top id]) l).

(** A step that makes no such call, for any node. *)
Definition no_call (rs rs' : RunState) : Prop :=
  ∀ id, calls id (log (nodes_state rs')) = calls id (log (nodes_state rs)).

(** A task that has not started yet: its first segment makes the call for
    [id], once, and the rest of it makes none. *)
Definition first_call (id : string) (c : coro RunState (res unit)) : Prop :=
  ∀ rs,
    (∀ x, calls x (log (nodes_state (resume c rs).1)) =
            (calls x (log (nodes_state rs)) +
             if decide (x = id) then 1 else 0)%nat) ∧
    match (resume c rs).2 with
    | inl _ => True
    | inr c' => obeys no_call (λ _ _, True) c'
    end.

(** The tasks of a level, each with its id and whether it has started. *)
Definition task_calls (item : string * bool) (c : coro RunState (res unit))
  : Prop :=
  if item.2 then obeys no_call (λ _ _, True) c else first_call item.1 c.

Definition pending_calls (x : string) (items : list (string * bool)) : nat :=
  length (filter (λ item, item = (x, false)) items).

End runner.
End Runner.

(** ** Concrete nodes and runs used to exercise the theorems *)

Module Scenario.

(** A world with nothing in it and a clock that stands still. *)
#[global] Instance unit_world : World unit :=
  {| Time := unit; monotonic := λ _, (); elapsed_ms := λ _ _, VFloat 0 |}.

(** tests/test_runner.py: [SuccessNode], [FailNode]. *)
Definition SuccessNode (node_id : string) (outputs : gmap string Value)
  : Node unit :=
  CustomNode node_id
    (ret (Return {| status := SUCCESS; outputs := outputs; error := None;
                    metadata := ∅ |})).

Definition FailNode (node_id : string) (error : string) : Node unit :=
  CustomNode node_id
    (ret (Return {| status := FAILURE; outputs := ∅; error := Some error;
                    metadata := ∅ |})).

(** A node whose [run] raises. *)
Definition RaisingNode (node_id : string) (msg : string) : Node unit :=
  CustomNode node_id (ret (Raises msg)).

(** A node that suspends once, then reports what the context holds under
    [key]. *)
Definition PeekNode (node_id key : string) : Node unit :=
  CustomNode node_id
    (Segment (λ cw, (cw, inr
      (atomic (λ cw,
         (cw, Return {| status := SUCCESS;
                        outputs := {["seen" := Context.get cw.1 key VNone]};
                        error := None; metadata := ∅ |})))))).

(** Scenario E: verification that never passes, three attempts. *)
Definition never_passing : Node unit :=
  SuccessNode "check" {["passed" := VBool false]}.

Definition retry3 : Node unit :=
  RetryNode "retry" never_passing (SuccessNode "repair" ∅) 3 "passed".

(** A [run] that is cancelled while it is suspended: its [await] raises
    [asyncio.CancelledError]. *)
Definition cancelled_run : coro (State unit) (ending NodeResult) :=
  Segment (λ st, (st, inr (ret (Escapes "CancelledError")))).

(** A check that fails with a message, and a retry node that gives it two
    attempts. *)
Definition failing_check : Node unit :=
  CustomNode "check"
    (ret (Return {| status := FAILURE; outputs := {["passed" := VBool false]};
                    error := Some "bad"; metadata := ∅ |})).

Definition retry2 : Node unit :=
  RetryNode "retry" failing_check (SuccessNode "repair" ∅) 2 "passed".

(** The graphs of the scenarios, for any nodes registered under the ids
    a, b, c (g, s). *)
Section graphs.
Context {W : Type}.

Definition with_nodes (nodes : list (Node W)) : Graph.t (Node:=Node W) :=
  foldl (λ g n, Graph.add_node node_id n g) Graph.empty nodes.

(** Scenario C: edge a→b, c on its own. *)
Definition scenario_c (a b c : Node W) : Graph.t (Node:=Node W) :=
  Examples.of_res (Graph.add_edge "a" "b" (with_nodes [a; b; c])).

(** A chain a→b→c. *)
Definition chain (a b c : Node W) : Graph.t (Node:=Node W) :=
  Examples.of_res (Graph.add_edge "b" "c"
    (Examples.of_res (Graph.add_edge "a" "b" (with_nodes [a; b; c])))).

(** A gate and its successor: g→s. *)
Definition gated (g s : Node W) : Graph.t (Node:=Node W) :=
  Examples.of_res (Graph.add_edge "g" "s" (with_nodes [g; s])).

End graphs.

(** Two nodes of one level: a publishes x, b looks for a.x after having
    been suspended once. *)
Definition siblings : Graph.t (Node:=Node unit) :=
  with_nodes [SuccessNode "a" {["x" := VInt 1]}; PeekNode "b" "a.x"].

(** Two nodes of one level whose outputs qualify to the same key a.b.c,
    and a successor of both that looks for it. *)
Definition overwritten : Graph.t (Node:=Node unit) :=
  Examples.of_res (Graph.add_edge "a.b" "s"
    (Examples.of_res (Graph.add_edge "a" "s"
      (with_nodes [SuccessNode "a" {["b.c" := VInt 1]};
                   SuccessNode "a.b" {["c" := VInt 2]};
                   PeekNode "s" "a.b.c"])))).

Definition scenario_c_test : Graph.t (Node:=Node unit) :=
  scenario_c (FailNode "a" "boom") (SuccessNode "b" ∅) (SuccessNode "c" ∅).

Definition chain_test : Graph.t (Node:=Node unit) :=
  chain (FailNode "a" "boom") (SuccessNode "b" ∅) (SuccessNode "c" ∅).

Definition gated_test : Graph.t (Node:=Node unit) :=
  gated (GateNode "g" (λ _, false) "closed") (SuccessNode "s" ∅).

(** A closed gate g with the successors s and t, where s also depends on
    the failing node f. *)
Definition gate_fork : Graph.t (Node:=Node unit) :=
  Examples.of_res (Graph.add_edge "g" "t"
    (Examples.of_res (Graph.add_edge "f" "s"
      (Examples.of_res (Graph.add_edge "g" "s"
        (with_nodes [GateNode "g" (λ _, false) "closed"; FailNode "f" "boom";
                     SuccessNode "s" ∅; SuccessNode "t" ∅])))))).

(** An open gate and a successor that looks for what the gate
    published. *)
Definition gated_open_test : Graph.t (Node:=Node unit) :=
  gated (GateNode "g" (λ _, true) "closed") (PeekNode "s" "g.gate_open").

End Scenario.

(** * Verification *)

#[local] Arguments String.append !_ _ / : simpl nomatch.

Module GraphProofs.
Import Graph.
Section proofs.
Context {Node : Type}.
Implicit Types (g : Graph.t (Node:=Node)) (u v nid : string).

(** *** The representation invariant is kept by the public interface *)

Lemma dict_set_fst k (n : Node) d :
  (dict_set k n d).*1 = if decide (k ∈ d.*1) then d.*1 else d.*1 ++ [k].
Proof.
  induction d as [|[k' n'] d IH]; [done|].
  cbn [dict_set]. destruct (decide (k = k')) as [->|Hne]; rewrite !fmap_cons; cbn [fst].
  - rewrite decide_True by set_solver. done.
  - rewrite IH. destruct (decide (k ∈ d.*1)).
    + rewrite decide_True by set_solver. done.
    + rewrite decide_False by set_solver. done.
Qed.

Lemma setdefault_lookup k (d : gmap string (gset string)) k' :
  default ∅ (setdefault k d !! k') = default ∅ (d !! k').
Proof.
  unfold setdefault. destruct (d !! k) eqn:E; [done|].
  destruct (decide (k = k')) as [->|Hne].
  - rewrite lookup_insert_eq, E. done.
  - rewrite lookup_insert_ne by done. done.
Qed.

Lemma setdefault_is_Some k (d : gmap string (gset string)) k' :
  is_Some (setdefault k d !! k') ↔ k' = k ∨ is_Some (d !! k').
Proof.
  unfold setdefault. destruct (d !! k) eqn:E.
  - split; [auto|]. intros [->|]; [rewrite E; eauto | done].
  - destruct (decide (k = k')) as [->|Hne].
    + rewrite lookup_insert_eq. split; eauto.
    + rewrite lookup_insert_ne by done. split; [auto|]. intros [->|]; done.
Qed.

Lemma add_node_wf node_id (node : Node) g : wf g → wf (add_node node_id node g).
Proof.
  intros [Hnd He Hr Hm].
  assert (Hids : ∀ x, x ∈ node_ids (add_node node_id node g) ↔
                        x = node_id node ∨ x ∈ node_ids g).
  { intros x. unfold node_ids, add_node; simpl. rewrite dict_set_fst.
    case_decide; set_solver. }
  split.
  - unfold node_ids, add_node; simpl. rewrite dict_set_fst.
    case_decide; [done|]. apply NoDup_app. repeat split; [done| |apply NoDup_singleton].
    set_solver.
  - intros u. rewrite Hids. simpl. rewrite setdefault_is_Some, He. done.
  - intros u. rewrite Hids. simpl. rewrite setdefault_is_Some, Hr. done.
  - intros u v. unfold successors, predecessors; simpl.
    rewrite !setdefault_lookup. apply Hm.
Qed.

Lemma add_edge_wf source target g g' :
  wf g → add_edge source target g = Ok g' → wf g'.
Proof.
  intros [Hnd He Hr Hm]. unfold add_edge, contains.
  case_bool_decide as Hs; simpl; [|done].
  case_bool_decide as Ht; simpl; [|done].
  unfold set_add.
  destruct (_edges g !! source) as [es|] eqn:Ees; simpl; [|done].
  destruct (_reverse g !! target) as [rt|] eqn:Ert; simpl; [|done].
  intros [= <-]. split; simpl.
  - done.
  - intros u. unfold node_ids; simpl. rewrite <- (He u).
    destruct (decide (source = u)) as [->|].
    + rewrite lookup_insert_eq, Ees. split; eauto.
    + rewrite lookup_insert_ne by done. done.
  - intros u. unfold node_ids; simpl. rewrite <- (Hr u).
    destruct (decide (target = u)) as [->|].
    + rewrite lookup_insert_eq, Ert. split; eauto.
    + rewrite lookup_insert_ne by done. done.
  - intros u v. unfold successors, predecessors; simpl.
    specialize (Hm u v). unfold successors, predecessors in Hm.
    destruct (decide (source = u)) as [->|Hsu];
      destruct (decide (target = v)) as [->|Htv];
      rewrite ?lookup_insert_eq, ?lookup_insert_ne by done; simpl.
    + set_solver.
    + rewrite Ees in Hm. simpl in Hm. set_solver.
    + rewrite Ert in Hm. simpl in Hm. set_solver.
    + done.
Qed.

Lemma empty_wf : wf (Graph.empty (Node:=Node)).
Proof.
  split; unfold node_ids, successors, predecessors; simpl.
  - constructor.
  - intros u. rewrite lookup_empty. split; [intros []; done | set_solver].
  - intros u. rewrite lookup_empty. split; [intros []; done | set_solver].
  - intros u v. rewrite !lookup_empty. done.
Qed.

Lemma built_wf node_id g : built node_id g → wf g.
Proof.
  induction 1; eauto using empty_wf, add_node_wf, add_edge_wf.
Qed.

(** *** One pop of Kahn's loop *)

Lemma filter_ext_elem (P Q : string → Prop) `{∀ x, Decision (P x)}
    `{∀ x, Decision (Q x)} (l : list string) :
  (∀ x, x ∈ l → P x ↔ Q x) → filter P l = filter Q l.
Proof.
  induction l as [|a l IH]; intros HPQ; [done|].
  rewrite !filter_cons, IH by set_solver.
  destruct (decide (P a)) as [HP|HP], (decide (Q a)) as [HQ|HQ]; try done;
    exfalso; apply (HPQ a) in HP || apply (HPQ a) in HQ; set_solver.
Qed.

Lemma relax_all_spec (ss : list string) (st : kahn) :
  NoDup ss →
  (∀ s, s ∈ ss → is_Some (in_degree st !! s)) →
  ∃ deg',
    relax_all ss st =
      Ok (mkKahn deg'
            (queue st ++ filter (λ s, in_degree st !! s = Some 1) ss)
            (visited st)) ∧
    ∀ v, deg' !! v =
           if decide (v ∈ ss) then (λ d, d - 1) <$> in_degree st !! v
           else in_degree st !! v.
Proof.
  revert st. induction ss as [|s ss IH]; intros st Hnd Hdom.
  - exists (in_degree st). split.
    + simpl. rewrite app_nil_r. by destruct st.
    + intros v. rewrite decide_False by set_solver. done.
  - apply NoDup_cons in Hnd as [Hs Hnd].
    destruct (Hdom s) as [d Hd]; [set_solver|].
    cbn [relax_all]. unfold relax. rewrite Hd.
    set (st1 := if bool_decide (d - 1 = 0)
                then mkKahn (<[s:=d - 1]> (in_degree st)) (queue st ++ [s]) (visited st)
                else mkKahn (<[s:=d - 1]> (in_degree st)) (queue st) (visited st)).
    assert (Hdeg1 : in_degree st1 = <[s:=d - 1]> (in_degree st))
      by (unfold st1; by case_bool_decide).
    assert (Hvis1 : visited st1 = visited st)
      by (unfold st1; by case_bool_decide).
    destruct (IH st1 Hnd) as (deg' & Hrun & Hdeg').
    { intros x Hx. rewrite Hdeg1.
      rewrite lookup_insert_ne by set_solver. apply Hdom. set_solver. }
    exists deg'. split.
    + transitivity (relax_all ss st1).
      { unfold st1. by case_bool_decide. }
      rewrite Hrun, Hvis1. f_equal. f_equal.
      rewrite filter_cons.
      assert (Hflt : filter (λ x, in_degree st1 !! x = Some 1) ss =
                     filter (λ x, in_degree st !! x = Some 1) ss).
      { apply filter_ext_elem. intros x Hx.
        rewrite Hdeg1, lookup_insert_ne by set_solver. done. }
      rewrite Hflt. unfold st1. rewrite Hd.
      case_bool_decide as Hz; simpl.
      * rewrite decide_True by (f_equal; lia). by rewrite <- app_assoc.
      * rewrite decide_False; [done|]. intros [= ?]. lia.
    + intros v. rewrite Hdeg', Hdeg1.
      destruct (decide (v = s)) as [->|Hne].
      * rewrite decide_False by done. rewrite decide_True by set_solver.
        rewrite lookup_insert_eq, Hd. done.
      * rewrite lookup_insert_ne by done.
        destruct (decide (v ∈ ss)).
        -- rewrite decide_True by set_solver. done.
        -- rewrite decide_False by set_solver. done.
Qed.

Lemma size_difference_step (X D : gset string) u :
  u ∈ X → u ∉ D → size (X ∖ D) = S (size (X ∖ (D ∪ {[u]}))).
Proof.
  intros HX HD.
  assert (X ∖ D = {[u]} ∪ X ∖ (D ∪ {[u]})) as ->.
  { apply set_eq. intros x. destruct (decide (x = u)); set_solver. }
  rewrite size_union by set_solver. rewrite size_singleton. done.
Qed.

Lemma successors_registered g u v :
  wf g → v ∈ successors g u → u ∈ node_ids g ∧ v ∈ node_ids g.
Proof.
  intros Hwf Huv. split.
  - apply (wf_edges_dom g Hwf). unfold successors in Huv.
    destruct (_edges g !! u); [eauto | set_solver].
  - apply (wf_mirror g Hwf) in Huv. apply (wf_reverse_dom g Hwf).
    unfold predecessors in Huv.
    destruct (_reverse g !! v); [eauto | set_solver].
Qed.

Lemma pop_spec g done level st u q' :
  wf g → kahn_inv g done st → queue st = u :: q' →
  ∃ st' new,
    pop g level st = Ok (level ++ [u], st') ∧
    queue st' = q' ++ new ∧
    kahn_inv g (done ++ [u]) st'.
Proof.
  intros Hwf [Hnd Hreg Hvis Hcnt Hrdy Hcmp Hcls] Hq.
  rewrite Hq in *.
  assert (Hu_reg : u ∈ node_ids g) by (apply Hreg; set_solver).
  assert (Hu_nd : u ∉ done).
  { apply NoDup_app in Hnd as (_ & Hdis & _). intros Hin.
    apply (Hdis u Hin). set_solver. }
  assert (Hu_rdy : predecessors g u ⊆ list_to_set done)
    by (apply Hrdy; set_solver).
  set (st0 := mkKahn (in_degree st) q' (visited st + 1)).
  destruct (relax_all_spec (elements (successors g u)) st0)
    as (deg' & Hrun & Hdeg').
  { apply NoDup_elements. }
  { intros s Hs. apply elem_of_elements in Hs.
    apply (successors_registered g u s Hwf) in Hs as [_ Hs].
    simpl. rewrite (Hcnt s Hs). eauto. }
  simpl in Hrun, Hdeg'.
  set (new := filter (λ s, in_degree st !! s = Some 1)
                (elements (successors g u))) in *.
  assert (Hnew : ∀ s, s ∈ new →
            s ∈ node_ids g ∧ u ∈ predecessors g s ∧
            predecessors g s ∖ list_to_set done = {[u]}).
  { intros s Hs. apply list_elem_of_filter in Hs as [Hone Hs].
    apply elem_of_elements in Hs.
    pose proof (successors_registered g u s Hwf Hs) as [_ Hsr].
    apply (wf_mirror g Hwf) in Hs.
    rewrite (Hcnt s Hsr) in Hone.
    assert (Hsz : size (predecessors g s ∖ list_to_set done) = 1%nat)
      by (injection Hone; lia).
    repeat split; [done..|].
    apply size_1_elem_of in Hsz as [x Hx].
    apply leibniz_equiv in Hx. rewrite Hx.
    assert (u ∈ predecessors g s ∖ list_to_set done) as Hin by set_solver.
    rewrite Hx in Hin. set_solver. }
  exists (mkKahn deg' (q' ++ new) (visited st + 1)), new.
  split; [|split; [done|]].
  { unfold pop. rewrite Hq. fold st0. rewrite Hrun. done. }
  assert (Hset : list_to_set (done ++ [u]) =@{gset string}
                 list_to_set done ∪ {[u]}).
  { rewrite list_to_set_app_L. set_solver. }
  split; simpl.
  - (* no duplicates *)
    rewrite <- app_assoc. simpl.
    replace (done ++ u :: q' ++ new) with ((done ++ u :: q') ++ new)
      by (by rewrite <- app_assoc).
    apply NoDup_app. split; [done|]. split.
    + intros x Hx Hxn. destruct (Hnew x Hxn) as (_ & Hux & Hdiff).
      assert (predecessors g x ⊆ list_to_set done) as Hsub.
      { apply elem_of_app in Hx as [Hx|Hx]; [by apply Hcls | by apply Hrdy]. }
      set_solver.
    + apply NoDup_filter, NoDup_elements.
  - (* registered *)
    intros v Hv. rewrite <- app_assoc in Hv. simpl in Hv.
    apply elem_of_app in Hv as [Hv|Hv]; [apply Hreg; set_solver|].
    apply elem_of_cons in Hv as [->|Hv]; [done|].
    apply elem_of_app in Hv as [Hv|Hv]; [apply Hreg; set_solver|].
    by apply Hnew.
  - (* visited *)
    rewrite Hvis, length_app. simpl. lia.
  - (* counts *)
    intros v Hv. rewrite Hdeg', (Hcnt v Hv), Hset.
    destruct (decide (v ∈ elements (successors g u))) as [Hin|Hin].
    + apply elem_of_elements, (wf_mirror g Hwf) in Hin.
      simpl. f_equal.
      rewrite (size_difference_step _ (list_to_set done) u) by set_solver.
      lia.
    + assert (u ∉ predecessors g v) as Hnp.
      { intros Hp. apply Hin, elem_of_elements, (wf_mirror g Hwf), Hp. }
      do 3 f_equal. set_solver.
  - (* ready *)
    intros v Hv. rewrite Hset.
    apply elem_of_app in Hv as [Hv|Hv].
    + etrans; [apply Hrdy; set_solver | set_solver].
    + destruct (Hnew v Hv) as (_ & _ & Hdiff).
      intros p Hp. destruct (decide (p ∈ (list_to_set done : gset string)));
        set_solver.
  - (* complete *)
    intros v Hv Hnd' Hsub. rewrite Hset in Hsub.
    destruct (decide (predecessors g v ⊆ list_to_set done)) as [Hold|Hold].
    + specialize (Hcmp v Hv). apply elem_of_app. left.
      rewrite elem_of_app, list_elem_of_singleton in Hnd'.
      assert (v ∈ u :: q') as Hin by (apply Hcmp; [tauto | exact Hold]).
      apply elem_of_cons in Hin as [->|Hin]; [tauto | exact Hin].
    + apply elem_of_app. right.
      assert (u ∈ predecessors g v) as Hup.
      { destruct (decide (u ∈ predecessors g v)); [done|].
        exfalso. apply Hold. set_solver. }
      apply list_elem_of_filter. split.
      * rewrite (Hcnt v Hv). do 2 f_equal.
        assert (predecessors g v ∖ list_to_set done = {[u]}) as ->.
        { apply set_eq. intros x. set_solver. }
        by rewrite size_singleton.
      * apply elem_of_elements, (wf_mirror g Hwf), Hup.
  - (* closed *)
    intros v Hv. rewrite Hset. apply elem_of_app in Hv as [Hv|Hv].
    + etrans; [by apply Hcls | set_solver].
    + apply list_elem_of_singleton in Hv as ->. set_solver.
Qed.

(** *** Draining one level, and the whole loop *)

Lemma drain_spec g rest : ∀ new done level st,
  wf g → kahn_inv g done st → queue st = rest ++ new →
  ∃ st' new',
    drain g (length rest) level st = Ok (level ++ rest, st') ∧
    queue st' = new ++ new' ∧
    kahn_inv g (done ++ rest) st'.
Proof.
  induction rest as [|u rest IH]; intros new done level st Hwf Hinv Hq.
  - exists st, []. simpl. rewrite !app_nil_r. done.
  - destruct (pop_spec g done level st u (rest ++ new) Hwf Hinv Hq)
      as (st1 & new1 & Hpop & Hq1 & Hinv1).
    rewrite <- app_assoc in Hq1.
    destruct (IH (new ++ new1) (done ++ [u]) (level ++ [u]) st1 Hwf Hinv1 Hq1)
      as (st2 & new2 & Hdrain & Hq2 & Hinv2).
    exists st2, (new1 ++ new2). cbn [length drain]. rewrite Hpop. simpl.
    rewrite Hdrain. rewrite <- !app_assoc in *. done.
Qed.

Lemma init_in_degree_lookup g v :
  v ∈ node_ids g →
  init_in_degree g !! v = Some (Z.of_nat (size (predecessors g v))).
Proof.
  intros Hv. unfold init_in_degree.
  induction (node_ids g) as [|a l IH]; [set_solver|].
  rewrite fmap_cons. cbn [list_to_map foldr]. simpl.
  destruct (decide (a = v)) as [->|Hne].
  - by rewrite lookup_insert_eq.
  - rewrite lookup_insert_ne by done. apply IH. set_solver.
Qed.

Lemma init_inv g : wf g → kahn_inv g [] (init g).
Proof.
  intros Hwf. split; simpl.
  - apply NoDup_filter, (wf_nodup g Hwf).
  - intros v Hv. by apply list_elem_of_filter in Hv as [_ Hv].
  - done.
  - intros v Hv. rewrite init_in_degree_lookup by done.
    do 3 f_equal. set_solver.
  - intros v Hv. apply list_elem_of_filter in Hv as [Hz Hv].
    rewrite init_in_degree_lookup in Hz by done.
    assert (size (predecessors g v) = 0%nat) as Hsz by (injection Hz; lia).
    apply size_empty_inv in Hsz. set_solver.
  - intros v Hv _ Hsub. apply list_elem_of_filter. split; [|done].
    rewrite init_in_degree_lookup by done.
    assert (predecessors g v = ∅) as -> by set_solver.
    by rewrite size_empty.
  - set_solver.
Qed.

Lemma elem_of_concat {A} (x : A) (ls : list (list A)) :
  x ∈ concat ls ↔ ∃ l, x ∈ l ∧ l ∈ ls.
Proof.
  induction ls as [|l ls IH]; simpl.
  - set_solver.
  - rewrite elem_of_app, IH. split.
    + intros [Hx|(l' & Hx & Hl')]; [exists l | exists l']; set_solver.
    + intros (l' & Hx & Hl'). apply elem_of_cons in Hl' as [->|Hl']; eauto.
Qed.

Lemma not_subseteq_witness (X Y : gset string) :
  ¬ X ⊆ Y → ∃ x, x ∈ X ∧ x ∉ Y.
Proof.
  intros Hn. destruct (decide (X ∖ Y = ∅)) as [He|He].
  - exfalso. apply Hn. set_solver.
  - apply set_choose_L in He as [x Hx]. exists x. set_solver.
Qed.

Lemma inv_length_le g done st :
  kahn_inv g done st → (length (done ++ queue st) ≤ length (node_ids g))%nat.
Proof.
  intros Hinv. apply submseteq_length, NoDup_submseteq.
  - apply (ki_nodup g done st Hinv).
  - apply (ki_registered g done st Hinv).
Qed.

Lemma while_queue_spec g fuel : ∀ lv st,
  wf g → kahn_inv g (concat lv) st → levels_inv g lv →
  (∀ v i', v ∈ queue st → length lv = S i' →
     ∃ p level', p ∈ predecessors g v ∧ lv !! i' = Some level' ∧ p ∈ level') →
  (length (node_ids g) ≤ fuel + length (concat lv))%nat →
  ∃ lv' st',
    while_queue fuel g lv st = Ok (lv', st') ∧
    queue st' = [] ∧ kahn_inv g (concat lv') st' ∧ levels_inv g lv'.
Proof.
  induction fuel as [|fuel IH]; intros lv st Hwf Hinv Hlv Hprev Hfuel.
  - pose proof (inv_length_le g _ _ Hinv) as Hle.
    rewrite length_app in Hle.
    destruct (queue st) as [|a q] eqn:Hq; [|simpl in *; lia].
    exists lv, st. simpl. rewrite Hq. done.
  - destruct (queue st) as [|a q] eqn:Hq.
    { exists lv, st. simpl. rewrite Hq. done. }
    destruct (drain_spec g (queue st) [] (concat lv) [] st Hwf Hinv)
      as (st1 & new & Hdrain & Hq1 & Hinv1); [by rewrite app_nil_r|].
    simpl in Hdrain, Hq1.
    assert (Hcat : concat (lv ++ [queue st]) = concat lv ++ queue st).
    { rewrite concat_app. simpl. by rewrite app_nil_r. }
    rewrite <- Hcat in Hinv1.
    destruct (IH (lv ++ [queue st]) st1 Hwf Hinv1) as (lv' & st' & Hrun & Hres).
    + (* the levels emitted so far *)
      intros i level v Hi Hv.
      destruct (decide (i < length lv)%nat) as [Hlt|Hge].
      * rewrite lookup_app_l in Hi by done.
        destruct (Hlv i level v Hi Hv) as [Hall Hone]. split.
        -- intros p Hp. destruct (Hall p Hp) as (j & l' & Hj & Hl' & Hpl).
           exists j, l'. split; [done|]. split; [|done].
           rewrite lookup_app_l by lia. done.
        -- intros i' ->. destruct (Hone i' eq_refl) as (p & l' & Hp & Hl' & Hpl).
           exists p, l'. split; [done|]. split; [|done].
           rewrite lookup_app_l by lia. done.
      * rewrite lookup_app_r in Hi by lia.
        destruct (i - length lv)%nat eqn:Hd; [|by destruct n].
        injection Hi as <-. assert (i = length lv) as -> by lia. split.
        -- intros p Hp.
           pose proof (ki_ready g _ _ Hinv v Hv p Hp) as Hpd.
           apply elem_of_list_to_set, elem_of_concat in Hpd
             as (l' & Hpl & Hl').
           apply list_elem_of_lookup in Hl' as [j Hj].
           exists j, l'. split; [by eapply lookup_lt_Some|]. split; [|done].
           rewrite lookup_app_l by (by eapply lookup_lt_Some). done.
        -- intros i' Hi'. pose proof Hv as Hv'. rewrite Hq in Hv'.
           destruct (Hprev v i' Hv' Hi') as (p & l' & Hp & Hl' & Hpl).
           exists p, l'. split; [done|]. split; [|done].
           rewrite lookup_app_l by lia. done.
    + (* the queue is one level past the last one *)
      intros v i' Hv Hlen. rewrite length_app in Hlen. simpl in Hlen.
      assert (i' = length lv) as -> by lia.
      pose proof (ki_nodup g _ _ Hinv1) as Hnd1.
      rewrite Hcat in Hnd1.
      assert (Hvn : v ∉ concat lv ++ queue st).
      { apply NoDup_app in Hnd1 as (_ & Hdis & _). intros Hin.
        by apply (Hdis v Hin). }
      assert (Hvr : v ∈ node_ids g).
      { apply (ki_registered g _ _ Hinv1). set_solver. }
      destruct (decide (predecessors g v ⊆ list_to_set (concat lv)))
        as [Hsub|Hsub].
      { exfalso. apply Hvn, elem_of_app. right.
        apply (ki_complete g _ _ Hinv v Hvr); [set_solver | done]. }
      apply not_subseteq_witness in Hsub as (p & Hp & Hpn).
      pose proof (ki_ready g _ _ Hinv1 v Hv p Hp) as Hpd.
      rewrite Hcat, list_to_set_app_L in Hpd.
      exists p, (queue st). split; [done|]. split.
      * rewrite lookup_app_r by lia. by rewrite Nat.sub_diag.
      * set_solver.
    + rewrite Hcat, length_app, Hq. simpl. lia.
    + exists lv', st'. split; [|done].
      cbn [while_queue]. rewrite Hq. rewrite <- Hq. rewrite Hdrain. simpl. done.
Qed.

Lemma levels_run g :
  wf g →
  ∃ lv st,
    while_queue (length (_nodes g)) g [] (init g) = Ok (lv, st) ∧
    queue st = [] ∧ kahn_inv g (concat lv) st ∧ levels_inv g lv.
Proof.
  intros Hwf. apply while_queue_spec.
  - done.
  - by apply init_inv.
  - intros i level v Hi. done.
  - intros v i' _ Hlen. done.
  - unfold node_ids. rewrite length_fmap. simpl. lia.
Qed.

(** *** A stuck loop exhibits a cycle *)

Lemma is_walk_app_r g l1 l2 : is_walk g (l1 ++ l2) → is_walk g l2.
Proof.
  induction l1 as [|a l1 IH]; [done|]. simpl. intros [_ H]. by apply IH.
Qed.

Lemma is_walk_tc g l : ∀ x y, is_walk g (x :: l ++ [y]) → tc (edge g) x y.
Proof.
  induction l as [|a l IH]; intros x y.
  - simpl. intros [H _]. by apply tc_once.
  - cbn [app]. intros [Hxa Hw]. eapply tc_l; [exact Hxa|]. by apply IH.
Qed.

Lemma is_walk_prefix g l1 l2 : is_walk g (l1 ++ l2) → is_walk g l1.
Proof.
  induction l1 as [|a l1 IH]; [done|].
  cbn [app is_walk]. intros [Hh Ht]. split; [|by apply IH].
  destruct l1; [done|]. done.
Qed.

Lemma dup_split (l : list string) :
  ¬ NoDup l → ∃ l1 x l2 l3, l = l1 ++ x :: l2 ++ x :: l3.
Proof.
  induction l as [|a l IH]; intros Hn.
  - destruct Hn. constructor.
  - destruct (decide (a ∈ l)) as [Hin|Hnin].
    + apply list_elem_of_split in Hin as (l2 & l3 & ->).
      by exists [], a, l2, l3.
    + destruct IH as (l1 & x & l2 & l3 & ->).
      { intros Hnd. apply Hn. by constructor. }
      by exists (a :: l1), x, l2, l3.
Qed.

Lemma backward_walk g (S : gset string) n :
  (∀ v, v ∈ S → ∃ p, p ∈ S ∧ edge g p v) →
  ∀ v, v ∈ S →
  ∃ l, length l = Datatypes.S n ∧ is_walk g l ∧ ∀ x, x ∈ l → x ∈ S.
Proof.
  intros Hpred v Hv.
  cut (∃ h t, length (h :: t) = Datatypes.S n ∧ is_walk g (h :: t) ∧
              ∀ x, x ∈ h :: t → x ∈ S).
  { intros (h & t & ?). by exists (h :: t). }
  induction n as [|n (h & t & Hlen & Hw & Hin)].
  - exists v, []. simpl. set_solver.
  - destruct (Hpred h) as (p & Hp & Hph); [set_solver|].
    exists p, (h :: t). split; [simpl in *; lia|]. split; [done|]. set_solver.
Qed.

Lemma closed_set_cyclic g (S : gset string) v :
  v ∈ S → (∀ v, v ∈ S → ∃ p, p ∈ S ∧ edge g p v) → cyclic g.
Proof.
  intros Hv Hpred.
  destruct (backward_walk g S (size S) Hpred v Hv) as (l & Hlen & Hw & Hin).
  destruct (dup_split l) as (l1 & x & l2 & l3 & ->).
  { intros Hnd.
    assert (length l ≤ size S)%nat; [|lia].
    unfold size, set_size. simpl.
    apply submseteq_length, NoDup_submseteq; [done|].
    intros y Hy. apply elem_of_elements. by apply Hin. }
  exists x. apply (is_walk_tc g l2).
  apply is_walk_app_r in Hw.
  replace (x :: l2 ++ x :: l3) with ((x :: l2 ++ [x]) ++ l3) in Hw
    by (simpl; by rewrite <- app_assoc).
  by apply is_walk_prefix in Hw.
Qed.

Lemma stuck_cyclic g done st v :
  wf g → kahn_inv g done st → queue st = [] →
  v ∈ node_ids g → v ∉ done → cyclic g.
Proof.
  intros Hwf Hinv Hq Hv Hnd.
  apply (closed_set_cyclic g
           (list_to_set (node_ids g) ∖ list_to_set done) v); [set_solver|].
  intros x Hx. apply elem_of_difference in Hx as [Hxr Hxd].
  apply elem_of_list_to_set in Hxr.
  rewrite elem_of_list_to_set in Hxd.
  destruct (decide (predecessors g x ⊆ list_to_set done)) as [Hsub|Hsub].
  { pose proof (ki_complete g _ _ Hinv x Hxr Hxd Hsub) as Hin.
    rewrite Hq in Hin. set_solver. }
  apply not_subseteq_witness in Hsub as (p & Hp & Hpn).
  apply (wf_mirror g Hwf) in Hp.
  exists p. split; [|done].
  apply (successors_registered g p x Hwf) in Hp as [Hp _]. set_solver.
Qed.

(** *** Group indices *)

Lemma group_index_Some lv v i :
  group_index lv v = Some i → ∃ l, lv !! i = Some l ∧ v ∈ l.
Proof.
  revert i. induction lv as [|l lv IH]; intros i; [done|].
  simpl. case_decide as Hin.
  - intros [= <-]. by exists l.
  - destruct (group_index lv v) as [j|]; [|done]. simpl.
    intros [= <-]. by apply IH.
Qed.

Lemma group_index_lookup lv v i l :
  NoDup (concat lv) → lv !! i = Some l → v ∈ l → group_index lv v = Some i.
Proof.
  revert i. induction lv as [|l0 lv IH]; intros i Hnd Hi Hv; [done|].
  simpl in Hnd. apply NoDup_app in Hnd as (_ & Hdis & Hnd).
  destruct i as [|i]; simpl in *.
  - injection Hi as ->. by rewrite decide_True.
  - rewrite decide_False.
    + by rewrite (IH i Hnd Hi Hv).
    + intros Hin. apply (Hdis v Hin), elem_of_concat.
      exists l. split; [done|]. by eapply list_elem_of_lookup_2.
Qed.

Lemma group_index_is_Some lv v :
  v ∈ concat lv → is_Some (group_index lv v).
Proof.
  induction lv as [|l lv IH]; simpl; [set_solver|].
  intros Hv. case_decide; [eauto|].
  destruct IH as [j Hj]; [set_solver|]. rewrite Hj. eauto.
Qed.

(** *** What [levels] returns *)

Lemma levels_outcome g :
  wf g →
  (∃ lv, levels g = Ok lv ∧ concat lv ≡ₚ node_ids g ∧ levels_inv g lv) ∨
  (∃ n, levels g = Raise (CycleError n (len g)) ∧ 0 ≤ n < len g ∧ cyclic g).
Proof.
  intros Hwf.
  destruct (levels_run g Hwf) as (lv & st & Hrun & Hq & Hinv & Hlv).
  pose proof (inv_length_le g _ _ Hinv) as Hle.
  rewrite Hq, app_nil_r in Hle.
  pose proof (ki_nodup g _ _ Hinv) as Hnd. rewrite Hq, app_nil_r in Hnd.
  pose proof (ki_visited g _ _ Hinv) as Hvis.
  assert (Hlen : len g = Z.of_nat (length (node_ids g))).
  { unfold len, node_ids. by rewrite length_fmap. }
  unfold levels. rewrite Hrun. simpl.
  case_bool_decide as Hneq.
  - right. exists (visited st). split; [done|]. split; [lia|].
    destruct (decide (Forall (λ v, v ∈ concat lv) (node_ids g))) as [Hall|Hex].
    + exfalso. apply Hneq. rewrite Hvis, Hlen. f_equal.
      apply Nat.le_antisymm; [done|].
      apply submseteq_length, NoDup_submseteq; [apply (wf_nodup g Hwf)|].
      by apply Forall_forall.
    + apply not_Forall_Exists in Hex; [|apply _].
      apply Exists_exists in Hex as (v & Hv & Hnv).
      by apply (stuck_cyclic g (concat lv) st v).
  - left. exists lv. split; [done|]. split; [|done].
    apply submseteq_length_Permutation.
    + apply NoDup_submseteq; [done|].
      intros x Hx. apply (ki_registered g _ _ Hinv). set_solver.
    + lia.
Qed.

Lemma levels_inv_edge g lv u v :
  wf g → concat lv ≡ₚ node_ids g → levels_inv g lv → edge g u v →
  ∃ i j, group_index lv u = Some i ∧ group_index lv v = Some j ∧ (i < j)%nat.
Proof.
  intros Hwf Hperm Hlv Huv.
  assert (Hnd : NoDup (concat lv)) by (rewrite Hperm; apply (wf_nodup g Hwf)).
  pose proof (successors_registered g u v Hwf Huv) as [_ Hv].
  rewrite <- Hperm in Hv.
  destruct (group_index_is_Some lv v Hv) as [j Hj].
  destruct (group_index_Some lv v j Hj) as (l & Hl & Hvl).
  destruct (Hlv j l v Hl Hvl) as [Hall _].
  destruct (Hall u) as (i & l' & Hij & Hl' & Hul').
  { by apply (wf_mirror g Hwf). }
  exists i, j. split; [|done]. by eapply group_index_lookup.
Qed.

Lemma levels_ok_acyclic g lv :
  wf g → concat lv ≡ₚ node_ids g → levels_inv g lv → acyclic g.
Proof.
  intros Hwf Hperm Hlv.
  assert (Hlt : ∀ u v, tc (edge g) u v →
            ∃ i j, group_index lv u = Some i ∧ group_index lv v = Some j ∧
                   (i < j)%nat).
  { induction 1 as [u v Huv | u w v Huw _ (j & k & Hj & Hk & Hjk)].
    - by apply (levels_inv_edge g lv).
    - destruct (levels_inv_edge g lv u w Hwf Hperm Hlv Huw)
        as (i & j' & Hi & Hj' & Hij).
      exists i, k. rewrite Hj in Hj'. injection Hj' as <-.
      split; [done|]. split; [done|]. lia. }
  intros v Hc. destruct (Hlt v v Hc) as (i & j & Hi & Hj & Hij).
  rewrite Hi in Hj. injection Hj as <-. lia.
Qed.

Lemma max_list_le (ns : list nat) m :
  (∀ n, n ∈ ns → (n ≤ m)%nat) → (max_list ns ≤ m)%nat.
Proof.
  induction ns as [|a ns IH]; simpl; intros H; [lia|].
  apply Nat.max_lub; [apply H; set_solver | apply IH; set_solver].
Qed.

Lemma levels_inv_index g lv v :
  wf g → concat lv ≡ₚ node_ids g → levels_inv g lv → v ∈ node_ids g →
  group_index lv v =
    Some (if decide (predecessors g v = ∅) then O
          else S (max_index lv (predecessors g v))).
Proof.
  intros Hwf Hperm Hlv Hv.
  assert (Hnd : NoDup (concat lv)) by (rewrite Hperm; apply (wf_nodup g Hwf)).
  rewrite <- Hperm in Hv.
  destruct (group_index_is_Some lv v Hv) as [i Hi].
  destruct (group_index_Some lv v i Hi) as (l & Hl & Hvl).
  destruct (Hlv i l v Hl Hvl) as [Hall Hone].
  rewrite Hi. f_equal. case_decide as Hemp.
  - destruct i as [|i']; [done|].
    destruct (Hone i' eq_refl) as (p & _ & Hp & _). set_solver.
  - apply set_choose_L in Hemp as [p0 Hp0].
    destruct (Hall p0 Hp0) as (j0 & _ & Hj0 & _).
    destruct i as [|i']; [lia|]. f_equal.
    destruct (Hone i' eq_refl) as (p & l' & Hp & Hl' & Hpl').
    apply Nat.le_antisymm.
    + apply max_list_elem_of_le, list_elem_of_fmap.
      exists p. split; [|by apply elem_of_elements].
      by rewrite (group_index_lookup lv p i' l' Hnd Hl' Hpl').
    + apply max_list_le. intros n Hn.
      apply list_elem_of_fmap in Hn as (q & -> & Hq).
      apply elem_of_elements in Hq.
      destruct (Hall q Hq) as (j & lq & Hj & Hlq & Hqlq).
      rewrite (group_index_lookup lv q j lq Hnd Hlq Hqlq). simpl. lia.
Qed.

(** *** Re-registration *)

Lemma dict_get_set k (n : Node) d : dict_get k (dict_set k n d) = Some n.
Proof.
  induction d as [|[k' n'] d IH]; simpl.
  - by rewrite decide_True.
  - destruct (decide (k = k')) as [->|Hne]; simpl.
    + by rewrite decide_True.
    + by rewrite decide_False.
Qed.

Lemma dict_set_idemp k (n : Node) d :
  dict_set k n (dict_set k n d) = dict_set k n d.
Proof.
  induction d as [|[k' n'] d IH]; simpl.
  - by rewrite decide_True.
  - destruct (decide (k = k')) as [->|Hne]; simpl.
    + by rewrite decide_True.
    + rewrite decide_False by done. by rewrite IH.
Qed.

Lemma setdefault_idemp k (d : gmap string (gset string)) :
  setdefault k (setdefault k d) = setdefault k d.
Proof.
  unfold setdefault. destruct (d !! k) eqn:E.
  - by rewrite E.
  - by rewrite lookup_insert_eq.
Qed.

Lemma setdefault_present k (d : gmap string (gset string)) :
  is_Some (d !! k) → setdefault k d = d.
Proof. intros [s Hs]. unfold setdefault. by rewrite Hs. Qed.

Lemma setdefault_fresh k (d : gmap string (gset string)) :
  d !! k = None → setdefault k d !! k = Some ∅.
Proof. intros Hn. unfold setdefault. rewrite Hn. by rewrite lookup_insert_eq. Qed.

End proofs.
End GraphProofs.

Module GraphClaims.
Import Graph GraphProofs Examples.

Lemma levels_Ok_acyclic {Node} (g : Graph.t (Node:=Node)) lv :
  wf g → levels g = Ok lv → acyclic g.
Proof.
  intros Hwf Hok.
  destruct (levels_outcome g Hwf) as [(lv' & _ & Hperm & Hlv)|(n & Hr & _)].
  - by apply (levels_ok_acyclic g lv').
  - congruence.
Qed.

Lemma of_res_add_edge_wf {Node} source target (g : Graph.t (Node:=Node)) :
  wf g → wf (of_res (add_edge source target g)).
Proof.
  intros Hwf. destruct (add_edge source target g) as [g'| |] eqn:E; simpl.
  - by eapply add_edge_wf.
  - apply empty_wf.
  - apply empty_wf.
Qed.

Lemma ids_wf l : wf (ids l).
Proof.
  unfold ids. generalize (empty_wf (Node:=string)).
  generalize (Graph.empty (Node:=string)).
  induction l as [|a l IH]; intros g Hg; simpl; [done|].
  apply IH. by apply add_node_wf.
Qed.

Lemma diamond_wf : wf diamond.
Proof. unfold diamond. repeat apply of_res_add_edge_wf. apply ids_wf. Qed.

Lemma diamond_levels : levels diamond = Ok [["a"]; ["c"; "b"]; ["d"]].
Proof. vm_compute. reflexivity. Qed.

Lemma diamond_acyclic : acyclic diamond.
Proof.
  apply (levels_Ok_acyclic diamond [["a"]; ["c"; "b"]; ["d"]]).
  - apply diamond_wf.
  - apply diamond_levels.
Qed.

Lemma two_cycle_wf : wf two_cycle.
Proof. unfold two_cycle. repeat apply of_res_add_edge_wf. apply ids_wf. Qed.

Lemma tagged_edge_wf : wf tagged_edge.
Proof.
  unfold tagged_edge. apply of_res_add_edge_wf.
  repeat apply add_node_wf. apply empty_wf.
Qed.

(** C1. On every acyclic graph [levels] returns groups that hold every
    registered id exactly once, that put the source of every edge in a
    strictly earlier group than its target, and in which a node without
    predecessors has group index 0 and any other node has group index one
    more than the largest group index among its predecessors. *)
Theorem levels_partition_order_kahn {Node} (g : Graph.t (Node:=Node)) :
  wf g → acyclic g →
  ∃ lv, levels g = Ok lv ∧
    concat lv ≡ₚ node_ids g ∧
    (∀ v, v ∈ node_ids g →
       ∃ i l, lv !! i = Some l ∧ v ∈ l ∧
              ∀ i' l', lv !! i' = Some l' → v ∈ l' → i' = i) ∧
    (∀ u v, edge g u v →
       ∃ i j, group_index lv u = Some i ∧ group_index lv v = Some j ∧
              (i < j)%nat) ∧
    (∀ v, v ∈ node_ids g →
       group_index lv v =
         Some (if decide (predecessors g v = ∅) then O
               else S (max_index lv (predecessors g v)))).
Proof.
  intros Hwf Hac.
  destruct (levels_outcome g Hwf) as [(lv & Hok & Hperm & Hlv)|(n & _ & _ & Hc)].
  2: { destruct Hc as [v Hv]. by destruct (Hac v). }
  assert (Hnd : NoDup (concat lv)) by (rewrite Hperm; apply (wf_nodup g Hwf)).
  exists lv. split; [done|]. split; [done|]. split; [|split].
  - intros v Hv. rewrite <- Hperm in Hv.
    destruct (group_index_is_Some lv v Hv) as [i Hi].
    destruct (group_index_Some lv v i Hi) as (l & Hl & Hvl).
    exists i, l. split; [done|]. split; [done|].
    intros i' l' Hl' Hvl'.
    pose proof (group_index_lookup lv v i' l' Hnd Hl' Hvl') as Hi'.
    congruence.
  - intros u v Huv. by apply (levels_inv_edge g lv).
  - intros v Hv. by apply (levels_inv_index g lv).
Qed.

Lemma levels_partition_order_kahn_witness :
  ∃ lv, levels diamond = Ok lv ∧
    concat lv ≡ₚ node_ids diamond ∧
    (∀ v, v ∈ node_ids diamond →
       ∃ i l, lv !! i = Some l ∧ v ∈ l ∧
              ∀ i' l', lv !! i' = Some l' → v ∈ l' → i' = i) ∧
    (∀ u v, edge diamond u v →
       ∃ i j, group_index lv u = Some i ∧ group_index lv v = Some j ∧
              (i < j)%nat) ∧
    (∀ v, v ∈ node_ids diamond →
       group_index lv v =
         Some (if decide (predecessors diamond v = ∅) then O
               else S (max_index lv (predecessors diamond v)))).
Proof.
  apply (levels_partition_order_kahn diamond).
  - apply diamond_wf.
  - apply diamond_acyclic.
Defined.

(** C2. [levels] raises [CycleError] exactly on the graphs that have a
    directed cycle, and returns normally exactly on the acyclic ones;
    when it raises, fewer nodes were emitted than are registered. *)
Theorem levels_cycle_error_iff {Node} (g : Graph.t (Node:=Node)) :
  wf g →
  ((∃ n, levels g = Raise (CycleError n (len g)) ∧ 0 ≤ n < len g) ↔ cyclic g) ∧
  ((∃ lv, levels g = Ok lv) ↔ acyclic g) ∧
  (∀ e, levels g = Raise e → ∃ n, e = CycleError n (len g)) ∧
  levels g ≠ OutOfFuel.
Proof.
  intros Hwf.
  destruct (levels_outcome g Hwf)
    as [(lv & Hok & Hperm & Hlv)|(n & Hr & Hn & Hc)].
  - pose proof (levels_ok_acyclic g lv Hwf Hperm Hlv) as Hac.
    repeat split.
    + intros (n & Hr & _). congruence.
    + intros [v Hv]. by destruct (Hac v).
    + done.
    + eauto.
    + intros e He. congruence.
    + congruence.
  - repeat split.
    + done.
    + eauto.
    + intros [lv Hok]. congruence.
    + intros Hac. destruct Hc as [v Hv]. by destruct (Hac v).
    + intros e He. exists n. congruence.
    + congruence.
Qed.

Lemma levels_cycle_error_iff_witness :
  ((∃ n, levels two_cycle = Raise (CycleError n (len two_cycle)) ∧
         0 ≤ n < len two_cycle) ↔ cyclic two_cycle) ∧
  ((∃ lv, levels two_cycle = Ok lv) ↔ acyclic two_cycle) ∧
  (∀ e, levels two_cycle = Raise e → ∃ n, e = CycleError n (len two_cycle)) ∧
  levels two_cycle ≠ OutOfFuel.
Proof. apply (levels_cycle_error_iff two_cycle), two_cycle_wf. Defined.

(** C4, as stated, fails: registering an id again keeps its adjacency
    entries. In the graph a→b, adding a node with id a again leaves b among
    the successors of a, and adding a node with id b again leaves a among
    the predecessors of b. *)
Lemma add_node_reset_counterexample :
  "a" ∈ node_ids tagged_edge ∧ "b" ∈ node_ids tagged_edge ∧
  _edges (add_node fst ("a", 2%nat) tagged_edge) !! "a" = Some {["b"]} ∧
  _reverse (add_node fst ("b", 2%nat) tagged_edge) !! "b" = Some {["a"]} ∧
  ¬ (successors (add_node fst ("a", 2%nat) tagged_edge) "a" = ∅ ∧
     predecessors (add_node fst ("a", 2%nat) tagged_edge) "a" = ∅).
Proof.
  split; [|split; [|split; [|split]]].
  - vm_compute. set_solver.
  - vm_compute. set_solver.
  - vm_compute. reflexivity.
  - vm_compute. reflexivity.
  - intros [Hs _].
    assert ("b" ∈ successors (add_node fst ("a", 2%nat) tagged_edge) "a")
      as Hin by (vm_compute; reflexivity).
    rewrite Hs in Hin. set_solver.
Qed.

(** C4, amended. [add_node] stores the node under its id, and doing it
    twice is the same as doing it once. For an id that is already
    registered it replaces the stored node and leaves the registration
    order and both adjacency maps as they were; for a fresh id it appends
    the id and creates both adjacency entries empty. *)
Theorem add_node_reregister {Node} (node_id : Node → string) node
    (g : Graph.t (Node:=Node)) :
  wf g →
  get_node (add_node node_id node g) (node_id node) = Ok node ∧
  add_node node_id node (add_node node_id node g) = add_node node_id node g ∧
  (node_id node ∈ node_ids g →
     node_ids (add_node node_id node g) = node_ids g ∧
     _edges (add_node node_id node g) = _edges g ∧
     _reverse (add_node node_id node g) = _reverse g) ∧
  (node_id node ∉ node_ids g →
     node_ids (add_node node_id node g) = node_ids g ++ [node_id node] ∧
     _edges (add_node node_id node g) !! node_id node = Some ∅ ∧
     _reverse (add_node node_id node g) !! node_id node = Some ∅).
Proof.
  intros Hwf. split; [|split; [|split]].
  - unfold get_node, add_node. simpl. by rewrite dict_get_set.
  - unfold add_node. simpl.
    by rewrite dict_set_idemp, !setdefault_idemp.
  - intros Hin. unfold add_node, node_ids. simpl.
    rewrite dict_set_fst, decide_True by done.
    split; [done|]. split; apply setdefault_present.
    + by apply (wf_edges_dom g Hwf).
    + by apply (wf_reverse_dom g Hwf).
  - intros Hnin. unfold add_node, node_ids. simpl.
    rewrite dict_set_fst, decide_False by done.
    split; [done|]. split; apply setdefault_fresh.
    + apply eq_None_not_Some. by rewrite (wf_edges_dom g Hwf).
    + apply eq_None_not_Some. by rewrite (wf_reverse_dom g Hwf).
Qed.

Lemma add_node_reregister_witness :
  get_node (add_node fst ("a", 2%nat) tagged_edge) "a" = Ok ("a", 2%nat) ∧
  add_node fst ("a", 2%nat) (add_node fst ("a", 2%nat) tagged_edge) =
    add_node fst ("a", 2%nat) tagged_edge ∧
  ("a" ∈ node_ids tagged_edge →
     node_ids (add_node fst ("a", 2%nat) tagged_edge) = node_ids tagged_edge ∧
     _edges (add_node fst ("a", 2%nat) tagged_edge) = _edges tagged_edge ∧
     _reverse (add_node fst ("a", 2%nat) tagged_edge) = _reverse tagged_edge) ∧
  ("a" ∉ node_ids tagged_edge →
     node_ids (add_node fst ("a", 2%nat) tagged_edge) =
       node_ids tagged_edge ++ ["a"] ∧
     _edges (add_node fst ("a", 2%nat) tagged_edge) !! "a" = Some ∅ ∧
     _reverse (add_node fst ("a", 2%nat) tagged_edge) !! "a" = Some ∅).
Proof.
  apply (add_node_reregister fst ("a", 2%nat) tagged_edge), tagged_edge_wf.
Defined.

End GraphClaims.

Module ContextProofs.
Import Context.

(** *** Strings *)

Lemma append_assoc (a b c : string) : (a +:+ b) +:+ c = a +:+ (b +:+ c).
Proof. induction a as [|x a IH]; simpl; [done|]. by rewrite IH. Qed.

Lemma append_nil_r (a : string) : a +:+ "" = a.
Proof. induction a as [|x a IH]; simpl; [done|]. by rewrite IH. Qed.

Lemma qualified_inj ns k1 k2 : qualified ns k1 = qualified ns k2 → k1 = k2.
Proof.
  unfold qualified. intros H. apply String.app_inj in H.
  by apply (String.app_inj ".") in H.
Qed.

(** Two distinct namespaces produce the same qualified key only when one
    of them, followed by a dot, starts the other. *)
Lemma qualified_clash ns1 : ∀ ns2 k1 k2,
  ns1 ≠ ns2 → qualified ns1 k1 = qualified ns2 k2 →
  String.prefix (ns1 +:+ ".") ns2 = true ∨
  String.prefix (ns2 +:+ ".") ns1 = true.
Proof.
  unfold qualified.
  induction ns1 as [|c ns1 IH]; intros [|c' ns2] k1 k2 Hne Heq; simpl in *.
  - done.
  - left. injection Heq as Hc _. subst c'.
    destruct (ascii_dec "." ".") as [_|Hn]; [by destruct ns2 | done].
  - right. injection Heq as Hc _. subst c.
    destruct (ascii_dec "." ".") as [_|Hn]; [by destruct ns1 | done].
  - injection Heq as Hc Heq. subst c'.
    destruct (IH ns2 k1 k2) as [H|H]; [congruence|done| |].
    + left. by destruct (ascii_dec c c).
    + right. by destruct (ascii_dec c c).
Qed.

(** *** [merge] *)

Lemma merge_list_other ns (l : list (string * Value)) : ∀ ctx key,
  (∀ kv, kv ∈ l → qualified ns kv.1 ≠ key) →
  _data (foldl (λ ctx kv, set (qualified ns kv.1) kv.2 ctx) ctx l) !! key =
  _data ctx !! key.
Proof.
  induction l as [|kv l IH]; intros ctx key Hne; simpl; [done|].
  rewrite IH by set_solver. simpl.
  rewrite lookup_insert_ne; [done|]. apply Hne. set_solver.
Qed.

Lemma merge_list_written ns (l : list (string * Value)) : ∀ ctx k v,
  NoDup l.*1 → (k, v) ∈ l →
  _data (foldl (λ ctx kv, set (qualified ns kv.1) kv.2 ctx) ctx l)
    !! qualified ns k = Some v.
Proof.
  induction l as [|[k0 v0] l IH]; intros ctx k v Hnd Hin; [set_solver|].
  rewrite fmap_cons in Hnd. apply NoDup_cons in Hnd as [Hk0 Hnd]. simpl.
  apply elem_of_cons in Hin as [[= -> ->]|Hin].
  - rewrite merge_list_other; [simpl; by rewrite lookup_insert_eq|].
    intros [k' v'] Hin Heq. apply qualified_inj in Heq. simpl in Heq. subst.
    apply Hk0. apply list_elem_of_fmap. by exists (k0, v').
  - by apply IH.
Qed.

Lemma merge_written ns m ctx k v :
  m !! k = Some v → _data (merge ns m ctx) !! qualified ns k = Some v.
Proof.
  intros Hk. unfold merge. apply merge_list_written.
  - apply NoDup_fst_map_to_list.
  - by apply elem_of_map_to_list.
Qed.

Lemma merge_other ns m ctx key :
  (∀ k, is_Some (m !! k) → qualified ns k ≠ key) →
  _data (merge ns m ctx) !! key = _data ctx !! key.
Proof.
  intros Hne. unfold merge. apply merge_list_other.
  intros [k v] Hin. apply elem_of_map_to_list in Hin. apply Hne. eauto.
Qed.

(** *** [format_template] *)

Lemma sub_cons repl c s' :
  _TEMPLATE_RE_sub repl (String c s') =
    if is_open c
    then attempt repl (_TEMPLATE_RE_sub repl)
           (String c (_TEMPLATE_RE_sub repl s')) s' ""
    else String c (_TEMPLATE_RE_sub repl s').
Proof. reflexivity. Qed.

Lemma key_run_brace_free key d rest :
  brace_free key = true → is_brace d = true →
  key_run (key +:+ String d rest) = (key, String d rest).
Proof.
  intros Hk Hd. induction key as [|c key IH]; simpl in *.
  - by rewrite Hd.
  - apply andb_prop in Hk as [Hc Hk]. apply negb_true_iff in Hc.
    rewrite Hc, IH by done. done.
Qed.

(** The match attempt agrees with the regular expression: it succeeds
    when the pending key extended by the non-brace run is not empty and a
    closing brace follows. *)
Lemma attempt_key_run repl cont nm t : ∀ k,
  attempt repl cont nm t k =
    match key_run t with
    | (k', String d rest) =>
        if is_close d then
          match k +:+ k' with
          | EmptyString => nm
          | String _ _ => repl (k +:+ k') +:+ cont rest
          end
        else nm
    | (_, EmptyString) => nm
    end.
Proof.
  induction t as [|d t IH]; intros k; simpl; [done|].
  unfold is_brace. destruct (is_close d) eqn:Hc.
  - rewrite orb_true_r, Hc, append_nil_r. done.
  - destruct (is_open d) eqn:Ho; simpl.
    + by rewrite Hc.
    + rewrite IH. destruct (key_run t) as [k' [|d' rest]]; [done|].
      rewrite append_assoc. done.
Qed.

Lemma sub_unfold repl s :
  _TEMPLATE_RE_sub repl s =
    match _TEMPLATE_RE_match s with
    | Some (key, rest) => repl key +:+ _TEMPLATE_RE_sub repl rest
    | None =>
        match s with
        | EmptyString => EmptyString
        | String c s' => String c (_TEMPLATE_RE_sub repl s')
        end
    end.
Proof.
  destruct s as [|c s']; [done|].
  rewrite sub_cons. unfold _TEMPLATE_RE_match.
  destruct (is_open c); [|done].
  rewrite attempt_key_run. simpl.
  destruct (key_run s') as [[|k0 k] [|d rest]]; try done.
  - by destruct (is_close d).
  - by destruct (is_close d).
Qed.

Lemma sub_placeholder repl key post :
  key ≠ "" → brace_free key = true →
  _TEMPLATE_RE_sub repl ("{" +:+ key +:+ "}" +:+ post) =
    repl key +:+ _TEMPLATE_RE_sub repl post.
Proof.
  intros Hne Hbf. rewrite sub_unfold. simpl.
  rewrite (key_run_brace_free key "}" post Hbf) by done.
  destruct key; [done|]. done.
Qed.

Lemma attempt_append repl nm X Y t : ∀ k,
  (∃ rest, Y = String "{" rest) →
  (∀ t', String.length t' ≤ String.length t →
     _TEMPLATE_RE_sub repl (t' +:+ Y) = _TEMPLATE_RE_sub repl t' +:+ X)%nat →
  attempt repl (_TEMPLATE_RE_sub repl) (nm +:+ X) (t +:+ Y) k =
  attempt repl (_TEMPLATE_RE_sub repl) nm t k +:+ X.
Proof.
  intros k [rest ->]. revert k.
  induction t as [|d t IH]; intros k Hsub; simpl.
  - done.
  - destruct (is_close d).
    + destruct k; [done|]. rewrite Hsub by (simpl; lia).
      by rewrite append_assoc.
    + destruct (is_open d); [done|]. apply IH.
      intros t' Ht'. apply Hsub. simpl. lia.
Qed.

Lemma sub_append_open repl rest pre :
  _TEMPLATE_RE_sub repl (pre +:+ String "{" rest) =
  _TEMPLATE_RE_sub repl pre +:+ _TEMPLATE_RE_sub repl (String "{" rest).
Proof.
  remember (String.length pre) as n eqn:Hn.
  revert pre Hn. induction (lt_wf n) as [n _ IH]. intros pre ->.
  destruct pre as [|c pre]; [done|].
  assert (Hshort : ∀ t', (String.length t' ≤ String.length pre)%nat →
            _TEMPLATE_RE_sub repl (t' +:+ String "{" rest) =
            _TEMPLATE_RE_sub repl t' +:+ _TEMPLATE_RE_sub repl (String "{" rest)).
  { intros t' Ht'. apply (IH (String.length t')); [simpl; lia | done]. }
  cbn [append]. rewrite !sub_cons.
  rewrite (Hshort pre) by lia.
  destruct (is_open c); [|done].
  apply (attempt_append repl (String c (_TEMPLATE_RE_sub repl pre))); eauto.
Qed.

(** C6, as stated, fails: the namespaces [a] and [a.b] are distinct, yet
    a merge under [a.b] overwrites the key [b.c] written under [a], since
    both qualify to [a.b.c]. *)
Lemma merge_cross_namespace_counterexample :
  "a" ≠ "a.b" ∧
  get (merge "a" {["b.c" := VInt 1]} (new None)) (qualified "a" "b.c") VNone
    = VInt 1 ∧
  get (merge "a.b" {["c" := VInt 2]}
         (merge "a" {["b.c" := VInt 1]} (new None)))
      (qualified "a" "b.c") VNone = VInt 2.
Proof. split; [done|]. split; vm_compute; reflexivity. Qed.

(** C6, amended. After [merge ns m], [get] of [ns.k] returns the value that
    [m] holds for [k]. A later merge under another namespace leaves that key
    alone unless one of the two namespaces, followed by a dot, is a prefix
    of the other (as with [a] and [a.b]). *)
Theorem merge_get_separation ctx ns1 ns2 m1 m2 k v d :
  m1 !! k = Some v →
  get (merge ns1 m1 ctx) (qualified ns1 k) d = v ∧
  (ns1 ≠ ns2 →
   String.prefix (ns1 +:+ ".") ns2 = false →
   String.prefix (ns2 +:+ ".") ns1 = false →
   get (merge ns2 m2 (merge ns1 m1 ctx)) (qualified ns1 k) d = v).
Proof.
  intros Hk. split.
  - unfold get. by rewrite (merge_written ns1 m1 ctx k v Hk).
  - intros Hne Hp1 Hp2. unfold get. rewrite merge_other.
    + by rewrite (merge_written ns1 m1 ctx k v Hk).
    + intros k2 _ Heq.
      destruct (qualified_clash ns2 ns1 k2 k) as [H|H]; [done|done|..];
        congruence.
Qed.

Lemma merge_get_separation_witness :
  get (merge "a" {["x" := VInt 1]} (new None)) (qualified "a" "x") VNone
    = VInt 1 ∧
  ("a" ≠ "b" →
   String.prefix ("a" +:+ ".") "b" = false →
   String.prefix ("b" +:+ ".") "a" = false →
   get (merge "b" {["x" := VInt 2]} (merge "a" {["x" := VInt 1]} (new None)))
       (qualified "a" "x") VNone = VInt 1).
Proof.
  apply (merge_get_separation (new None) "a" "b" {["x" := VInt 1]}
           {["x" := VInt 2]} "x" (VInt 1) VNone).
  vm_compute. reflexivity.
Defined.

Lemma length_append (a b : string) :
  String.length (a +:+ b) = (String.length a + String.length b)%nat.
Proof. induction a as [|c a IH]; simpl; [done|]. by rewrite IH. Qed.

Lemma is_open_eq c : is_open c = true → c = "{"%char.
Proof. unfold is_open. by intros ?%Ascii.eqb_eq. Qed.

Lemma is_close_eq c : is_close c = true → c = "}"%char.
Proof. unfold is_close. by intros ?%Ascii.eqb_eq. Qed.

Lemma key_run_append s : (key_run s).1 +:+ (key_run s).2 = s.
Proof.
  induction s as [|c s IH]; simpl; [done|].
  destruct (is_brace c); [done|].
  destruct (key_run s) as [k r]. simpl in *. by rewrite IH.
Qed.

(** A match of [_TEMPLATE_RE] at the start of [s] is an opening brace, a
    key that is not empty, and a closing brace. *)
Lemma match_Some s key rest :
  _TEMPLATE_RE_match s = Some (key, rest) →
  s = "{" +:+ key +:+ "}" +:+ rest ∧ key ≠ "".
Proof.
  destruct s as [|c s]; [done|]. simpl.
  destruct (is_open c) eqn:Hc; [|done]. apply is_open_eq in Hc as ->.
  pose proof (key_run_append s) as Happ.
  destruct (key_run s) as [[|k0 k] [|d r]]; try done.
  destruct (is_close d) eqn:Hd; [|done]. apply is_close_eq in Hd as ->.
  intros [= <- <-]. simpl in Happ. by rewrite <- Happ.
Qed.

Lemma key_run_spec s : brace_free (key_run s).1 = true.
Proof.
  induction s as [|c s IH]; simpl; [done|].
  destruct (is_brace c) eqn:Hc; [done|].
  destruct (key_run s) as [k r]. simpl in *. by rewrite Hc, IH.
Qed.

(** What [_TEMPLATE_RE] matches at the start of a string. *)
Lemma match_iff s key rest :
  _TEMPLATE_RE_match s = Some (key, rest) ↔
  s = "{" +:+ key +:+ "}" +:+ rest ∧ key ≠ "" ∧ brace_free key = true.
Proof.
  split.
  - intros Hm. destruct (match_Some s key rest Hm) as [-> Hne].
    repeat split; [done|].
    simpl in Hm. pose proof (key_run_spec (key +:+ String "}" rest)) as Hbf.
    destruct (key_run (key +:+ String "}" rest)) as [[|k0 k] [|d r]]; try done.
    destruct (is_close d); [|done]. by injection Hm as <- <-.
  - intros (-> & Hne & Hbf). simpl.
    rewrite (key_run_brace_free key "}" rest Hbf) by done.
    by destruct key.
Qed.

Lemma sub_brace_free repl s :
  brace_free s = true → _TEMPLATE_RE_sub repl s = s.
Proof.
  induction s as [|c s IH]; [done|]. simpl brace_free.
  intros [Hc Hs]%andb_prop. rewrite sub_cons.
  apply negb_true_iff in Hc. unfold is_brace in Hc.
  apply orb_false_elim in Hc as [-> _]. by rewrite IH.
Qed.

(** C7, as stated, fails: the key [""] is in the context, yet [{}] is left
    as it is, since [_TEMPLATE_RE] asks for at least one character between
    the braces; and the key [a{b] is in the context, yet [{a{b}] is left
    as it is, since no brace may stand between the braces. *)
Lemma format_template_not_placeholder_counterexample :
  (contains (set "" (VStr "x") (new None)) "" = true ∧
   format_template str_scalar (set "" (VStr "x") (new None)) "{}" = "{}") ∧
  (contains (set "a{b" (VStr "x") (new None)) "a{b" = true ∧
   format_template str_scalar (set "a{b" (VStr "x") (new None)) "{a{b}"
     = "{a{b}").
Proof. repeat split; vm_compute; reflexivity. Qed.

(** C7, amended. A placeholder is an opening brace, a non-empty key
    without braces and a closing brace, which is what [_TEMPLATE_RE]
    matches. Wherever one stands in a template, [format_template] renders
    the text before it, then the stringified value stored under the key
    (the placeholder itself when the key is absent), then renders the text
    after it: one pass from left to right, in which the inserted value is
    not scanned again. Dots in the key play no role. Everything that is
    not part of a placeholder is copied as it is: at each position the
    scan either replaces the placeholder that starts there and goes on
    after it, or copies one character; so text without braces is
    returned unchanged, and so are empty braces, whatever the context
    holds. *)
Theorem format_template_placeholder (str : Value → string) ctx pre key post :
  key ≠ "" → brace_free key = true →
  format_template str ctx (pre +:+ "{" +:+ key +:+ "}" +:+ post) =
    format_template str ctx pre +:+
    match _data ctx !! key with
    | Some v => str v
    | None => "{" +:+ key +:+ "}"
    end +:+
    format_template str ctx post ∧
  (∀ s k rest,
     _TEMPLATE_RE_match s = Some (k, rest) ↔
     s = "{" +:+ k +:+ "}" +:+ rest ∧ k ≠ "" ∧ brace_free k = true) ∧
  (∀ s,
     format_template str ctx s =
       match _TEMPLATE_RE_match s with
       | Some (k, rest) =>
           match _data ctx !! k with
           | Some v => str v
           | None => "{" +:+ k +:+ "}"
           end +:+ format_template str ctx rest
       | None =>
           match s with
           | EmptyString => EmptyString
           | String c s' => String c (format_template str ctx s')
           end
       end) ∧
  (∀ s, brace_free s = true → format_template str ctx s = s) ∧
  (∀ s, format_template str ctx ("{}" +:+ s) =
          "{}" +:+ format_template str ctx s).
Proof.
  intros Hne Hbf. unfold format_template.
  split; [|split; [|split; [|split]]].
  - change (pre +:+ "{" +:+ key +:+ "}" +:+ post)
      with (pre +:+ String "{" (key +:+ "}" +:+ post)).
    rewrite sub_append_open.
    change (String "{" (key +:+ "}" +:+ post))
      with ("{" +:+ key +:+ "}" +:+ post).
    by rewrite sub_placeholder.
  - intros s k rest. apply match_iff.
  - intros s. rewrite sub_unfold at 1.
    by destruct (_TEMPLATE_RE_match s) as [[k rest]|].
  - intros s. apply sub_brace_free.
  - intros s. reflexivity.
Qed.

Lemma format_template_placeholder_witness :
  format_template str_scalar ctx_step
    ("got: {missing} " +:+ "{" +:+ "step_1.output" +:+ "}" +:+ "!") =
    format_template str_scalar ctx_step "got: {missing} " +:+
    match _data ctx_step !! "step_1.output" with
    | Some v => str_scalar v
    | None => "{" +:+ "step_1.output" +:+ "}"
    end +:+
    format_template str_scalar ctx_step "!" ∧
  format_template str_scalar ctx_step "{} and {step_1.output}" =
    "{} and data".
Proof.
  destruct (format_template_placeholder str_scalar ctx_step
              "got: {missing} " "step_1.output" "!") as (Heq & _);
    [done | reflexivity |].
  split; [exact Heq | vm_compute; reflexivity].
Defined.

End ContextProofs.

(** ** Coroutines *)

Section coro_facts.
Context {S : Type}.

Lemma coro_induction {A} (P : coro S A → Prop) :
  (∀ k, (∀ s, match k s with
              | (_, inr c') => P c'
              | _ => True
              end) → P (Segment k)) →
  ∀ c, P c.
Proof.
  intros Hstep.
  exact (fix F (c : coro S A) : P c :=
           match c with
           | Segment k =>
               Hstep k (λ s,
                 match k s as x
                   return match x with (_, inr c') => P c' | _ => True end
                 with
                 | (_, inl _) => I
                 | (_, inr c') => F c'
                 end)
           end).
Qed.

Lemma finish_resume {A} (c : coro S A) s :
  finish c s =
    match resume c s with
    | (s', inl a) => (s', a)
    | (s', inr c') => finish c' s'
    end.
Proof. by destruct c. Qed.

Lemma finish_bind {A B} (c : coro S A) (f : A → coro S B) : ∀ s,
  finish (bind c f) s = let '(s', a) := finish c s in finish (f a) s'.
Proof.
  induction c as [k IH] using coro_induction. intros s.
  specialize (IH s). simpl. destruct (k s) as [s' [a|c']].
  - by rewrite <- finish_resume.
  - apply IH.
Qed.

Lemma finish_ret {A} (a : A) (s : S) : finish (ret a) s = (s, a).
Proof. reflexivity. Qed.

Lemma finish_atomic {A} (f : S → S * A) s : finish (atomic f) s = f s.
Proof. simpl. by destruct (f s). Qed.

Lemma finish_completes {A} (c : coro S A) : ∀ s,
  completes c s (finish c s).1 (finish c s).2.
Proof.
  induction c as [k IH] using coro_induction. intros s.
  specialize (IH s). simpl. destruct (k s) as [s' [a|c']] eqn:E.
  - by apply completes_return.
  - eapply completes_await; [exact E | apply IH].
Qed.

Lemma obeys_mono {A} (R R' : S → S → Prop) (P P' : S → A → Prop) c :
  (∀ s s', R s s' → R' s s') → (∀ s a, P s a → P' s a) →
  obeys R P c → obeys R' P' c.
Proof.
  intros HR HP. induction c as [k IH] using coro_induction.
  simpl. intros Hc s. specialize (Hc s). specialize (IH s).
  destruct (k s) as [s' [a|c']]; simpl in *; naive_solver.
Qed.

Lemma obeys_ret {A} (R : S → S → Prop) (P : S → A → Prop) a :
  (∀ s, R s s) → (∀ s, P s a) → obeys R P (ret a).
Proof. intros HR HP s. simpl. eauto. Qed.

Lemma obeys_atomic {A} (R : S → S → Prop) (P : S → A → Prop) (f : S → S * A) :
  (∀ s, R s (f s).1 ∧ P (f s).1 (f s).2) → obeys R P (atomic f).
Proof. intros Hf s. specialize (Hf s). simpl. by destruct (f s). Qed.

Lemma obeys_bind {A B} (R : S → S → Prop) (P : A → Prop)
    (Q : S → B → Prop) (c : coro S A) (f : A → coro S B) :
  (∀ s1 s2 s3, R s1 s2 → R s2 s3 → R s1 s3) →
  obeys R (λ _ a, P a) c →
  (∀ a, P a → obeys R Q (f a)) →
  obeys R Q (bind c f).
Proof.
  intros Htrans Hc Hf. induction c as [k IH] using coro_induction.
  simpl in *. intros s. specialize (Hc s). specialize (IH s).
  destruct (k s) as [s' [a|c']]; simpl in *.
  - destruct Hc as [HR HP]. specialize (Hf a HP).
    destruct (f a) as [k']. simpl in *. specialize (Hf s').
    destruct Hf as [HR' Hrest]. split; [by eapply Htrans|done].
  - destruct Hc as [HR Hc']. split; [done|]. by apply IH.
Qed.

Lemma obeys_finish {A} (R : S → S → Prop) (P : S → A → Prop) c :
  (∀ s1 s2 s3, R s1 s2 → R s2 s3 → R s1 s3) →
  obeys R P c → ∀ s, R s (finish c s).1 ∧ P (finish c s).1 (finish c s).2.
Proof.
  intros Htrans. induction c as [k IH] using coro_induction.
  simpl. intros Hc s. specialize (Hc s). specialize (IH s).
  destruct (k s) as [s' [a|c']]; simpl in *; [done|].
  destruct Hc as [HR Hc']. destruct (IH Hc' s') as [HR' HP].
  split; [by eapply Htrans|done].
Qed.

Lemma obeys_completes {A} (R : S → S → Prop) (P : S → A → Prop) c s s' a :
  obeys R P c → completes c s s' a → P s' a.
Proof.
  intros Hc Hrun. induction Hrun as [k s s' a E|k s s1 c' s2 s' a E _ IH].
  - simpl in Hc. specialize (Hc s). rewrite E in Hc. simpl in Hc. tauto.
  - simpl in Hc. specialize (Hc s). rewrite E in Hc. simpl in Hc.
    apply IH. tauto.
Qed.

Lemma completes_atomic {A} (f : S → S * A) s s' a :
  completes (atomic f) s s' a → f s = (s', a).
Proof.
  unfold atomic.
  inversion 1 as [k s0 s0' a0 E|k s0 s1 c' s2 s0' a0 E Hrest]; subst.
  - destruct (f s) as [s1 a1]. by injection E as -> ->.
  - by destruct (f s).
Qed.

(** What a coroutine ends with, in any interleaving, is the result of one
    of its completed runs. *)
Lemma obeys_of_completes {A} (c : coro S A) :
  obeys (λ _ _, True) (λ s' a, ∃ s, completes c s s' a) c.
Proof.
  assert (Hgen : ∀ (c : coro S A) (Q : S → A → Prop),
            (∀ s s' a, completes c s s' a → Q s' a) →
            obeys (λ _ _, True) Q c).
  { clear c. intros c. induction c as [k IH] using coro_induction.
    intros Q HQ s. specialize (IH s). split; [done|].
    destruct (k s) as [s1 [a|c']] eqn:E; simpl.
    - apply (HQ s). by apply completes_return.
    - apply IH. intros s2 s' a Hrun. apply (HQ s).
      by eapply completes_await. }
  apply Hgen. eauto.
Qed.

End coro_facts.

Lemma obeys_lift {S T A} (get : T → S) (put : S → T → T)
    (R : S → S → Prop) (P : S → A → Prop)
    (R' : T → T → Prop) (P' : T → A → Prop) (c : coro S A) :
  (∀ t s', R (get t) s' → R' t (put s' t)) →
  (∀ t s' a, P s' a → P' (put s' t) a) →
  obeys R P c → obeys R' P' (lift get put c).
Proof.
  intros HR HP. induction c as [k IH] using coro_induction.
  simpl. intros Hc t. specialize (Hc (get t)). specialize (IH (get t)).
  destruct (k (get t)) as [s' [a|c']]; simpl in *; naive_solver.
Qed.

Lemma finish_lift {S T A} (get : T → S) (put : S → T → T) (c : coro S A) :
  (∀ s t, get (put s t) = s) → (∀ s s' t, put s' (put s t) = put s' t) →
  ∀ t, finish (lift get put c) t =
       (put (finish c (get t)).1 t, (finish c (get t)).2).
Proof.
  intros Hgp Hpp. induction c as [k IH] using coro_induction. intros t.
  specialize (IH (get t)). simpl.
  destruct (k (get t)) as [s' [a|c']]; simpl in *; [done|].
  rewrite IH, Hgp, Hpp. done.
Qed.

(** ** [Node.execute] *)

Section node_facts.
Context `{World W}.
Implicit Types (st : State W) (path : list Role) (n : Node W).

Lemma appends_refl ok st : appends ok st st.
Proof. exists []. by rewrite app_nil_r. Qed.

Lemma appends_same_log ok st st' : log st' = log st → appends ok st st'.
Proof. intros E. exists []. by rewrite app_nil_r. Qed.

Lemma appends_trans ok st1 st2 st3 :
  appends ok st1 st2 → appends ok st2 st3 → appends ok st1 st3.
Proof.
  intros (n1 & E1 & F1) (n2 & E2 & F2). exists (n1 ++ n2).
  rewrite E2, E1, app_assoc. split; [done|]. by apply Forall_app.
Qed.

Lemma appends_mono (ok ok' : Event → Prop) st st' :
  (∀ e, ok e → ok' e) → appends ok st st' → appends ok' st st'.
Proof.
  intros Hok (new & E & F). exists new. split; [done|].
  eapply Forall_impl; eauto.
Qed.

Lemma metadata_setdefault_fields key value r :
  status (metadata_setdefault key value r) = status r ∧
  outputs (metadata_setdefault key value r) = outputs r ∧
  error (metadata_setdefault key value r) = error r ∧
  metadata (metadata_setdefault key value r) !! key =
    Some (default value (metadata r !! key)) ∧
  ∀ k, k ≠ key →
    metadata (metadata_setdefault key value r) !! k = metadata r !! k.
Proof.
  unfold metadata_setdefault. destruct (metadata r !! key) eqn:E; simpl.
  - by rewrite E.
  - rewrite lookup_insert_eq. repeat split; try done.
    intros k Hk. by rewrite lookup_insert_ne.
Qed.

Lemma finish_execute_body path body st :
  finish (execute_body path body) st =
    let '(st', outcome) := finish body (log_event (Executed path) st) in
    (st', Return (metadata_setdefault "duration_ms"
                    (elapsed_ms (monotonic (world st)) (monotonic (world st')))
                    (absorb outcome))).
Proof.
  unfold execute_body. cbn [finish]. rewrite <- finish_resume.
  rewrite finish_bind.
  destruct (finish body (log_event (Executed path) st)) as [st' outcome].
  by rewrite finish_atomic.
Qed.

Lemma completes_enter {S A} (c : S → coro S A) (g : S → S) s s' a :
  completes (Segment (λ s, resume (c s) (g s))) s s' a ↔
  completes (c s) (g s) s' a.
Proof.
  split.
  - inversion 1 as [k s0 s0' a0 E|k s0 s1 c' s2 s0' a0 E Hrest]; subst.
    + destruct (c s) as [k']. by apply completes_return.
    + destruct (c s) as [k']. by eapply completes_await.
  - destruct (c s) as [k'] eqn:Ec.
    inversion 1 as [k s0 s0' a0 E|k s0 s1 c' s2 s0' a0 E Hrest]; subst.
    + apply completes_return. by rewrite Ec.
    + eapply completes_await; [|exact Hrest]. by rewrite Ec.
Qed.

Lemma completes_bind_atomic {S A B} (c : coro S A) (g : S → A → B) s s' b :
  completes (bind c (λ a, atomic (λ t, (t, g t a)))) s s' b ↔
  ∃ a, completes c s s' a ∧ b = g s' a.
Proof.
  split.
  - intros Hrun.
    remember (bind c (λ a, atomic (λ t, (t, g t a)))) as c0 eqn:Ec0.
    revert c Ec0.
    induction Hrun as [k s s' b E|k s s1 c' s2 s' b E _ IH];
      intros [kc] Ec0; simpl in Ec0; injection Ec0 as ->.
    + destruct (kc s) as [t [a|c'']] eqn:Ek; simpl in E.
      * injection E as <- <-. exists a. split; [|done].
        by apply completes_return.
      * done.
    + destruct (kc s) as [t [a|c'']] eqn:Ek; simpl in E; [done|].
      injection E as <- <-.
      destruct (IH c'' eq_refl) as (a & Ha & ->).
      exists a. split; [|done]. by eapply completes_await.
  - intros (a & Hrun & ->).
    induction Hrun as [k s s' a E|k s s1 c' s2 s' a E _ IH].
    + apply completes_return. simpl. by rewrite E.
    + eapply completes_await; [|exact IH]. simpl. by rewrite E.
Qed.

Lemma completes_execute_body path body st st' out :
  completes (execute_body path body) st st' out ↔
  ∃ outcome,
    completes body (log_event (Executed path) st) st' outcome ∧
    out = Return (metadata_setdefault "duration_ms"
                    (elapsed_ms (monotonic (world st)) (monotonic (world st')))
                    (absorb outcome)).
Proof.
  unfold execute_body.
  rewrite (completes_enter
             (λ st, bind body (λ outcome, atomic (λ st',
                (st', Return (metadata_setdefault "duration_ms"
                   (elapsed_ms (monotonic (world st)) (monotonic (world st')))
                   (absorb outcome))))))
             (log_event (Executed path))).
  apply (completes_bind_atomic body
           (λ st' outcome, Return (metadata_setdefault "duration_ms"
              (elapsed_ms (monotonic (world st)) (monotonic (world st')))
              (absorb outcome)))).
Qed.

Lemma obeys_enter {S A} (R : S → S → Prop) (P : S → A → Prop)
    (c : S → coro S A) (g : S → S) :
  (∀ s1 s2 s3, R s1 s2 → R s2 s3 → R s1 s3) →
  (∀ s, R s (g s)) → (∀ s, obeys R P (c s)) →
  obeys R P (Segment (λ s, resume (c s) (g s))).
Proof.
  intros Htrans Hg Hc s. specialize (Hc s). destruct (c s) as [k].
  simpl in *. destruct (Hc (g s)) as [HR Hrest]. split; [|done].
  eapply Htrans; [apply Hg | done].
Qed.

(** What [execute] makes of the outcomes of [run]. *)
Lemma obeys_execute_body path body (P : exn NodeResult → Prop) :
  obeys (appends (strictly_below path)) (λ _ outcome, P outcome) body →
  obeys (appends (below path))
        (λ _ out, ∃ outcome elapsed,
           P outcome ∧
           out = Return (metadata_setdefault "duration_ms" elapsed
                           (absorb outcome)))
        (execute_body path body).
Proof.
  intros Hbody. unfold execute_body.
  apply (obeys_enter (appends (below path)) _
           (λ st, bind body (λ outcome, atomic (λ st',
              (st', Return (metadata_setdefault "duration_ms"
                 (elapsed_ms (monotonic (world st)) (monotonic (world st')))
                 (absorb outcome))))))
           (log_event (Executed path))).
  - apply appends_trans.
  - intros st. exists [Executed path]. split; [done|].
    apply Forall_singleton. exists []. by rewrite app_nil_r.
  - intros st. apply (obeys_bind _ P).
    + apply appends_trans.
    + eapply obeys_mono; [| |exact Hbody]; [|done].
      intros s s'. apply appends_mono. intros e (role & more & ->).
      by exists (role :: more).
    + intros outcome HP. apply obeys_atomic. intros st'. simpl.
      split; [apply appends_refl|]. eauto.
Qed.

Lemma obeys_gate_run path predicate reason :
  obeys (appends (strictly_below path))
        (λ _ out, ∃ r, out = Return r ∧
           status r = (if bool_decide (status r = SUCCESS) then SUCCESS
                       else SKIPPED))
        (gate_run (W:=W) predicate reason).
Proof.
  apply obeys_atomic. intros st.
  destruct (predicate (ctx st)); simpl; (split; [apply appends_refl|]);
    eexists; (split; [done|]); done.
Qed.

Lemma obeys_retry_loop path node_id
    (vexec fexec : coro (State W) (exn NodeResult)) max_retries pass_key todo :
  obeys (appends (strictly_below path)) (λ _ _, True) vexec →
  obeys (appends (strictly_below path)) (λ _ _, True) fexec →
  ∀ last_verify attempts,
  obeys (appends (strictly_below path)) (λ _ _, True)
        (retry_loop node_id vexec fexec max_retries pass_key todo
           last_verify attempts).
Proof.
  intros Hv Hf. induction todo as [|attempt todo IH]; intros last attempts.
  - apply obeys_ret; [apply appends_refl | done].
  - cbn [retry_loop]. unfold bind_exn.
    apply (obeys_bind _ (λ _, True)); [apply appends_trans | exact Hv |].
    intros [lv|msg] _; [|apply obeys_ret; [apply appends_refl | done]].
    apply (obeys_bind _ (λ _, True)); [apply appends_trans | |].
    { apply obeys_atomic. intros st. split; [by apply appends_same_log | done]. }
    intros _ _. case_match.
    { apply obeys_ret; [apply appends_refl | done]. }
    case_bool_decide; [|apply IH].
    apply (obeys_bind _ (λ _, True)); [apply appends_trans | exact Hf |].
    intros [fr|msg] _; [|apply obeys_ret; [apply appends_refl | done]].
    apply (obeys_bind _ (λ _, True)); [apply appends_trans | |].
    { apply obeys_atomic. intros st. split; [by apply appends_same_log | done]. }
    intros _ _. apply IH.
Qed.

(** [run] logs only the calls that it makes itself, strictly below its
    own path. *)
Lemma run_appends n : ∀ path,
  obeys (appends (strictly_below path)) (λ _ _, True) (run path n).
Proof.
  induction n as [id body|id predicate reason|id verify IHv fix_ IHf N key];
    intros path; cbn [run].
  - apply (obeys_lift _ _ (λ _ _, True) (λ _ _, True)); [| done |].
    + intros st cw _. exists []. simpl. by rewrite app_nil_r.
    + clear. induction body as [k IH] using coro_induction.
      simpl. intros s. specialize (IH s).
      destruct (k s) as [s' [a|c']]; simpl; eauto.
  - eapply obeys_mono; [| |apply obeys_gate_run]; done.
  - assert (Hsub : ∀ role e, below (path ++ [role]) e → strictly_below path e).
    { intros role e [more ->]. exists role, more. by rewrite <- app_assoc. }
    apply obeys_retry_loop.
    + eapply obeys_mono; [| |apply (obeys_execute_body _ _ (λ _, True)), IHv].
      * intros s s'. apply appends_mono, Hsub.
      * done.
    + eapply obeys_mono; [| |apply (obeys_execute_body _ _ (λ _, True)), IHf].
      * intros s s'. apply appends_mono, Hsub.
      * done.
Qed.

Lemma obeys_True {S A} (c : coro S A) : obeys (λ _ _, True) (λ _ _, True) c.
Proof.
  induction c as [k IH] using coro_induction. simpl. intros s.
  specialize (IH s). destruct (k s) as [s' [a|c']]; simpl; eauto.
Qed.

Lemma obeys_conj {S A} (R R' : S → S → Prop) (P P' : S → A → Prop) c :
  obeys R P c → obeys R' P' c →
  obeys (λ s s', R s s' ∧ R' s s') (λ s a, P s a ∧ P' s a) c.
Proof.
  induction c as [k IH] using coro_induction. simpl. intros H1 H2 s.
  specialize (H1 s). specialize (H2 s). specialize (IH s).
  destruct (k s) as [s' [a|c']]; simpl in *; naive_solver.
Qed.

(** [execute] run alone: its log entry, then the entries of [run]. *)
Lemma finish_execute path n st :
  ∃ st' outcome inner,
    finish (run path n) (log_event (Executed path) st) = (st', outcome) ∧
    finish (execute path n) st =
      (st', Return (metadata_setdefault "duration_ms"
                      (elapsed_ms (monotonic (world st)) (monotonic (world st')))
                      (absorb outcome))) ∧
    log st' = log st ++ Executed path :: inner ∧
    Forall (strictly_below path) inner.
Proof.
  unfold execute. rewrite finish_execute_body.
  pose proof (obeys_finish _ _ _ (appends_trans _) (run_appends n path)
                (log_event (Executed path) st)) as [(inner & Hlog & Hin) _].
  destruct (finish (run path n) (log_event (Executed path) st))
    as [st' outcome].
  exists st', outcome, inner. simpl in *. repeat split; try done.
  by rewrite Hlog, <- app_assoc.
Qed.

(** *** [RetryNode.run] when verification never passes *)

Lemma filter_direct_inner path role inner :
  Forall (strictly_below (path ++ [role])) inner →
  filter (direct path) inner = [].
Proof.
  induction 1 as [|e inner (r & more & ->) _ IH]; [done|].
  rewrite filter_cons, IH. rewrite decide_False; [done|].
  intros [E|E]; injection E as E;
    apply (f_equal length) in E; rewrite !length_app in E; simpl in E; lia.
Qed.

Lemma absorb_never_passes pass_key outcome elapsed :
  never_passes pass_key outcome →
  truthy (default (VBool false)
            (outputs (metadata_setdefault "duration_ms" elapsed
                        (absorb outcome)) !! pass_key)) = false.
Proof.
  intros Hn.
  destruct (metadata_setdefault_fields "duration_ms" elapsed (absorb outcome))
    as (_ & -> & _).
  destruct outcome as [r|msg]; simpl in *; [done|].
  by rewrite lookup_empty.
Qed.

Section retry.
Context (path : list Role) (node_id : string) (verify_node fix_node : Node W)
        (max_retries : Z) (pass_key : string).
Context (Hverify : obeys (λ _ _, True) (λ _ outcome, never_passes pass_key outcome)
                     (run (path ++ [Verify]) verify_node)).

Let vexec := execute (path ++ [Verify]) verify_node.
Let fexec := execute (path ++ [Fix]) fix_node.
Let V := Executed (path ++ [Verify]).
Let F := Executed (path ++ [Fix]).

Lemma finish_verify st :
  ∃ st' lv inner,
    finish vexec st = (st', Return lv) ∧
    truthy (default (VBool false) (outputs lv !! pass_key)) = false ∧
    log st' = log st ++ V :: inner ∧ filter (direct path) inner = [].
Proof.
  destruct (finish_execute (path ++ [Verify]) verify_node st)
    as (st' & outcome & inner & Hrun & Hexec & Hlog & Hin).
  eexists st', _, inner. split; [exact Hexec|]. split; [|split; [done|]].
  - apply absorb_never_passes.
    pose proof (obeys_finish _ _ _ (λ _ _ _ _ _, I) Hverify
                  (log_event (Executed (path ++ [Verify])) st)) as [_ Hp].
    by rewrite Hrun in Hp.
  - by eapply filter_direct_inner.
Qed.

Lemma finish_fix st :
  ∃ st' fr inner,
    finish fexec st = (st', Return fr) ∧
    log st' = log st ++ F :: inner ∧ filter (direct path) inner = [].
Proof.
  destruct (finish_execute (path ++ [Fix]) fix_node st)
    as (st' & outcome & inner & Hrun & Hexec & Hlog & Hin).
  eexists st', _, inner. split; [exact Hexec|]. split; [done|].
  by eapply filter_direct_inner.
Qed.

Lemma filter_direct_V : filter (direct path) [V] = [V].
Proof. rewrite filter_cons, decide_True; [done | by left]. Qed.

Lemma filter_direct_F : filter (direct path) [F] = [F].
Proof. rewrite filter_cons, decide_True; [done | by right]. Qed.

Lemma obeys_fix :
  obeys (λ _ _, True) (λ _ out, ∃ fr, out = Return fr) fexec.
Proof.
  eapply obeys_mono;
    [| |apply (obeys_execute_body (path ++ [Fix]) _ (λ _, True)),
              (run_appends fix_node (path ++ [Fix]))].
  - done.
  - intros _ out (outcome & elapsed & _ & ->). eauto.
Qed.

End retry.

End node_facts.

Section node_claims.
Context `{World W}.

(** *** [Node.execute] and the ways in which [run] can end *)

Lemma finish_execute_ending path body st :
  finish (execute_ending path body) st =
    let '(st', outcome) := finish body (log_event (Executed path) st) in
    (st', match outcome with
          | Ends x =>
              Ends (Return (metadata_setdefault "duration_ms"
                              (elapsed_ms (monotonic (world st))
                                          (monotonic (world st')))
                              (absorb x)))
          | Escapes e => Escapes e
          end).
Proof.
  unfold execute_ending. cbn [finish]. rewrite <- finish_resume.
  rewrite finish_bind.
  destruct (finish body (log_event (Executed path) st)) as [st' outcome].
  by rewrite finish_atomic.
Qed.

Lemma completes_execute_ending path body st st' out :
  completes (execute_ending path body) st st' out ↔
  ∃ outcome,
    completes body (log_event (Executed path) st) st' outcome ∧
    out = match outcome with
          | Ends x =>
              Ends (Return (metadata_setdefault "duration_ms"
                              (elapsed_ms (monotonic (world st))
                                          (monotonic (world st')))
                              (absorb x)))
          | Escapes e => Escapes e
          end.
Proof.
  unfold execute_ending.
  rewrite (completes_enter
             (λ st, bind body (λ outcome, atomic (λ st',
                (st', match outcome with
                      | Ends x =>
                          Ends (Return (metadata_setdefault "duration_ms"
                                  (elapsed_ms (monotonic (world st))
                                              (monotonic (world st')))
                                  (absorb x)))
                      | Escapes e => Escapes e
                      end))))
             (log_event (Executed path))).
  apply (completes_bind_atomic body
           (λ st' outcome,
              match outcome with
              | Ends x =>
                  Ends (Return (metadata_setdefault "duration_ms"
                          (elapsed_ms (monotonic (world st))
                                      (monotonic (world st')))
                          (absorb x)))
              | Escapes e => Escapes e
              end)).
Qed.

Lemma obeys_execute_ending path body :
  obeys (λ _ _, True) (λ _ outcome, ∃ x, outcome = Ends x) body →
  obeys (λ _ _, True)
        (λ _ out, ∃ r, out = Ends (Return r) ∧
                       is_Some (metadata r !! "duration_ms"))
        (execute_ending path body).
Proof.
  intros Hbody. unfold execute_ending.
  apply (obeys_enter (λ _ _, True) _
           (λ st, bind body (λ outcome, atomic (λ st',
              (st', match outcome with
                    | Ends x =>
                        Ends (Return (metadata_setdefault "duration_ms"
                                (elapsed_ms (monotonic (world st))
                                            (monotonic (world st')))
                                (absorb x)))
                    | Escapes e => Escapes e
                    end))))
           (log_event (Executed path))); [done..|].
  intros st.
  apply (obeys_bind _ (λ outcome, ∃ x, outcome = Ends x)); [done | exact Hbody |].
  intros outcome [x ->]. apply obeys_atomic. intros st'. simpl.
  split; [done|]. eexists. split; [done|].
  destruct (metadata_setdefault_fields "duration_ms"
              (elapsed_ms (monotonic (world st)) (monotonic (world st')))
              (absorb x)) as (_ & _ & _ & -> & _).
  eauto.
Qed.

Lemma completes_ends {S A} (c : coro S (exn A)) s s' out :
  completes (ends c) s s' out ↔ ∃ x, completes c s s' x ∧ out = Ends x.
Proof. apply (completes_bind_atomic c (λ _ x, Ends x)). Qed.

(** C5, amended. What [execute] does depends on how [run] ends. Run alone or
    interleaved, its completed executions are those of [run] after the log
    entry; when [run] returns, [execute] returns the same result, and when
    [run] raises an [Exception], it returns a FAILURE result with the
    message of the exception as error; in both cases [duration_ms] is set
    in the metadata to the rounded elapsed time between start and end
    unless [run] had set it. When [run] raises a [BaseException] that is
    not an [Exception], [execute] raises it too and there is no result.
    So [execute] always returns a result with [duration_ms] when [run]
    raises nothing but [Exception]s, as the nodes of this development
    do. *)
Theorem execute_contract (path : list Role)
    (body : coro (State W) (ending NodeResult)) :
  (∀ st,
     finish (execute_ending path body) st =
       let '(st', outcome) := finish body (log_event (Executed path) st) in
       (st', match outcome with
             | Ends x =>
                 Ends (Return (metadata_setdefault "duration_ms"
                                 (elapsed_ms (monotonic (world st))
                                             (monotonic (world st')))
                                 (absorb x)))
             | Escapes e => Escapes e
             end)) ∧
  (∀ st st' out,
     completes (execute_ending path body) st st' out ↔
     ∃ outcome,
       completes body (log_event (Executed path) st) st' outcome ∧
       out = match outcome with
             | Ends x =>
                 Ends (Return (metadata_setdefault "duration_ms"
                                 (elapsed_ms (monotonic (world st))
                                             (monotonic (world st')))
                                 (absorb x)))
             | Escapes e => Escapes e
             end) ∧
  (obeys (λ _ _, True) (λ _ outcome, ∃ x, outcome = Ends x) body →
   obeys (λ _ _, True)
         (λ _ out, ∃ r, out = Ends (Return r) ∧
                        is_Some (metadata r !! "duration_ms"))
         (execute_ending path body)) ∧
  (∀ (n : Node W) st st' out,
     completes (execute_ending path (ends (run path n))) st st' out ↔
     ∃ x, completes (execute path n) st st' x ∧ out = Ends x) ∧
  (∀ e, absorb (Raises e) =
          {| status := FAILURE; outputs := ∅; error := Some e; metadata := ∅ |}) ∧
  (∀ r, absorb (Return r) = r) ∧
  (∀ elapsed r,
     status (metadata_setdefault "duration_ms" elapsed r) = status r ∧
     outputs (metadata_setdefault "duration_ms" elapsed r) = outputs r ∧
     error (metadata_setdefault "duration_ms" elapsed r) = error r ∧
     metadata (metadata_setdefault "duration_ms" elapsed r) !! "duration_ms" =
       Some (default elapsed (metadata r !! "duration_ms")) ∧
     ∀ k, k ≠ "duration_ms" →
       metadata (metadata_setdefault "duration_ms" elapsed r) !! k =
         metadata r !! k).
Proof.
  split; [|split; [|split; [|split; [|split; [|split]]]]].
  - intros st. apply finish_execute_ending.
  - intros st st' out. apply completes_execute_ending.
  - apply obeys_execute_ending.
  - intros n st st' out. rewrite completes_execute_ending. split.
    + intros (outcome & Hrun & ->).
      apply completes_ends in Hrun as (x & Hrun & ->).
      eexists. split; [|done]. apply completes_execute_body. eauto.
    + intros (x & Hrun & ->).
      apply completes_execute_body in Hrun as (outcome & Hrun & ->).
      exists (Ends outcome). split; [|done]. apply completes_ends. eauto.
  - done.
  - done.
  - intros elapsed r. apply metadata_setdefault_fields.
Qed.

(** *** [RetryNode.run] when verification never passes, attempt by
    attempt *)

Section retry_exhausted.
Context (path : list Role) (node_id : string) (verify_node fix_node : Node W)
        (max_retries : Z) (pass_key : string) (Q : exn NodeResult → Prop).
Context (Hverify : obeys (λ _ _, True)
                     (λ _ outcome, never_passes pass_key outcome ∧ Q outcome)
                     (run (path ++ [Verify]) verify_node)).

Let vexec := execute (path ++ [Verify]) verify_node.
Let fexec := execute (path ++ [Fix]) fix_node.
Let V := Executed (path ++ [Verify]).
Let F := Executed (path ++ [Fix]).

(** What [execute] returns for the verify node. *)
Let verify_result (lv : NodeResult) : Prop :=
  ∃ outcome elapsed,
    Q outcome ∧ lv = metadata_setdefault "duration_ms" elapsed (absorb outcome).

(** The entries of [attempts] for the verify results so far. *)
Let entries (verified : list NodeResult) : list Value :=
  imap (λ i lv,
          VDict [("attempt", VInt (Z.of_nat (S i)));
                 ("passed", default (VBool false) (outputs lv !! pass_key));
                 ("error", opt_str (error lv))]) verified.

Lemma entries_snoc verified lv :
  entries verified ++
    [VDict [("attempt", VInt (Z.of_nat (S (length verified))));
            ("passed", default (VBool false) (outputs lv !! pass_key));
            ("error", opt_str (error lv))]] =
  entries (verified ++ [lv]).
Proof.
  unfold entries. rewrite imap_app. simpl. by rewrite Nat.add_0_r.
Qed.

Lemma never_passes_weaken :
  obeys (λ _ _, True) (λ _ outcome, never_passes pass_key outcome)
        (run (path ++ [Verify]) verify_node).
Proof. eapply obeys_mono; [| |exact Hverify]; naive_solver. Qed.

Lemma obeys_verify_result :
  obeys (λ _ _, True)
        (λ _ out, ∃ lv, out = Return lv ∧
           truthy (default (VBool false) (outputs lv !! pass_key)) = false ∧
           verify_result lv)
        vexec.
Proof.
  eapply obeys_mono;
    [| |apply (obeys_execute_body (path ++ [Verify]) _
                 (λ outcome, never_passes pass_key outcome ∧ Q outcome))].
  - done.
  - intros _ out (outcome & elapsed & [Hn HQ] & ->). eexists. split; [done|].
    split; [by apply absorb_never_passes|]. by exists outcome, elapsed.
  - eapply obeys_mono;
      [| |apply (obeys_conj _ _ _ _ _ (run_appends verify_node (path ++ [Verify]))
                   Hverify)]; naive_solver.
Qed.

Lemma finish_verify_result st :
  ∃ st' lv inner,
    finish vexec st = (st', Return lv) ∧
    truthy (default (VBool false) (outputs lv !! pass_key)) = false ∧
    verify_result lv ∧
    log st' = log st ++ V :: inner ∧ filter (direct path) inner = [].
Proof.
  destruct (finish_verify path verify_node pass_key never_passes_weaken st)
    as (st' & lv & inner & Hv & Hp & Hlog & Hflt).
  exists st', lv, inner. repeat split; try done.
  pose proof (obeys_finish _ _ _ (λ _ _ _ _ _, I) obeys_verify_result st)
    as [_ Hres].
  fold vexec in Hv. rewrite Hv in Hres. simpl in Hres.
  destruct Hres as (lv' & [= <-] & _ & Hres). done.
Qed.

Lemma obeys_retry_loop_exhausted m : ∀ verified,
  max_retries = Z.of_nat (length verified + S m) →
  obeys (λ _ _, True)
        (λ _ out, ∃ news,
           length news = S m ∧ Forall verify_result news ∧
           out = Return (retry_exhausted (last (verified ++ news))
                           (entries (verified ++ news))))
        (retry_loop node_id vexec fexec max_retries pass_key
           ((λ i, Z.of_nat i) <$> seq (S (length verified)) (S m))
           (last verified) (entries verified)).
Proof.
  induction m as [|m IH]; intros verified HN.
  - cbn [seq fmap list_fmap retry_loop]. unfold bind_exn.
    eapply obeys_bind; [done | apply obeys_verify_result |].
    intros out (lv & -> & Hp & Hres).
    eapply (obeys_bind _ (λ _, True)); [done | by apply obeys_atomic |].
    intros _ _. rewrite Hp. rewrite bool_decide_false by lia.
    cbn [retry_loop]. apply obeys_ret; [done|]. intros _.
    exists [lv]. split; [done|]. split; [by apply Forall_singleton|].
    by rewrite entries_snoc, last_snoc.
  - change (seq (S (length verified)) (S (S m)))
      with (S (length verified) :: seq (S (S (length verified))) (S m)).
    rewrite fmap_cons. cbn [retry_loop]. unfold bind_exn.
    eapply obeys_bind; [done | apply obeys_verify_result |].
    intros out (lv & -> & Hp & Hres).
    eapply (obeys_bind _ (λ _, True)); [done | by apply obeys_atomic |].
    intros _ _. rewrite Hp. rewrite bool_decide_true by lia.
    eapply obeys_bind; [done | apply (obeys_fix path fix_node) |].
    intros out (fr & ->).
    eapply (obeys_bind _ (λ _, True)); [done | by apply obeys_atomic |].
    intros _ _. rewrite entries_snoc.
    assert (Hl : length (verified ++ [lv]) = S (length verified))
      by (rewrite length_app; simpl; lia).
    pose proof (IH (verified ++ [lv])) as IH'.
    rewrite Hl, last_snoc in IH'.
    eapply obeys_mono; [| |apply IH'].
    + done.
    + intros _ out (news & Hlen & Hall & ->).
      exists (lv :: news). split; [simpl; lia|].
      split; [by constructor|]. by rewrite <- app_assoc.
    + lia.
Qed.

Lemma finish_retry_loop_exhausted m : ∀ verified st,
  max_retries = Z.of_nat (length verified + S m) →
  ∃ st' news new,
    finish (retry_loop node_id vexec fexec max_retries pass_key
              ((λ i, Z.of_nat i) <$> seq (S (length verified)) (S m))
              (last verified) (entries verified)) st
      = (st', Return (retry_exhausted (last (verified ++ news))
                        (entries (verified ++ news)))) ∧
    length news = S m ∧ Forall verify_result news ∧
    log st' = log st ++ new ∧
    filter (direct path) new = concat (replicate m [V; F]) ++ [V].
Proof.
  induction m as [|m IH]; intros verified st HN.
  - destruct (finish_verify_result st)
      as (st1 & lv & inner & Hv & Hp & Hres & Hlog & Hflt).
    cbn [seq fmap list_fmap retry_loop]. unfold bind_exn.
    rewrite finish_bind, Hv. rewrite finish_bind, finish_atomic.
    rewrite Hp. rewrite bool_decide_false by lia.
    cbn [retry_loop]. rewrite finish_ret.
    eexists _, [lv], (V :: inner).
    split; [by rewrite entries_snoc, last_snoc|].
    split; [done|]. split; [by apply Forall_singleton|]. split; [done|].
    change (V :: inner) with ([V] ++ inner).
    by rewrite filter_app, filter_direct_V, Hflt.
  - destruct (finish_verify_result st)
      as (st1 & lv & inner & Hv & Hp & Hres & Hlog & Hflt).
    set (st1' := with_ctx (Context.merge (node_id +:+ ".verify") (outputs lv)) st1).
    destruct (finish_fix path fix_node st1')
      as (st2 & fr & inner2 & Hf & Hlog2 & Hflt2).
    set (st2' := with_ctx (Context.merge (node_id +:+ ".fix") (outputs fr)) st2).
    assert (Hl : length (verified ++ [lv]) = S (length verified))
      by (rewrite length_app; simpl; lia).
    pose proof (IH (verified ++ [lv]) st2') as IH'.
    rewrite Hl, last_snoc in IH'.
    destruct IH' as (st' & news & new & Hrun & Hlen & Hall & Hlog' & Hflt');
      [lia|].
    change (seq (S (length verified)) (S (S m)))
      with (S (length verified) :: seq (S (S (length verified))) (S m)).
    rewrite fmap_cons. cbn [retry_loop]. unfold bind_exn.
    rewrite finish_bind, Hv. rewrite finish_bind, finish_atomic.
    rewrite Hp. rewrite bool_decide_true by lia.
    rewrite finish_bind. fold st1'. fold fexec in Hf. rewrite Hf.
    rewrite finish_bind, finish_atomic. fold st2'. rewrite entries_snoc.
    rewrite Hrun.
    eexists st', (lv :: news), (V :: inner ++ F :: inner2 ++ new).
    split; [by rewrite <- app_assoc|].
    split; [simpl; lia|]. split; [by constructor|]. split.
    + rewrite Hlog'. unfold st2'. simpl. rewrite Hlog2. unfold st1'. simpl.
      rewrite Hlog. rewrite <- ?app_assoc. simpl. rewrite <- ?app_assoc. done.
    + change (V :: inner ++ F :: inner2 ++ new)
        with ([V] ++ inner ++ [F] ++ inner2 ++ new).
      rewrite !filter_app, filter_direct_V, filter_direct_F, Hflt, Hflt2, Hflt'.
      done.
Qed.

End retry_exhausted.


End node_claims.

Import Scenario.

(** C5, as stated, fails: a [run] that is cancelled while it is suspended
    makes [execute] raise [CancelledError] instead of returning a
    result. *)
Lemma execute_cancelled_counterexample :
  finish (execute_ending [Top "n"] cancelled_run)
         (mkState (Context.new None) () []) =
    (mkState (Context.new None) () [Executed [Top "n"]],
     Escapes "CancelledError").
Proof. reflexivity. Qed.

Lemma failing_check_obeys :
  obeys (λ _ _, True)
        (λ _ outcome,
           never_passes "passed" outcome ∧
           outcome = Return {| status := FAILURE;
                               outputs := {["passed" := VBool false]};
                               error := Some "bad"; metadata := ∅ |})
        (run ([Top "retry"] ++ [Verify]) failing_check).
Proof. intros s. split; [done|]. vm_compute. split; reflexivity. Qed.


Module RunnerProofs.

Section lists.
Context {A : Type}.

Lemma delete_middle (l : list A) i x :
  l !! i = Some x →
  l = take i l ++ (x :: drop (S i) l) ∧
  delete i l = (take i l ++ drop (S i) l).
Proof.
  intros Hi. split.
  - symmetry. by apply take_drop_middle.
  - apply delete_take_drop.
Qed.

Lemma NoDup_delete_notin (l : list A) i x :
  NoDup l → l !! i = Some x → (x ∉ delete i l) ∧ NoDup (delete i l).
Proof.
  intros Hnd Hi. destruct (delete_middle l i x Hi) as [El Ed].
  rewrite El in Hnd. rewrite Ed.
  apply NoDup_app in Hnd as (H1 & H2 & H3).
  apply NoDup_cons in H3 as [H3 H4]. split.
  - rewrite elem_of_app. intros [Hin|Hin]; [|done].
    apply (H2 x Hin). by left.
  - apply NoDup_app. repeat split; [done| |done].
    intros y Hy Hy'. apply (H2 y Hy). by right.
Qed.

Lemma elem_of_delete_or (l : list A) i x y :
  l !! i = Some x → y ∈ l ↔ y = x ∨ y ∈ delete i l.
Proof.
  intros Hi. destruct (delete_middle l i x Hi) as [El Ed].
  rewrite Ed. rewrite El at 1. rewrite !elem_of_app, elem_of_cons. tauto.
Qed.

End lists.

Section runner_facts.
Context `{World W}.
Implicit Types (rs : Runner.RunState (W:=W)) (graph : Graph.t (Node:=Node W)).

(** *** Steps of tasks and of levels *)

Lemma task_step_refl id rs : Runner.task_step id rs rs.
Proof. split; [done | apply appends_refl]. Qed.

Lemma task_step_trans id rs1 rs2 rs3 :
  Runner.task_step id rs1 rs2 → Runner.task_step id rs2 rs3 → Runner.task_step id rs1 rs3.
Proof.
  intros [F1 A1] [F2 A2]. split.
  - intros id' Hne. by rewrite F2, F1.
  - by eapply appends_trans.
Qed.

Lemma level_step_refl ids rs : Runner.level_step ids rs rs.
Proof. split; [done | apply appends_refl]. Qed.

Lemma level_step_trans ids rs1 rs2 rs3 :
  Runner.level_step ids rs1 rs2 → Runner.level_step ids rs2 rs3 → Runner.level_step ids rs1 rs3.
Proof.
  intros [F1 A1] [F2 A2]. split.
  - intros id' Hne. by rewrite F2, F1.
  - by eapply appends_trans.
Qed.

Lemma level_step_mono ids ids' rs rs' :
  (∀ id, id ∈ ids → id ∈ ids') → Runner.level_step ids rs rs' → Runner.level_step ids' rs rs'.
Proof.
  intros Hsub [F A]. split.
  - intros id' Hn. apply F. intros Hin. by apply Hn, Hsub.
  - eapply appends_mono; [|exact A].
    intros e (id & Hid & He). exists id. split; [by apply Hsub | done].
Qed.

Lemma task_level_step id ids rs rs' :
  id ∈ ids → Runner.task_step id rs rs' → Runner.level_step ids rs rs'.
Proof.
  intros Hin [F A]. split.
  - intros id' Hn. apply F. intros ->. done.
  - eapply appends_mono; [|exact A]. intros e He. by exists id.
Qed.

Lemma appends_elem ok (st st' : State W) e :
  appends ok st st' → e ∈ log st → e ∈ log st'.
Proof. intros (new & -> & _) Hin. apply elem_of_app. by left. Qed.

Lemma task_ended_stable P id ids rs rs' :
  id ∉ ids → Runner.level_step ids rs rs' →
  Runner.task_ended P id rs → Runner.task_ended P id rs'.
Proof.
  intros Hn [F A] (r & Hr & HP & Hm). exists r.
  split; [by rewrite F|]. split; [done|].
  intros Hs. eapply appends_elem; eauto.
Qed.

(** *** [Runner._run_node] *)

Lemma entry_logs_bind {A} e (c : coro Runner.RunState A) (f : A → coro Runner.RunState (res unit))
    (R : Runner.RunState → Runner.RunState → Prop) Q :
  (∀ rs rs', R rs rs' →
     e ∈ log (Runner.nodes_state rs) → e ∈ log (Runner.nodes_state rs')) →
  (∀ rs, e ∈ log (Runner.nodes_state (resume c rs).1)) →
  (∀ a, obeys R Q (f a)) →
  Runner.entry_logs e (bind c f).
Proof.
  intros Hkeep Hc Hf rs. specialize (Hc rs). destruct c as [k].
  simpl in *. destruct (k rs) as [rs1 [a|c']]; simpl in *; [|done].
  specialize (Hf a). destruct (f a) as [k']. simpl in *.
  destruct (Hf rs1) as [HR _]. by eapply Hkeep.
Qed.

Lemma run_node_obeys_own graph id node level_idx (P : exn NodeResult → Prop) :
  Graph.get_node graph id = Ok node →
  obeys (λ _ _, True) (λ _ outcome, P outcome) (run [Top id] node) →
  obeys (Runner.task_step id)
        (λ rs' a, a = Ok () ∧
           Runner.task_ended
             (λ r, Runner.executed_result P level_idx r ∧
                   Runner.own_result graph id level_idx r) id rs')
        (Runner._run_node id graph level_idx) ∧
  Runner.entry_logs (Executed [Top id]) (Runner._run_node id graph level_idx).
Proof.
  intros Hget Hrun. unfold Runner._run_node. rewrite Hget.
  set (ends_with := λ out : exn NodeResult,
         (∃ outcome elapsed, P outcome ∧
            out = Return (metadata_setdefault "duration_ms" elapsed
                            (absorb outcome))) ∧
         ∃ st st', completes (execute [Top id] node) st st' out).
  assert (Hexec :
    obeys (appends (below [Top id])) (λ _ out, ends_with out)
          (execute [Top id] node)).
  { assert (Hbody : obeys (appends (strictly_below [Top id]))
                      (λ _ outcome, P outcome) (run [Top id] node)).
    { eapply obeys_mono;
        [| |apply (obeys_conj _ _ _ _ _ (run_appends node [Top id]) Hrun)];
        naive_solver. }
    eapply obeys_mono;
      [| |apply (obeys_conj _ _ _ _ _
                   (obeys_execute_body [Top id] (run [Top id] node) P Hbody)
                   (obeys_of_completes (execute [Top id] node)))].
    - naive_solver.
    - intros st' out [Hout [st Hc]]. split; [done|]. eauto. }
  assert (Hfinal : ∀ out,
    ends_with out →
    obeys (Runner.task_step id)
      (λ rs' a, a = Ok () ∧
         Runner.task_ended
           (λ r, Runner.executed_result P level_idx r ∧
                 Runner.own_result graph id level_idx r) id rs')
      (match out with
       | Return result =>
           atomic (λ rs : Runner.RunState (W:=W),
             let result := metadata_setdefault "level" (VInt level_idx) result in
             let rs :=
               if bool_decide (status result = SUCCESS)
               then Runner.mkRunState
                      (log_event (Merged id)
                         (with_ctx (Context.merge id (outputs result))
                                   (Runner.nodes_state rs)))
                      (Runner.report_results rs)
               else rs in
             (Runner.record id result rs, Ok ()))
       | Raises msg => ret (Raise (Fault msg))
       end)).
  { intros out [(outcome & elapsed & HP & ->) (st & st' & Hown)].
    assert (Hmine : Runner.own_result graph id level_idx
              (metadata_setdefault "level" (VInt level_idx)
                 (metadata_setdefault "duration_ms" elapsed (absorb outcome)))).
    { exists node, st, st'. eexists. split; [done|]. split; [exact Hown|done]. }
    apply obeys_atomic. intros rs. cbn zeta.
    set (result := metadata_setdefault "level" (VInt level_idx)
                     (metadata_setdefault "duration_ms" elapsed (absorb outcome))).
    unfold Runner.task_step, Runner.task_ended, Runner.record.
    case_bool_decide as Hs; simpl.
    - split; [split|].
      + intros id' Hne. by rewrite lookup_insert_ne.
      + exists [Merged id]. split; [done|].
        apply Forall_singleton. by right.
      + split; [done|]. exists result. rewrite lookup_insert_eq.
        split; [done|]. split; [split; [by exists outcome, elapsed|done]|].
        intros _. apply elem_of_app. right. by apply list_elem_of_singleton.
    - split; [split|].
      + intros id' Hne. by rewrite lookup_insert_ne.
      + apply appends_refl.
      + split; [done|]. exists result. rewrite lookup_insert_eq.
        split; [done|].
        split; [split; [by exists outcome, elapsed|done]|]. done. }
  assert (Hlift :
    obeys (Runner.task_step id) (λ _ out, ends_with out)
          (lift Runner.nodes_state (λ st rs, Runner.mkRunState st (Runner.report_results rs))
                (execute [Top id] node))).
  { eapply obeys_lift; [| |exact Hexec].
    - intros rs st' Happ. split; [done|]. simpl.
      eapply appends_mono; [|exact Happ]. intros e He. by left.
    - done. }
  split.
  - eapply (obeys_bind _ ends_with).
    + apply task_step_trans.
    + exact Hlift.
    + exact Hfinal.
  - eapply (entry_logs_bind _ _ _ (Runner.task_step id)
              (λ _ _, True)).
    + intros rs rs' [_ Happ]. by eapply appends_elem.
    + intros rs. unfold execute, execute_body. simpl.
      pose proof (run_appends node [Top id]) as Hra.
      destruct (bind (run [Top id] node) _) as [kb] eqn:Eb.
      assert (Hb : obeys (appends (strictly_below [Top id])) (λ _ _, True)
                     (Segment kb)).
      { rewrite <- Eb. eapply (obeys_bind _ (λ _, True)).
        - apply appends_trans.
        - exact Hra.
        - intros a _. apply obeys_atomic. intros st'. simpl.
          split; [apply appends_refl | done]. }
      simpl in Hb.
      destruct (Hb (log_event (Executed [Top id]) (Runner.nodes_state rs)))
        as [(new & Hlog & _) _].
      simpl.
      destruct (kb (log_event (Executed [Top id]) (Runner.nodes_state rs)))
        as [st1 [a|c']]; simpl in *; rewrite Hlog;
        rewrite <- app_assoc; set_solver.
    + intros out. destruct out as [result|msg].
      * apply obeys_atomic. intros rs. cbn zeta.
        unfold Runner.task_step, Runner.record.
        case_bool_decide; simpl.
        -- split; [split|done].
           ++ intros id' Hne. by rewrite lookup_insert_ne.
           ++ exists [Merged id]. split; [done|].
              apply Forall_singleton. by right.
        -- split; [split|done].
           ++ intros id' Hne. by rewrite lookup_insert_ne.
           ++ apply appends_refl.
      * apply obeys_ret; [apply task_step_refl | done].
Qed.

Lemma task_ended_mono (P Q : NodeResult → Prop) id rs :
  (∀ r, P r → Q r) → Runner.task_ended P id rs → Runner.task_ended Q id rs.
Proof. intros HPQ (r & Hr & HP & Hm). exists r. eauto. Qed.

Lemma ended_mono (P Q : string → NodeResult → Prop) id rs :
  (∀ r, P id r → Q id r) → Runner.ended P id rs → Runner.ended Q id rs.
Proof. intros HPQ [He Hl]. split; [by eapply task_ended_mono|done]. Qed.

(** The result of a node's own [execute] is in particular the result of
    an execution. *)
Lemma own_result_executed graph id level_idx r :
  Runner.own_result graph id level_idx r →
  Runner.executed_result (λ _, True) level_idx r.
Proof.
  intros (node & st & st' & result & _ & Hrun & ->).
  apply completes_execute_body in Hrun as (outcome & _ & [= ->]).
  by eexists outcome, _.
Qed.

(** *** [gather] *)

Lemma pending_stable P ids rs rs' id c :
  Runner.level_step ids rs rs' → Runner.pending P rs id c → Runner.pending P rs' id c.
Proof.
  intros [_ Happ] [Hc Hlog]. split; [done|].
  destruct Hlog as [Hl|Hl]; [by left|]. right. by eapply appends_elem.
Qed.

Lemma ended_stable P ids rs rs' id :
  id ∉ ids → Runner.level_step ids rs rs' → Runner.ended P id rs → Runner.ended P id rs'.
Proof.
  intros Hn Hstep [He Hl]. split.
  - by eapply task_ended_stable.
  - destruct Hstep as [_ Happ]. by eapply appends_elem.
Qed.

(** One segment of a Runner.pending task. *)
Lemma pending_resume P rs id c :
  Runner.pending P rs id c →
  Runner.task_step id rs (resume c rs).1 ∧
  match (resume c rs).2 with
  | inl a => a = Ok () ∧ Runner.ended P id (resume c rs).1
  | inr c' => Runner.pending P (resume c rs).1 id c'
  end.
Proof.
  intros [Hc Hlog]. destruct c as [k]. simpl in *.
  destruct (Hc rs) as [Hstep Hrest]. split; [done|].
  assert (Hin : Executed [Top id] ∈ log (Runner.nodes_state (k rs).1)).
  { destruct Hlog as [Hl|Hl]; [apply (Hl rs)|].
    destruct Hstep as [_ Happ]. by eapply appends_elem. }
  destruct ((k rs).2) as [a|c'].
  - destruct Hrest as [-> He]. done.
  - split; [done|]. by right.
Qed.

Lemma pending_finish P id c : ∀ rs,
  Runner.pending P rs id c →
  Runner.task_step id rs (finish c rs).1 ∧
  (finish c rs).2 = Ok () ∧ Runner.ended P id (finish c rs).1.
Proof.
  induction c as [k IH] using coro_induction. intros rs Hp.
  pose proof (pending_resume P rs id (Segment k) Hp) as [Hstep Hrest].
  specialize (IH rs). simpl in *.
  destruct (k rs) as [rs1 [a|c']]; simpl in *.
  - destruct Hrest as [-> He]. done.
  - destruct (IH rs1 Hrest) as (Hstep' & Hok & He).
    split; [by eapply task_step_trans|done].
Qed.

Lemma gather_rest_spec P ids : ∀ tasks rs,
  NoDup ids → Forall2 (Runner.pending P rs) ids tasks →
  ∃ rs', Runner.gather_rest tasks rs = (rs', Ok ()) ∧
         Runner.level_step ids rs rs' ∧
         ∀ id, id ∈ ids → Runner.ended P id rs'.
Proof.
  induction ids as [|id ids IH]; intros tasks rs Hnd Hall.
  - apply Forall2_nil_inv_l in Hall as ->. exists rs. simpl.
    split; [done|]. split; [apply level_step_refl | set_solver].
  - apply Forall2_cons_inv_l in Hall as (c & tasks' & Hc & Hall & ->).
    apply NoDup_cons in Hnd as [Hid Hnd].
    destruct (pending_finish P id c rs Hc) as (Hstep & Hok & He).
    simpl. destruct (finish c rs) as [rs1 a] eqn:Ef. simpl in *. subst a.
    assert (Hstep1 : Runner.level_step [id] rs rs1)
      by (eapply task_level_step; [|exact Hstep]; set_solver).
    destruct (IH tasks' rs1 Hnd) as (rs' & Hrun & Hstep' & Hend).
    { eapply Forall2_impl; [exact Hall|].
      intros id' c' Hp. by eapply pending_stable. }
    exists rs'. split; [done|]. split.
    + eapply level_step_trans.
      * eapply level_step_mono; [|exact Hstep1]. set_solver.
      * eapply level_step_mono; [|exact Hstep']. set_solver.
    + intros id' Hin. apply elem_of_cons in Hin as [->|Hin].
      * by eapply ended_stable.
      * by apply Hend.
Qed.

Lemma gather_spec P sched : ∀ ids tasks rs,
  NoDup ids → Forall2 (Runner.pending P rs) ids tasks →
  ∃ rs', Runner.gather sched tasks rs = (rs', Ok ()) ∧
         Runner.level_step ids rs rs' ∧
         ∀ id, id ∈ ids → Runner.ended P id rs'.
Proof.
  induction sched as [|i sched IH]; intros ids tasks rs Hnd Hall.
  { by apply gather_rest_spec. }
  cbn [Runner.gather].
  destruct (tasks !! i) as [c|] eqn:Ei; [|by apply IH].
  destruct (Forall2_lookup_r _ _ _ _ _ Hall Ei) as (id & Hid & Hc).
  pose proof (pending_resume P rs id c Hc) as [Hstep Hrest].
  assert (Hin : id ∈ ids) by (by eapply list_elem_of_lookup_2).
  assert (Hstep1 : Runner.level_step ids rs (resume c rs).1)
    by (by eapply task_level_step).
  destruct (resume c rs) as [rs1 [a|c']] eqn:Er; simpl in *.
  - destruct Hrest as [-> He].
    destruct (NoDup_delete_notin ids i id Hnd Hid) as [Hnotin Hnd'].
    destruct (IH (delete i ids) (delete i tasks) rs1 Hnd')
      as (rs' & Hrun & Hstep' & Hend).
    { apply Forall2_delete. eapply Forall2_impl; [exact Hall|].
      intros id' c' Hp. by eapply pending_stable. }
    exists rs'. split; [done|]. split.
    + eapply level_step_trans; [exact Hstep1|].
      eapply level_step_mono; [|exact Hstep'].
      intros y Hy. apply (elem_of_delete_or ids i id y Hid). by right.
    + intros y Hy. apply (elem_of_delete_or ids i id y Hid) in Hy as [->|Hy].
      * by eapply ended_stable.
      * by apply Hend.
  - destruct (IH ids (<[i:=c']> tasks) rs1 Hnd)
      as (rs' & Hrun & Hstep' & Hend).
    { rewrite <- (list_insert_id ids i id Hid).
      apply Forall2_insert; [|done].
      eapply Forall2_impl; [exact Hall|].
      intros id' c'' Hp. by eapply pending_stable. }
    exists rs'. split; [done|]. split; [|done].
    by eapply level_step_trans.
Qed.

(** *** Scheduling a level *)

Lemma schedule_level_spec graph level_idx level : ∀ tasks rs,
  NoDup level →
  ∃ run_ids rs',
    Runner.schedule_level graph level_idx level tasks rs =
      (tasks ++ ((λ id, Runner._run_node id graph level_idx) <$> run_ids), rs') ∧
    sublist run_ids level ∧
    Runner.nodes_state rs' = Runner.nodes_state rs ∧
    (∀ id, id ∉ level →
       Runner.report_results rs' !! id = Runner.report_results rs !! id) ∧
    (∀ id, id ∈ level → id ∉ run_ids →
       Runner.report_results rs' !! id = Some (Runner.skipped_upstream level_idx)).
Proof.
  induction level as [|id level IH]; intros tasks rs Hnd.
  - exists [], rs. simpl. rewrite app_nil_r. repeat split; try done;
      set_solver.
  - apply NoDup_cons in Hnd as [Hid Hnd]. cbn [Runner.schedule_level].
    destruct (Runner._should_skip id graph (Runner.report_results rs)).
    + destruct (IH tasks
                  (Runner.record id (Runner.skipped_upstream level_idx) rs) Hnd)
        as (run_ids & rs' & Hrun & Hsub & Hst & Hout & Hskip).
      exists run_ids, rs'. split; [exact Hrun|].
      split; [by apply sublist_cons|]. split; [done|]. split.
      * intros id' Hn. rewrite Hout by set_solver.
        unfold Runner.record. simpl. rewrite lookup_insert_ne; [done|set_solver].
      * intros id' Hin Hn. apply elem_of_cons in Hin as [->|Hin].
        -- rewrite Hout by done. unfold Runner.record. simpl.
           by rewrite lookup_insert_eq.
        -- by apply Hskip.
    + destruct (IH (tasks ++ [Runner._run_node id graph level_idx]) rs Hnd)
        as (run_ids & rs' & Hrun & Hsub & Hst & Hout & Hskip).
      exists (id :: run_ids), rs'. split.
      { rewrite Hrun. rewrite <- app_assoc. done. }
      split; [by apply sublist_skip|]. split; [done|]. split.
      * intros id' Hn. apply Hout. set_solver.
      * intros id' Hin Hn. apply elem_of_cons in Hin as [->|Hin]; [set_solver|].
        apply Hskip; [done|set_solver].
Qed.

Lemma dry_run_level_spec level_idx level : ∀ rs,
  Runner.nodes_state (Runner.dry_run_level level_idx level rs) =
    Runner.nodes_state rs ∧
  (∀ id, id ∉ level →
     Runner.report_results (Runner.dry_run_level level_idx level rs) !! id =
       Runner.report_results rs !! id) ∧
  (∀ id, id ∈ level →
     ∃ r, Runner.report_results (Runner.dry_run_level level_idx level rs) !! id
            = Some r ∧ status r = SKIPPED ∧
          metadata r !! "dry_run" = Some (VBool true)).
Proof.
  unfold Runner.dry_run_level.
  induction level as [|id level IH] using rev_ind; intros rs.
  - simpl. repeat split; try done; set_solver.
  - rewrite foldl_app. simpl. destruct (IH rs) as (Hst & Hout & Hin).
    unfold Runner.record. simpl. split; [done|]. split.
    + intros id' Hn. rewrite lookup_insert_ne by set_solver.
      apply Hout. set_solver.
    + intros id' Hid. destruct (decide (id' = id)) as [->|Hne].
      * rewrite lookup_insert_eq. eexists. split; [done|]. done.
      * rewrite lookup_insert_ne by done. apply Hin. set_solver.
Qed.

Lemma get_node_registered graph id :
  id ∈ Graph.node_ids graph → ∃ node, Graph.get_node graph id = Ok node.
Proof.
  unfold Graph.get_node, Graph.node_ids. intros Hin.
  induction (Graph._nodes graph) as [|[k n] d IH]; [set_solver|].
  simpl in *. destruct (decide (id = k)) as [->|Hne]; [eauto|].
  apply IH. set_solver.
Qed.

(** *** One level, and the levels in turn *)

Lemma run_level_spec graph sched level_idx level rs :
  NoDup level →
  (∀ id, id ∈ level → ∃ node, Graph.get_node graph id = Ok node) →
  ∃ rs' new,
    Runner.run_level graph sched level_idx level rs = (rs', Ok ()) ∧
    log (Runner.nodes_state rs') = log (Runner.nodes_state rs) ++ new ∧
    Forall (Runner.level_event level) new ∧
    (∀ id, id ∉ level →
       Runner.report_results rs' !! id = Runner.report_results rs !! id) ∧
    (∀ id, id ∈ level →
       Runner.report_results rs' !! id = Some (Runner.skipped_upstream level_idx) ∨
       Runner.ended (λ id r, Runner.own_result graph id level_idx r) id rs').
Proof.
  intros Hnd Hget. unfold Runner.run_level.
  destruct (schedule_level_spec graph level_idx level [] rs Hnd)
    as (run_ids & rs1 & Hsched & Hsub & Hst & Hout & Hskip).
  rewrite Hsched. simpl.
  assert (Hin : ∀ id, id ∈ run_ids → id ∈ level).
  { intros id Hid. by eapply elem_of_sublist. }
  destruct (gather_spec (λ id r, Runner.own_result graph id level_idx r)
              sched run_ids
              ((λ id, Runner._run_node id graph level_idx) <$> run_ids) rs1)
    as (rs' & Hrun & [Hframe (new & Hlog & Hnew)] & Hend).
  { by eapply sublist_NoDup. }
  { apply Forall2_fmap_r, Forall_Forall2_diag, Forall_forall.
    intros id Hid. destruct (Hget id (Hin id Hid)) as [node Hnode].
    destruct (run_node_obeys_own graph id node level_idx (λ _, True) Hnode)
      as [Hob Hentry].
    { eapply obeys_mono; [| |apply (run_appends node [Top id])]; done. }
    split; [|by left].
    eapply obeys_mono; [| |exact Hob]; [done|].
    intros rs' a [-> He]. split; [done|].
    eapply task_ended_mono; [|exact He]. naive_solver. }
  assert (Hres : ∃ rs2,
    match (λ id, Runner._run_node id graph level_idx) <$> run_ids with
    | [] => (rs1, Ok ())
    | _ :: _ =>
        Runner.gather sched
          ((λ id, Runner._run_node id graph level_idx) <$> run_ids) rs1
    end = (rs2, Ok ()) ∧
    log (Runner.nodes_state rs2) = log (Runner.nodes_state rs1) ++
      (if run_ids is [] then [] else new) ∧
    (∀ id, id ∉ run_ids →
       Runner.report_results rs2 !! id = Runner.report_results rs1 !! id) ∧
    (∀ id, id ∈ run_ids →
       Runner.ended (λ id r, Runner.own_result graph id level_idx r) id rs2)).
  { destruct run_ids as [|id0 run_ids].
    - exists rs1. simpl. rewrite app_nil_r. repeat split; try done; set_solver.
    - exists rs'. done. }
  destruct Hres as (rs2 & Heq & Hlog2 & Hframe2 & Hend2).
  exists rs2, (if run_ids is [] then [] else new).
  split; [exact Heq|]. split; [by rewrite Hlog2, Hst|]. split; [|split].
  - destruct run_ids; [constructor|].
    eapply Forall_impl; [exact Hnew|].
    intros e (id & Hid & He). exists id. split; [by apply Hin|done].
  - intros id Hn. rewrite Hframe2, Hout; [done..|]. intros Hid. by apply Hn, Hin.
  - intros id Hid. destruct (decide (id ∈ run_ids)) as [Hr|Hr].
    + right. by apply Hend2.
    + left. rewrite Hframe2 by done. by apply Hskip.
Qed.

Lemma run_levels_spec self graph sched levels : ∀ level_idx rs,
  NoDup (concat levels) →
  (∀ id, id ∈ concat levels → ∃ node, Graph.get_node graph id = Ok node) →
  ∃ rs' chunks,
    Runner.run_levels self graph sched level_idx levels rs = (rs', Ok ()) ∧
    log (Runner.nodes_state rs') = log (Runner.nodes_state rs) ++ concat chunks ∧
    (length chunks ≤ length levels)%nat ∧
    (∀ id, id ∉ concat levels →
       Runner.report_results rs' !! id = Runner.report_results rs !! id) ∧
    (∀ i level chunk, levels !! i = Some level → chunks !! i = Some chunk →
       Forall (Runner.level_event level) chunk ∧
       ∀ id r, id ∈ level → Runner.report_results rs' !! id = Some r →
         status r = SUCCESS →
         Merged id ∈ log (Runner.nodes_state rs') ∧
         Executed [Top id] ∈ log (Runner.nodes_state rs')).
Proof.
  induction levels as [|level levels IH]; intros level_idx rs Hnd Hget.
  { exists rs, []. simpl. rewrite app_nil_r. repeat split; try done. }
  simpl in Hnd. apply NoDup_app in Hnd as (Hnd1 & Hdis & Hnd2).
  assert (Hget2 : ∀ id, id ∈ concat levels →
            ∃ node, Graph.get_node graph id = Ok node).
  { intros id Hid. apply Hget. simpl. set_solver. }
  cbn [Runner.run_levels]. destruct (Runner.dry_run self).
  - destruct (dry_run_level_spec level_idx level rs) as (Hst & Hout & Hin).
    destruct (IH (level_idx + 1) (Runner.dry_run_level level_idx level rs)
                Hnd2 Hget2)
      as (rs' & chunks & Hrun & Hlog & Hlen & Hframe & Hchunks).
    exists rs', ([] :: chunks). split; [done|].
    split; [by rewrite Hlog, Hst|]. split; [simpl; lia|]. split.
    + intros id Hn. simpl in Hn. rewrite Hframe, Hout; [done|set_solver..].
    + intros [|i] lvl chunk Hl Hc; simpl in *.
      * injection Hl as <-. injection Hc as <-. split; [constructor|].
        intros id r Hid Hr Hs. exfalso.
        rewrite Hframe in Hr by (intros Hx; by apply (Hdis id)).
        destruct (Hin id Hid) as (r' & Hr' & Hs' & _). congruence.
      * by apply (Hchunks i).
  - destruct (run_level_spec graph (sched level_idx) level_idx level rs Hnd1)
      as (rs1 & new & Hrun1 & Hlog1 & Hnew & Hframe1 & Hids).
    { intros id Hid. apply Hget. simpl. set_solver. }
    rewrite Hrun1.
    assert (Hhere : ∀ id r, id ∈ level →
              Runner.report_results rs1 !! id = Some r → status r = SUCCESS →
              Merged id ∈ log (Runner.nodes_state rs1) ∧
              Executed [Top id] ∈ log (Runner.nodes_state rs1)).
    { intros id r Hid Hr Hs. destruct (Hids id Hid) as [Hsk|[(r0 & Hr0 & _ & Hm) He]].
      - rewrite Hsk in Hr. injection Hr as <-. done.
      - rewrite Hr0 in Hr. injection Hr as ->. split; [by apply Hm|done]. }
    destruct (Runner.fail_fast self &&
              Runner.level_failed level (Runner.report_results rs1)).
    + exists rs1, [new]. split; [done|]. simpl. rewrite app_nil_r.
      split; [done|]. split; [lia|]. split.
      * intros id Hn. apply Hframe1. set_solver.
      * intros [|i] lvl chunk Hl Hc; simpl in *; [|done].
        injection Hl as <-. injection Hc as <-. split; [done|]. apply Hhere.
    + destruct (IH (level_idx + 1) rs1 Hnd2 Hget2)
        as (rs' & chunks & Hrun & Hlog & Hlen & Hframe & Hchunks).
      exists rs', (new :: chunks). split; [done|]. simpl.
      split; [by rewrite Hlog, Hlog1, app_assoc|]. split; [lia|]. split.
      * intros id Hn. rewrite Hframe, Hframe1; [done|set_solver..].
      * intros [|i] lvl chunk Hl Hc; simpl in *.
        -- injection Hl as <-. injection Hc as <-. split; [done|].
           intros id r Hid Hr Hs.
           rewrite Hframe in Hr by (intros Hx; by apply (Hdis id)).
           destruct (Hhere id r Hid Hr Hs) as [Hm He].
           rewrite Hlog. split; apply elem_of_app; by left.
        -- by apply (Hchunks i).
Qed.

(** *** Which nodes of a level are skipped *)

Lemma should_skip_iff graph id (results : gmap string NodeResult) :
  Runner._should_skip id graph results = true ↔
  ∃ p r, p ∈ Graph.predecessors graph id ∧ results !! p = Some r ∧
         status r = FAILURE.
Proof.
  unfold Runner._should_skip. rewrite existsb_exists. split.
  - intros (p & Hp & Hr). apply list_elem_of_In, elem_of_elements in Hp.
    destruct (results !! p) as [r|] eqn:E; [|done].
    apply bool_decide_eq_true in Hr. by exists p, r.
  - intros (p & r & Hp & Hr & Hs). exists p. split.
    + by apply list_elem_of_In, elem_of_elements.
    + rewrite Hr. by apply bool_decide_eq_true.
Qed.

Lemma should_skip_ext graph id (results1 results2 : gmap string NodeResult) :
  (∀ p, p ∈ Graph.predecessors graph id → results1 !! p = results2 !! p) →
  Runner._should_skip id graph results1 = Runner._should_skip id graph results2.
Proof.
  intros Hext. apply eq_true_iff_eq. rewrite !should_skip_iff.
  split; intros (p & r & Hp & Hr & Hs); exists p, r.
  - by rewrite <- Hext.
  - by rewrite Hext.
Qed.

Lemma schedule_level_filter_aux graph level_idx (whole : list string) rs0 level :
  ∀ tasks rs,
  NoDup level → (∀ id, id ∈ level → id ∈ whole) →
  (∀ id p, id ∈ level → p ∈ Graph.predecessors graph id → p ∉ whole) →
  (∀ p, p ∉ whole →
     Runner.report_results rs !! p = Runner.report_results rs0 !! p) →
  ∃ rs',
    Runner.schedule_level graph level_idx level tasks rs =
      (tasks ++ ((λ id, Runner._run_node id graph level_idx) <$>
                 filter (λ id, Runner._should_skip id graph
                                 (Runner.report_results rs0) = false) level),
       rs') ∧
    Runner.nodes_state rs' = Runner.nodes_state rs ∧
    (∀ id, id ∉ level →
       Runner.report_results rs' !! id = Runner.report_results rs !! id) ∧
    (∀ id, id ∈ level →
       Runner.report_results rs' !! id =
         if Runner._should_skip id graph (Runner.report_results rs0)
         then Some (Runner.skipped_upstream level_idx)
         else Runner.report_results rs !! id).
Proof.
  induction level as [|id level IH]; intros tasks rs Hnd Hsub Hpreds Hagree.
  - exists rs. simpl. rewrite app_nil_r. repeat split; try done; set_solver.
  - apply NoDup_cons in Hnd as [Hid Hnd]. cbn [Runner.schedule_level].
    assert (Hskip : Runner._should_skip id graph (Runner.report_results rs) =
                    Runner._should_skip id graph (Runner.report_results rs0)).
    { apply should_skip_ext. intros p Hp. apply Hagree.
      apply (Hpreds id p); [set_solver|done]. }
    rewrite Hskip, filter_cons.
    destruct (Runner._should_skip id graph (Runner.report_results rs0)) eqn:Es.
    + rewrite decide_False by done.
      destruct (IH tasks
                  (Runner.record id (Runner.skipped_upstream level_idx) rs)
                  Hnd) as (rs' & Hrun & Hst & Hout & Hin).
      { intros id' Hin. apply Hsub. set_solver. }
      { intros id' p Hin Hp. apply (Hpreds id' p); [set_solver|done]. }
      { intros p Hp. unfold Runner.record. simpl.
        rewrite lookup_insert_ne; [by apply Hagree|].
        intros ->. apply Hp, Hsub. set_solver. }
      exists rs'. split; [exact Hrun|]. split; [done|]. split.
      * intros id' Hn. rewrite Hout by set_solver.
        unfold Runner.record. simpl. rewrite lookup_insert_ne; [done|set_solver].
      * intros id' Hid'. apply elem_of_cons in Hid' as [->|Hid'].
        -- rewrite Es, Hout by done. unfold Runner.record. simpl.
           by rewrite lookup_insert_eq.
        -- rewrite Hin by done.
           destruct (Runner._should_skip id' graph (Runner.report_results rs0));
             [done|].
           unfold Runner.record. simpl. rewrite lookup_insert_ne; [done|].
           intros ->. done.
    + rewrite decide_True by done.
      destruct (IH (tasks ++ [Runner._run_node id graph level_idx]) rs Hnd)
        as (rs' & Hrun & Hst & Hout & Hin).
      { intros id' Hin. apply Hsub. set_solver. }
      { intros id' p Hin Hp. apply (Hpreds id' p); [set_solver|done]. }
      { done. }
      exists rs'. split.
      { rewrite Hrun, fmap_cons, <- app_assoc. done. }
      split; [done|]. split.
      * intros id' Hn. apply Hout. set_solver.
      * intros id' Hid'. apply elem_of_cons in Hid' as [->|Hid'].
        -- rewrite Es. by apply Hout.
        -- by apply Hin.
Qed.

(** A level none of whose nodes has a predecessor in the level: the nodes
    with a predecessor recorded as FAILURE are recorded as skipped, the
    others are executed and end with their result recorded. *)
Lemma run_level_skips_own graph sched level_idx level rs
    (P : string → exn NodeResult → Prop) :
  NoDup level →
  (∀ id p, id ∈ level → p ∈ Graph.predecessors graph id → p ∉ level) →
  (∀ id, id ∈ level →
     Runner._should_skip id graph (Runner.report_results rs) = false →
     ∃ node, Graph.get_node graph id = Ok node ∧
             obeys (λ _ _, True) (λ _ outcome, P id outcome) (run [Top id] node)) →
  ∃ rs' new,
    Runner.run_level graph sched level_idx level rs = (rs', Ok ()) ∧
    log (Runner.nodes_state rs') = log (Runner.nodes_state rs) ++ new ∧
    Forall (Runner.level_event
              (filter (λ id, Runner._should_skip id graph
                               (Runner.report_results rs) = false) level)) new ∧
    (∀ id, id ∉ level →
       Runner.report_results rs' !! id = Runner.report_results rs !! id) ∧
    (∀ id, id ∈ level →
       if Runner._should_skip id graph (Runner.report_results rs)
       then Runner.report_results rs' !! id =
              Some (Runner.skipped_upstream level_idx)
       else Runner.ended
              (λ id r, Runner.executed_result (P id) level_idx r ∧
                       Runner.own_result graph id level_idx r) id rs').
Proof.
  intros Hnd Hpreds Hnodes. unfold Runner.run_level.
  destruct (schedule_level_filter_aux graph level_idx level rs level [] rs
              Hnd (λ _ H, H) Hpreds (λ _ _, eq_refl))
    as (rs1 & Hsched & Hst & Hout & Hin).
  rewrite Hsched. simpl.
  set (run_ids := filter (λ id, Runner._should_skip id graph
                                  (Runner.report_results rs) = false) level) in *.
  assert (Hrun_ids : ∀ id, id ∈ run_ids ↔
            id ∈ level ∧
            Runner._should_skip id graph (Runner.report_results rs) = false).
  { intros id. unfold run_ids. rewrite list_elem_of_filter. tauto. }
  destruct (gather_spec (λ id r, Runner.executed_result (P id) level_idx r ∧
                       Runner.own_result graph id level_idx r)
              sched run_ids
              ((λ id, Runner._run_node id graph level_idx) <$> run_ids) rs1)
    as (rs' & Hrun & [Hframe (new & Hlog & Hnew)] & Hend).
  { by apply NoDup_filter. }
  { apply Forall2_fmap_r, Forall_Forall2_diag, Forall_forall.
    intros id Hid. apply Hrun_ids in Hid as [Hid Hs].
    destruct (Hnodes id Hid Hs) as (node & Hnode & Hobeys).
    destruct (run_node_obeys_own graph id node level_idx (P id) Hnode Hobeys)
      as [Hob Hentry].
    split; [done | by left]. }
  assert (Hres : ∃ rs2,
    match (λ id, Runner._run_node id graph level_idx) <$> run_ids with
    | [] => (rs1, Ok ())
    | _ :: _ =>
        Runner.gather sched
          ((λ id, Runner._run_node id graph level_idx) <$> run_ids) rs1
    end = (rs2, Ok ()) ∧
    log (Runner.nodes_state rs2) = log (Runner.nodes_state rs1) ++
      (if run_ids is [] then [] else new) ∧
    (∀ id, id ∉ run_ids →
       Runner.report_results rs2 !! id = Runner.report_results rs1 !! id) ∧
    (∀ id, id ∈ run_ids →
       Runner.ended (λ id r, Runner.executed_result (P id) level_idx r ∧
                       Runner.own_result graph id level_idx r) id rs2)).
  { destruct run_ids as [|id0 run_ids'].
    - exists rs1. simpl. rewrite app_nil_r. repeat split; try done; set_solver.
    - exists rs'. done. }
  destruct Hres as (rs2 & Heq & Hlog2 & Hframe2 & Hend2).
  exists rs2, (if run_ids is [] then [] else new).
  split; [exact Heq|]. split; [by rewrite Hlog2, Hst|]. split; [|split].
  - destruct run_ids; [constructor|done].
  - intros id Hn. rewrite Hframe2, Hout; [done..|].
    intros Hid. apply Hrun_ids in Hid. tauto.
  - intros id Hid.
    destruct (Runner._should_skip id graph (Runner.report_results rs)) eqn:Es.
    + rewrite Hframe2, Hin, Es; [done..|].
      intros Hr. apply Hrun_ids in Hr. destruct Hr. congruence.
    + apply Hend2, Hrun_ids. done.
Qed.

Lemma run_level_skips graph sched level_idx level rs
    (P : string → exn NodeResult → Prop) :
  NoDup level →
  (∀ id p, id ∈ level → p ∈ Graph.predecessors graph id → p ∉ level) →
  (∀ id, id ∈ level →
     Runner._should_skip id graph (Runner.report_results rs) = false →
     ∃ node, Graph.get_node graph id = Ok node ∧
             obeys (λ _ _, True) (λ _ outcome, P id outcome) (run [Top id] node)) →
  ∃ rs' new,
    Runner.run_level graph sched level_idx level rs = (rs', Ok ()) ∧
    log (Runner.nodes_state rs') = log (Runner.nodes_state rs) ++ new ∧
    Forall (Runner.level_event
              (filter (λ id, Runner._should_skip id graph
                               (Runner.report_results rs) = false) level)) new ∧
    (∀ id, id ∉ level →
       Runner.report_results rs' !! id = Runner.report_results rs !! id) ∧
    (∀ id, id ∈ level →
       if Runner._should_skip id graph (Runner.report_results rs)
       then Runner.report_results rs' !! id =
              Some (Runner.skipped_upstream level_idx)
       else Runner.ended
              (λ id r, Runner.executed_result (P id) level_idx r) id rs').
Proof.
  intros Hnd Hpreds Hnodes.
  destruct (run_level_skips_own graph sched level_idx level rs P
              Hnd Hpreds Hnodes) as (rs' & new & Hrun & Hlog & Hnew & Hout & Hin).
  exists rs', new. repeat split; try done.
  intros id Hid. specialize (Hin id Hid).
  destruct (Runner._should_skip id graph (Runner.report_results rs)); [done|].
  eapply ended_mono; [|exact Hin]. naive_solver.
Qed.

Lemma success_false (results : gmap string NodeResult) d id r :
  results !! id = Some r → status r = FAILURE →
  Runner.success (Runner.mkReport results d) = false.
Proof.
  intros Hr Hs. unfold Runner.success. simpl.
  apply not_true_iff_false. intros Hall.
  rewrite forallb_forall in Hall.
  specialize (Hall (id, r)). simpl in Hall.
  rewrite bool_decide_eq_true in Hall.
  destruct Hall as [E|E].
  - by apply list_elem_of_In, elem_of_map_to_list.
  - congruence.
  - congruence.
Qed.

Lemma executed_result_status P level_idx r :
  Runner.executed_result P level_idx r →
  ∃ outcome, P outcome ∧ status r = status (absorb outcome) ∧
             outputs r = outputs (absorb outcome) ∧
             error r = error (absorb outcome) ∧
             is_Some (metadata r !! "duration_ms") ∧
             is_Some (metadata r !! "level").
Proof.
  intros (outcome & elapsed & HP & ->). exists outcome. split; [done|].
  destruct (metadata_setdefault_fields "duration_ms" elapsed (absorb outcome))
    as (E1 & E2 & E3 & E4 & E5).
  destruct (metadata_setdefault_fields "level" (VInt level_idx)
              (metadata_setdefault "duration_ms" elapsed (absorb outcome)))
    as (F1 & F2 & F3 & F4 & F5).
  rewrite F1, F2, F3, E1, E2, E3, F4, F5, E4 by done.
  repeat split; eauto.
Qed.

(** An entry of the task of [id] that names [id'] belongs to [id']. *)
Lemma task_event_owner id id' e :
  Runner.task_event id e → e = Merged id' ∨ e = Executed [Top id'] →
  id = id'.
Proof.
  intros [[more ->] | ->] [E|E]; by simplify_eq/=.
Qed.

Lemma should_skip_none graph id (results : gmap string NodeResult) :
  Graph.predecessors graph id = ∅ → Runner._should_skip id graph results = false.
Proof.
  intros Hp. apply not_true_iff_false. rewrite should_skip_iff.
  intros (p & r & Hin & _). rewrite Hp in Hin. set_solver.
Qed.

Lemma should_skip_single graph id p (results : gmap string NodeResult) :
  Graph.predecessors graph id = {[p]} →
  Runner._should_skip id graph results =
    match results !! p with
    | Some r => bool_decide (status r = FAILURE)
    | None => false
    end.
Proof.
  intros Hp. apply eq_true_iff_eq. rewrite should_skip_iff, Hp. split.
  - intros (q & r & Hq & Hr & Hs). apply elem_of_singleton in Hq as ->.
    rewrite Hr. by apply bool_decide_eq_true.
  - destruct (results !! p) as [r|] eqn:E; [|done].
    intros Hs. apply bool_decide_eq_true in Hs.
    exists p, r. split; [set_solver|done].
Qed.

Lemma level_failed_true level (results : gmap string NodeResult) id r :
  id ∈ level → results !! id = Some r → status r = FAILURE →
  Runner.level_failed level results = true.
Proof.
  intros Hin Hr Hs. unfold Runner.level_failed. apply existsb_exists.
  exists id. split; [by apply list_elem_of_In|].
  rewrite Hr. simpl. by apply bool_decide_eq_true.
Qed.

Lemma level_event_nil new : Forall (Runner.level_event []) new → new = [].
Proof.
  destruct new as [|e new]; [done|]. intros Hall.
  apply Forall_cons in Hall as [(id & Hid & _) _]. set_solver.
Qed.

Lemma level_event_not_below ids id e :
  Runner.level_event ids e → id ∉ ids → ¬ below [Top id] e.
Proof.
  intros (id' & Hid' & Hev) Hn [more ->].
  assert (id' = id) as ->; [|done].
  destruct Hev as [[more' E]|E]; by simplify_eq/=.
Qed.

Lemma level_event_mono ids ids' e :
  (∀ id, id ∈ ids → id ∈ ids') →
  Runner.level_event ids e → Runner.level_event ids' e.
Proof. intros Hsub (id & Hid & He). exists id. split; [by apply Hsub | done]. Qed.

Lemma levels_registered (graph : Graph.t (Node:=Node W)) lv :
  Graph.wf graph → Graph.levels graph = Ok lv →
  NoDup (concat lv) ∧
  (∀ id, id ∈ concat lv ↔ id ∈ Graph.node_ids graph) ∧
  Graph.acyclic graph.
Proof.
  intros Hwf Hlv.
  destruct (GraphProofs.levels_outcome graph Hwf)
    as [(lv' & Hok & Hperm & Hinv)|(n & Hr & _)]; [|congruence].
  assert (lv' = lv) as -> by congruence.
  split; [rewrite Hperm; apply (Graph.wf_nodup graph Hwf)|]. split.
  - intros id. by rewrite Hperm.
  - by eapply GraphProofs.levels_ok_acyclic.
Qed.

(** The predecessors of a node sit in strictly earlier groups. *)
Lemma levels_preds_before (graph : Graph.t (Node:=Node W)) lv :
  Graph.wf graph → Graph.levels graph = Ok lv →
  ∀ i level id p, lv !! i = Some level → id ∈ level →
    p ∈ Graph.predecessors graph id → p ∉ concat (drop i lv).
Proof.
  intros Hwf Hlv i level id p Hl Hid Hp Hin.
  destruct (GraphProofs.levels_outcome graph Hwf)
    as [(lv' & Hok & Hperm & Hinv)|(n & Hr & _)]; [|congruence].
  assert (lv' = lv) as -> by congruence.
  assert (Hnd : NoDup (concat lv))
    by (rewrite Hperm; apply (Graph.wf_nodup graph Hwf)).
  destruct (Hinv i level id Hl Hid) as [Hall _].
  destruct (Hall p Hp) as (j & level' & Hj & Hl' & Hpl).
  apply GraphProofs.elem_of_concat in Hin as (l & Hpl2 & Hl2).
  apply list_elem_of_lookup in Hl2 as [k Hk]. rewrite lookup_drop in Hk.
  pose proof (GraphProofs.group_index_lookup lv p j level' Hnd Hl' Hpl) as E1.
  pose proof (GraphProofs.group_index_lookup lv p (i + k) l Hnd Hk Hpl2) as E2.
  assert (j = (i + k)%nat) by congruence. lia.
Qed.

(** Without fail-fast and outside a dry run every level is processed, and
    whether a node is skipped can be read off the final results: those of
    its predecessors were final when its level started. *)
Lemma run_levels_skips graph sched levels : ∀ level_idx rs,
  NoDup (concat levels) →
  (∀ id, id ∈ concat levels → ∃ node, Graph.get_node graph id = Ok node) →
  (∀ i level id p, levels !! i = Some level → id ∈ level →
     p ∈ Graph.predecessors graph id → p ∉ concat (drop i levels)) →
  ∃ rs' new,
    Runner.run_levels (Runner.mk false false) graph sched level_idx levels rs
      = (rs', Ok ()) ∧
    log (Runner.nodes_state rs') = log (Runner.nodes_state rs) ++ new ∧
    Forall (Runner.level_event
              (filter (λ id, Runner._should_skip id graph
                               (Runner.report_results rs') = false)
                      (concat levels))) new ∧
    (∀ id, id ∉ concat levels →
       Runner.report_results rs' !! id = Runner.report_results rs !! id) ∧
    (∀ i level id, levels !! i = Some level → id ∈ level →
       if Runner._should_skip id graph (Runner.report_results rs')
       then Runner.report_results rs' !! id =
              Some (Runner.skipped_upstream (level_idx + Z.of_nat i))
       else ∃ r, Runner.report_results rs' !! id = Some r ∧
                 Runner.own_result graph id (level_idx + Z.of_nat i) r ∧
                 Executed [Top id] ∈ log (Runner.nodes_state rs')).
Proof.
  induction levels as [|level levels IH]; intros level_idx rs Hnd Hget Hbefore.
  { exists rs, []. simpl. rewrite app_nil_r. repeat split; try done. }
  simpl in Hnd. apply NoDup_app in Hnd as (Hnd1 & Hdis & Hnd2).
  assert (Hget2 : ∀ id, id ∈ concat levels →
            ∃ node, Graph.get_node graph id = Ok node).
  { intros id Hid. apply Hget. simpl. apply elem_of_app. by right. }
  assert (Hpred0 : ∀ id p, id ∈ level → p ∈ Graph.predecessors graph id →
            (p ∉ level) ∧ (p ∉ concat levels)).
  { intros id p Hid Hp. specialize (Hbefore 0%nat level id p eq_refl Hid Hp).
    simpl in Hbefore. by rewrite not_elem_of_app in Hbefore. }
  destruct (run_level_skips_own graph (sched level_idx) level_idx level rs
              (λ _ _, True) Hnd1)
    as (rs1 & new1 & Hrun1 & Hlog1 & Hnew1 & Hframe1 & Hids1).
  { intros id p Hid Hp. by apply (Hpred0 id p). }
  { intros id Hid _. destruct (Hget id) as [node Hnode].
    - simpl. apply elem_of_app. by left.
    - exists node. split; [done | apply obeys_True]. }
  destruct (IH (level_idx + 1) rs1 Hnd2 Hget2)
    as (rs' & new' & Hrun & Hlog & Hnew' & Hframe & Hres).
  { intros i lvl id p Hl Hid Hp. by apply (Hbefore (S i) lvl id p). }
  (* the decisions of this level, read off the final results *)
  assert (Hsame : ∀ id, id ∈ level →
            Runner._should_skip id graph (Runner.report_results rs') =
            Runner._should_skip id graph (Runner.report_results rs)).
  { intros id Hid. apply should_skip_ext. intros p Hp.
    destruct (Hpred0 id p Hid Hp) as [Hp1 Hp2].
    by rewrite Hframe, Hframe1. }
  exists rs', (new1 ++ new'). split; [|split; [|split; [|split]]].
  - cbn [Runner.run_levels Runner.dry_run Runner.fail_fast andb].
    by rewrite Hrun1.
  - by rewrite Hlog, Hlog1, app_assoc.
  - simpl. rewrite filter_app. apply Forall_app. split.
    + eapply Forall_impl; [exact Hnew1|]. intros e.
      apply level_event_mono. intros id Hid.
      apply list_elem_of_filter in Hid as [Hskip Hid].
      apply elem_of_app. left. apply list_elem_of_filter.
      split; [by rewrite Hsame | done].
    + eapply Forall_impl; [exact Hnew'|]. intros e.
      apply level_event_mono. intros id Hid. apply elem_of_app. by right.
  - intros id Hn. simpl in Hn. rewrite not_elem_of_app in Hn.
    destruct Hn as [Hn1 Hn2]. by rewrite Hframe, Hframe1.
  - intros [|i] lvl id Hl Hid; simpl in Hl.
    + injection Hl as <-. rewrite Z.add_0_r, (Hsame id Hid).
      rewrite Hframe by (intros Hx; by apply (Hdis id)).
      pose proof (Hids1 id Hid) as Hhere.
      destruct (Runner._should_skip id graph (Runner.report_results rs));
        [done|].
      destruct Hhere as [(r & Hr & [_ Hex] & _) He].
      exists r. split; [done|]. split; [done|].
      rewrite Hlog. apply elem_of_app. by left.
    + replace (level_idx + Z.of_nat (S i)) with (level_idx + 1 + Z.of_nat i)
        by lia.
      exact (Hres i lvl id Hl Hid).
Qed.

(** *** What the context holds at the end of a level *)

Lemma get_node_Ok graph id node :
  Graph.get_node graph id = Ok node → id ∈ Graph.node_ids graph.
Proof.
  unfold Graph.get_node, Graph.node_ids.
  induction (Graph._nodes graph) as [|[k' n] d IH]; simpl; [done|].
  destruct (decide (id = k')) as [->|Hne]; [intros _; by left|].
  intros Hget. right. by apply IH.
Qed.

Lemma keeps_trans key (st1 st2 st3 : State W) :
  Runner.keeps key st1 st2 → Runner.keeps key st2 st3 →
  Runner.keeps key st1 st3.
Proof. unfold Runner.keeps. congruence. Qed.

Lemma obeys_execute_keeps key path body :
  obeys (Runner.keeps key) (λ _ _, True) body →
  obeys (Runner.keeps key) (λ _ _, True) (execute_body path body).
Proof.
  intros Hbody. unfold execute_body.
  apply (obeys_enter (Runner.keeps key) _
           (λ st, bind body (λ outcome, atomic (λ st',
              (st', Return (metadata_setdefault "duration_ms"
                 (elapsed_ms (monotonic (world st)) (monotonic (world st')))
                 (absorb outcome))))))
           (log_event (Executed path))).
  - apply keeps_trans.
  - done.
  - intros st. apply (obeys_bind _ (λ _, True)).
    + apply keeps_trans.
    + exact Hbody.
    + intros outcome _. by apply obeys_atomic.
Qed.

(** Whatever order the tasks are resumed in, a relation that every
    segment of every task respects holds between the states before and
    after [gather]. *)
Lemma gather_rest_preserves (R : Runner.RunState (W:=W) → Runner.RunState → Prop) :
  (∀ rs, R rs rs) → (∀ rs1 rs2 rs3, R rs1 rs2 → R rs2 rs3 → R rs1 rs3) →
  ∀ tasks rs,
  Forall (obeys R (λ _ _, True)) tasks →
  R rs (Runner.gather_rest tasks rs).1.
Proof.
  intros Hrefl Htrans. induction tasks as [|c tasks IH]; intros rs Hall.
  - apply Hrefl.
  - apply Forall_cons in Hall as [Hc Hall]. simpl.
    destruct (obeys_finish _ _ _ Htrans Hc rs) as [Hstep _].
    destruct (finish c rs) as [rs1 [[]| |]]; simpl in *; [|done..].
    eapply Htrans; [exact Hstep | by apply IH].
Qed.

Lemma gather_preserves (R : Runner.RunState (W:=W) → Runner.RunState → Prop) :
  (∀ rs, R rs rs) → (∀ rs1 rs2 rs3, R rs1 rs2 → R rs2 rs3 → R rs1 rs3) →
  ∀ sched tasks rs,
  Forall (obeys R (λ _ _, True)) tasks →
  R rs (Runner.gather sched tasks rs).1.
Proof.
  intros Hrefl Htrans.
  induction sched as [|i sched IH]; intros tasks rs Hall.
  { cbn [Runner.gather]. by apply gather_rest_preserves. }
  cbn [Runner.gather].
  destruct (tasks !! i) as [c|] eqn:Ei; [|by apply IH].
  pose proof (proj1 (Forall_lookup _ _) Hall i c Ei) as Hc.
  destruct c as [kc]. simpl in Hc. destruct (Hc rs) as [Hstep Hrest].
  simpl. destruct (kc rs) as [rs1 [a|c']]; simpl in *.
  - destruct a as [[]| |]; simpl; [|done..].
    eapply Htrans; [exact Hstep|]. apply IH. by apply Forall_delete.
  - eapply Htrans; [exact Hstep|]. apply IH. by apply Forall_insert.
Qed.

Section publishing.
Context (graph : Graph.t (Node:=Node W)) (p k : string).
Context (Hruns : ∀ id node, Graph.get_node graph id = Ok node →
           obeys (Runner.keeps (Context.qualified p k)) (λ _ _, True)
                 (run [Top id] node)).
Context (Hapart : ∀ id k', id ∈ Graph.node_ids graph → id ≠ p →
           Context.qualified id k' ≠ Context.qualified p k).

Let step (rs rs' : Runner.RunState (W:=W)) : Prop :=
  Runner.published p k rs → Runner.published p k rs'.

Lemma step_refl rs : step rs rs.
Proof. by intros ?. Qed.

Lemma step_trans rs1 rs2 rs3 : step rs1 rs2 → step rs2 rs3 → step rs1 rs3.
Proof. unfold step. eauto. Qed.

Lemma record_published id r rs :
  id ≠ p ∨ status r ≠ SUCCESS → step rs (Runner.record id r rs).
Proof.
  intros Hcase Hpub r' v Hr' Hs Hk. unfold Runner.record in *. simpl in *.
  destruct (decide (id = p)) as [->|Hne].
  - rewrite lookup_insert_eq in Hr'. injection Hr' as <-.
    destruct Hcase; congruence.
  - rewrite lookup_insert_ne in Hr' by done. by eapply Hpub.
Qed.

Lemma run_node_publishes id level_idx :
  obeys step (λ _ _, True) (Runner._run_node id graph level_idx).
Proof.
  unfold Runner._run_node.
  destruct (Graph.get_node graph id) as [node| |] eqn:Hget;
    [|apply obeys_ret; [apply step_refl | done]..].
  apply (obeys_bind _ (λ _, True)).
  - apply step_trans.
  - eapply obeys_lift; [| |apply obeys_execute_keeps, (Hruns id node Hget)].
    + intros rs st' Hkeep Hpub r v Hr Hs Hk. simpl in *.
      rewrite Hkeep. by eapply Hpub.
    + done.
  - intros [result|msg] _; [|apply obeys_ret; [apply step_refl | done]].
    apply obeys_atomic. intros rs. cbn zeta. split; [|done].
    set (result' := metadata_setdefault "level" (VInt level_idx) result).
    intros Hpub r v Hr Hs Hk. unfold Runner.record in *.
    destruct (decide (id = p)) as [->|Hne].
    + simpl in Hr. rewrite lookup_insert_eq in Hr. injection Hr as <-.
      rewrite bool_decide_true by done. simpl.
      by apply ContextProofs.merge_written.
    + simpl in Hr. rewrite lookup_insert_ne in Hr by done.
      case_bool_decide; simpl.
      * rewrite ContextProofs.merge_other; [by eapply Hpub|].
        intros k' _. apply Hapart; [by eapply get_node_Ok | done].
      * by eapply Hpub.
Qed.

Lemma schedule_level_publishes level_idx level : ∀ tasks rs,
  Forall (obeys step (λ _ _, True)) tasks →
  Forall (obeys step (λ _ _, True))
         (Runner.schedule_level graph level_idx level tasks rs).1 ∧
  step rs (Runner.schedule_level graph level_idx level tasks rs).2.
Proof.
  induction level as [|id level IH]; intros tasks rs Hall; simpl.
  - split; [done | apply step_refl].
  - destruct (Runner._should_skip id graph (Runner.report_results rs)).
    + destruct (IH tasks
                  (Runner.record id
                     {| status := SKIPPED; outputs := ∅;
                        error := Some "upstream dependency failed";
                        metadata := {["level" := VInt level_idx]} |} rs) Hall)
        as [Ht Hs].
      split; [done|]. intros Hpub. apply Hs.
      apply record_published; [by right | done].
    + apply IH. apply Forall_app. split; [done|].
      apply Forall_singleton, run_node_publishes.
Qed.

Lemma dry_run_level_publishes level_idx level : ∀ rs,
  step rs (Runner.dry_run_level level_idx level rs).
Proof.
  unfold Runner.dry_run_level.
  induction level as [|id level IH] using rev_ind; intros rs Hpub; [done|].
  rewrite foldl_app. simpl.
  apply record_published; [by right | by apply IH].
Qed.

Lemma run_level_publishes sched level_idx level rs :
  step rs (Runner.run_level graph sched level_idx level rs).1.
Proof.
  unfold Runner.run_level.
  destruct (schedule_level_publishes level_idx level [] rs) as [Ht Hs];
    [done|].
  destruct (Runner.schedule_level graph level_idx level [] rs)
    as [tasks rs1]. simpl in *.
  intros Hpub. specialize (Hs Hpub).
  destruct tasks as [|c tasks]; [done|].
  revert Hs.
  apply (gather_preserves step); [apply step_refl | apply step_trans | done].
Qed.

Lemma run_levels_publishes self sched levels : ∀ level_idx rs,
  step rs (Runner.run_levels self graph sched level_idx levels rs).1.
Proof.
  induction levels as [|level levels IH]; intros level_idx rs;
    [apply step_refl|].
  cbn [Runner.run_levels]. destruct (Runner.dry_run self).
  - intros Hpub. apply IH. by apply dry_run_level_publishes.
  - pose proof (run_level_publishes (sched level_idx) level_idx level rs)
      as Hlevel.
    destruct (Runner.run_level graph (sched level_idx) level_idx level rs)
      as [rs1 [[]| |]]; simpl in *; [|done..].
    destruct (Runner.fail_fast self &&
              Runner.level_failed level (Runner.report_results rs1)); [done|].
    intros Hpub. by apply IH, Hlevel.
Qed.

End publishing.

(** The loop over the levels, cut after any number of turns: the rest of
    the levels is processed from the state reached by then, unless the
    run has ended before. *)
Lemma run_levels_app self graph sched levels1 levels2 : ∀ level_idx rs,
  Runner.run_levels self graph sched level_idx (levels1 ++ levels2) rs =
    Runner.run_levels self graph sched
      (level_idx + Z.of_nat (length levels1)) levels2
      (Runner.run_levels self graph sched level_idx levels1 rs).1 ∨
  Runner.run_levels self graph sched level_idx (levels1 ++ levels2) rs =
    Runner.run_levels self graph sched level_idx levels1 rs.
Proof.
  induction levels1 as [|level levels1 IH]; intros level_idx rs.
  - left. simpl. by rewrite Z.add_0_r.
  - cbn [app Runner.run_levels length]. destruct (Runner.dry_run self).
    + replace (level_idx + Z.of_nat (S (length levels1)))
        with (level_idx + 1 + Z.of_nat (length levels1)) by lia.
      apply IH.
    + destruct (Runner.run_level graph (sched level_idx) level_idx level rs)
        as [rs1 [[]| |]]; [|by right..].
      destruct (Runner.fail_fast self &&
                Runner.level_failed level (Runner.report_results rs1));
        [by right|].
      replace (level_idx + Z.of_nat (S (length levels1)))
        with (level_idx + 1 + Z.of_nat (length levels1)) by lia.
      apply IH.
Qed.

(** What a gate that was executed is recorded with. *)
Lemma own_result_gate graph id gid predicate reason level_idx r :
  Graph.get_node graph id = Ok (GateNode gid predicate reason) →
  Runner.own_result graph id level_idx r →
  (status r = SUCCESS ∧ outputs r = {["gate_open" := VBool true]} ∧
   error r = None) ∨
  (status r = SKIPPED ∧ outputs r = {["gate_open" := VBool false]} ∧
   error r = Some reason).
Proof.
  intros Hget (node & st & st' & result & Hnode & Hrun & ->).
  assert (node = GateNode gid predicate reason) as -> by congruence.
  apply completes_execute_body in Hrun as (outcome & Hrun & [= ->]).
  cbn [run] in Hrun. unfold gate_run in Hrun.
  apply completes_atomic in Hrun.
  destruct (metadata_setdefault_fields "level" (VInt level_idx)
              (metadata_setdefault "duration_ms"
                 (elapsed_ms (monotonic (world st)) (monotonic (world st')))
                 (absorb outcome))) as (-> & -> & -> & _).
  destruct (metadata_setdefault_fields "duration_ms"
              (elapsed_ms (monotonic (world st)) (monotonic (world st')))
              (absorb outcome)) as (-> & -> & -> & _).
  destruct (predicate _); injection Hrun as _ <-; simpl; [by left | by right].
Qed.

(** Skipping in any graph, without fail-fast and outside a dry run, read
    off the report: the nodes for which [_should_skip] holds on the final
    results are recorded as skipped and never executed, the others are
    executed and their own result is recorded. *)
Lemma run_skip_semantics graph sched ctx w lv :
  Graph.wf graph → Graph.levels graph = Ok lv →
  ∃ rs',
    Runner.run (Runner.mk false false) graph sched ctx w =
      (Runner.nodes_state rs',
       Ok (Runner.mkReport (Runner.report_results rs')
             (Some (elapsed_ms (monotonic w)
                      (monotonic (world (Runner.nodes_state rs'))))))) ∧
    ∀ id, id ∈ Graph.node_ids graph →
      ∃ i, Graph.group_index lv id = Some i ∧
        if Runner._should_skip id graph (Runner.report_results rs')
        then Runner.report_results rs' !! id =
               Some (Runner.skipped_upstream (Z.of_nat i)) ∧
             ∀ e, e ∈ log (Runner.nodes_state rs') → ¬ below [Top id] e
        else ∃ r, Runner.report_results rs' !! id = Some r ∧
                  Runner.own_result graph id (Z.of_nat i) r ∧
                  Executed [Top id] ∈ log (Runner.nodes_state rs').
Proof.
  intros Hwf Hlv.
  destruct (levels_registered graph lv Hwf Hlv) as (Hnd & Hreg & _).
  destruct (run_levels_skips graph sched lv 0
              (Runner.mkRunState (mkState ctx w []) ∅) Hnd)
    as (rs' & new & Hrun & Hlog & Hnew & _ & Hres).
  { intros id Hid. apply get_node_registered. by apply Hreg. }
  { by apply levels_preds_before. }
  exists rs'. split.
  { unfold Runner.run. rewrite Hlv. cbn zeta. by rewrite Hrun. }
  intros id Hid. apply Hreg in Hid.
  destruct (GraphProofs.group_index_is_Some lv id Hid) as [i Hi].
  destruct (GraphProofs.group_index_Some lv id i Hi) as (level & Hl & Hin).
  specialize (Hres i level id Hl Hin). rewrite Z.add_0_l in Hres.
  exists i. split; [done|].
  destruct (Runner._should_skip id graph (Runner.report_results rs'))
    eqn:Hskip; [|done].
  split; [done|].
  intros e He. simpl in Hlog. rewrite Hlog in He.
  rewrite Forall_forall in Hnew.
  eapply level_event_not_below; [by apply Hnew|].
  intros Hf. apply list_elem_of_filter in Hf as [Hf _]. congruence.
Qed.

End runner_facts.
End RunnerProofs.

Module RunnerClaims.
Import Scenario RunnerProofs.

Lemma with_nodes_wf {W} (nodes : list (Node W)) : Graph.wf (with_nodes nodes).
Proof.
  unfold with_nodes. generalize (GraphProofs.empty_wf (Node:=Node W)).
  generalize (Graph.empty (Node:=Node W)).
  induction nodes as [|n nodes IH]; intros g Hg; simpl; [done|].
  apply IH. by apply GraphProofs.add_node_wf.
Qed.

Lemma siblings_wf : Graph.wf siblings.
Proof. apply with_nodes_wf. Qed.

Lemma siblings_levels : Graph.levels siblings = Ok [["a"; "b"]].
Proof. vm_compute. reflexivity. Qed.

(** C3, as stated, fails. In [siblings], a and b are in the same level.
    The event loop starts the tasks in the order of the level: a runs
    first, and since it never suspends its outputs are merged at once,
    before b has started; b then finds a.x in the context. The merge of a
    was not held back until the executions of the level had completed.
    In [overwritten], a succeeds with the output b.c = 1, yet its
    successor s does not find that value in the context: the merge of the
    sibling a.b has written the same key a.b.c since. *)
Lemma merge_before_level_end_counterexample :
  (Graph.levels siblings = Ok [["a"; "b"]] ∧
   ∃ st' report rb,
     Runner.run Runner.defaults siblings (λ _, [0; 0; 0]%nat)
                (Context.new None) () = (st', Ok report) ∧
     log st' = [Executed [Top "a"]; Merged "a";
                Executed [Top "b"]; Merged "b"] ∧
     Runner.results report !! "b" = Some rb ∧
     outputs rb = {["seen" := VInt 1]}) ∧
  (Graph.levels overwritten = Ok [["a"; "a.b"]; ["s"]] ∧
   ∃ st' report ra rs_,
     Runner.run Runner.defaults overwritten (λ _, [])
                (Context.new None) () = (st', Ok report) ∧
     log st' = [Executed [Top "a"]; Merged "a";
                Executed [Top "a.b"]; Merged "a.b";
                Executed [Top "s"]; Merged "s"] ∧
     Runner.results report !! "a" = Some ra ∧ status ra = SUCCESS ∧
     outputs ra = {["b.c" := VInt 1]} ∧
     Runner.results report !! "s" = Some rs_ ∧
     outputs rs_ = {["seen" := VInt 2]}).
Proof.
  split.
  - split; [exact siblings_levels|].
    eexists _, _, _. split; [vm_compute; reflexivity|].
    split; [reflexivity|]. split; [vm_compute; reflexivity|].
    vm_compute. reflexivity.
  - split; [vm_compute; reflexivity|].
    eexists _, _, _, _. split; [vm_compute; reflexivity|].
    split; [reflexivity|]. split; [vm_compute; reflexivity|].
    split; [reflexivity|]. split; [vm_compute; reflexivity|].
    split; [vm_compute; reflexivity|]. vm_compute. reflexivity.
Qed.

Section claims.
Context `{World W}.

(** C3, amended. The outputs of a node are merged when its own execution
    ends, whatever its siblings are doing; what holds is the barrier
    between levels. The log of a run is the concatenation of one chunk per
    level processed, in order; the chunk of a level holds only calls and
    merges of nodes of that level, and for every node of the level that is
    recorded as SUCCESS it holds the call of its [execute] and the merge of
    its outputs. So every merge of a level comes before any node of a later
    level starts. And the merges are in the context that the next level
    starts from: the levels from the i-th on are processed from the state
    reached when the first i levels have been processed (unless the run
    has ended by then), and in that state the context holds, under
    [p.k], the value that any node p recorded as SUCCESS has for its
    output k, provided that no node writes that key in its [run] and no
    other node id qualifies a key to it. *)
Theorem merges_precede_next_level (self : Runner.t)
    (graph : Graph.t (Node:=Node W)) sched ctx0 w lv :
  Graph.wf graph → Graph.levels graph = Ok lv →
  ∃ st' report chunks,
    Runner.run self graph sched ctx0 w = (st', Ok report) ∧
    log st' = concat chunks ∧
    (length chunks ≤ length lv)%nat ∧
    (∀ i level chunk, lv !! i = Some level → chunks !! i = Some chunk →
       Forall (Runner.level_event level) chunk ∧
       ∀ id r, id ∈ level → Runner.results report !! id = Some r →
         status r = SUCCESS →
         Executed [Top id] ∈ chunk ∧ Merged id ∈ chunk) ∧
    ∀ i,
      let rs0 := Runner.mkRunState (mkState ctx0 w []) ∅ in
      let rs_i := (Runner.run_levels self graph sched 0 (take i lv) rs0).1 in
      (Runner.run_levels self graph sched 0 lv rs0 =
         Runner.run_levels self graph sched (Z.of_nat i) (drop i lv) rs_i ∨
       Runner.run_levels self graph sched 0 lv rs0 =
         Runner.run_levels self graph sched 0 (take i lv) rs0) ∧
      (∀ id r, Runner.report_results rs_i !! id = Some r →
         Runner.results report !! id = Some r ∧
         ∃ j level, (j < i)%nat ∧ lv !! j = Some level ∧ id ∈ level) ∧
      ∀ p k,
        (∀ id node, Graph.get_node graph id = Ok node →
           obeys (Runner.keeps (Context.qualified p k)) (λ _ _, True)
                 (run [Top id] node)) →
        (∀ id k', id ∈ Graph.node_ids graph → id ≠ p →
           Context.qualified id k' ≠ Context.qualified p k) →
        ∀ r v, Runner.report_results rs_i !! p = Some r →
          status r = SUCCESS → outputs r !! k = Some v →
          Context._data (ctx (Runner.nodes_state rs_i))
            !! Context.qualified p k = Some v.
Proof.
  intros Hwf Hlv.
  destruct (GraphProofs.levels_outcome graph Hwf)
    as [(lv' & Hok & Hperm & _)|(n & Hr & _)]; [|congruence].
  assert (lv' = lv) as -> by congruence.
  assert (Hnd : NoDup (concat lv))
    by (rewrite Hperm; apply (Graph.wf_nodup graph Hwf)).
  assert (Hget : ∀ id, id ∈ concat lv →
            ∃ node, Graph.get_node graph id = Ok node).
  { intros id Hid. apply get_node_registered. by rewrite <- Hperm. }
  destruct (run_levels_spec self graph sched lv 0
              (Runner.mkRunState (mkState ctx0 w []) ∅) Hnd Hget)
    as (rs' & chunks & Hrun & Hlog & Hlen & _ & Hchunks).
  simpl in Hlog.
  exists (Runner.nodes_state rs'),
    (Runner.mkReport (Runner.report_results rs')
       (Some (elapsed_ms (monotonic w)
                (monotonic (world (Runner.nodes_state rs')))))), chunks.
  split; [unfold Runner.run; rewrite Hlv; simpl; by rewrite Hrun|].
  split; [done|]. split; [done|]. split.
  - intros i level chunk Hl Hc.
    destruct (Hchunks i level chunk Hl Hc) as [Hall Hin]. split; [done|].
    intros id r Hid Hr Hs. simpl in Hr.
    destruct (Hin id r Hid Hr Hs) as [Hm He]. rewrite Hlog in Hm, He.
    (* an entry that names [id] can only be in the chunk of the level of
       [id] *)
    assert (Hown : ∀ e, e = Merged id ∨ e = Executed [Top id] →
              e ∈ concat chunks → e ∈ chunk).
    { intros e He' Hcat.
      apply GraphProofs.elem_of_concat in Hcat as (chunk' & Hec & Hcl).
      apply list_elem_of_lookup in Hcl as [j Hj].
      destruct (lookup_lt_is_Some_2 lv j) as [level' Hl'].
      { apply lookup_lt_Some in Hj. lia. }
      destruct (Hchunks j level' chunk' Hl' Hj) as [Hall' _].
      rewrite Forall_forall in Hall'.
      destruct (Hall' e Hec) as (id' & Hid' & Hev).
      pose proof (task_event_owner id' id e Hev He') as ->.
      pose proof (GraphProofs.group_index_lookup lv id i level Hnd Hl Hid) as E1.
      pose proof (GraphProofs.group_index_lookup lv id j level' Hnd Hl' Hid') as E2.
      assert (i = j) as -> by congruence.
      assert (chunk' = chunk) as -> by congruence. done. }
    split; apply Hown; eauto.
  - intros i rs0 rs_i. fold rs0 in Hrun.
    pose proof (run_levels_app self graph sched (take i lv) (drop i lv) 0 rs0)
      as Happ.
    rewrite take_drop in Happ. fold rs_i in Happ.
    assert (Hnd_i : NoDup (concat (take i lv) ++ concat (drop i lv))).
    { by rewrite <- concat_app, take_drop. }
    apply NoDup_app in Hnd_i as (Hnd1 & Hdis & Hnd2).
    assert (Hin_take : ∀ id, id ∈ concat (take i lv) → id ∈ concat lv).
    { intros id Hid. rewrite <- (take_drop i lv), concat_app.
      apply elem_of_app. by left. }
    assert (Hin_drop : ∀ id, id ∈ concat (drop i lv) → id ∈ concat lv).
    { intros id Hid. rewrite <- (take_drop i lv), concat_app.
      apply elem_of_app. by right. }
    destruct (run_levels_spec self graph sched (take i lv) 0 rs0 Hnd1)
      as (rs1 & chunks1 & Hrun1 & _ & _ & Hframe1 & _).
    { intros id Hid. by apply Hget, Hin_take. }
    assert (rs_i = rs1) as Ers by (unfold rs_i; by rewrite Hrun1).
    split; [|split].
    + destruct Happ as [Happ|Happ]; [left|right].
      * rewrite Happ. rewrite length_take.
        destruct (decide (i ≤ length lv)%nat) as [Hle|Hgt].
        -- by replace (0 + Z.of_nat (i `min` length lv)) with (Z.of_nat i)
             by lia.
        -- rewrite drop_ge by lia. done.
      * exact Happ.
    + intros id r Hr.
      assert (Hid : id ∈ concat (take i lv)).
      { destruct (decide (id ∈ concat (take i lv))) as [|Hn]; [done|].
        rewrite Ers, (Hframe1 id Hn) in Hr. done. }
      split.
      * simpl. destruct Happ as [Happ|Happ].
        -- destruct (run_levels_spec self graph sched (drop i lv)
                       (0 + Z.of_nat (length (take i lv))) rs_i Hnd2)
             as (rs2 & chunks2 & Hrun2 & _ & _ & Hframe2 & _).
           { intros id' Hid'. by apply Hget, Hin_drop. }
           rewrite Happ, Hrun2 in Hrun. injection Hrun as <-.
           rewrite Hframe2; [done|]. intros Hx. by apply (Hdis id).
        -- rewrite Happ in Hrun. unfold rs_i in Hr. rewrite Hrun in Hr.
           done.
      * apply GraphProofs.elem_of_concat in Hid as (level & Hid & Hl).
        apply list_elem_of_lookup in Hl as [j Hj].
        apply lookup_take_Some in Hj as [Hj Hlt]. by exists j, level.
    + intros p k Hruns Hapart.
      apply (run_levels_publishes graph p k Hruns Hapart self sched
               (take i lv) 0 rs0).
      intros r v Hr. done.
Qed.

(** *** The graphs of the scenarios *)

Lemma scenario_c_shape (a b c : Node W) :
  node_id a = "a" → node_id b = "b" → node_id c = "c" →
  Graph.levels (scenario_c a b c) = Ok [["a"; "c"]; ["b"]] ∧
  Graph.predecessors (scenario_c a b c) "a" = ∅ ∧
  Graph.predecessors (scenario_c a b c) "c" = ∅ ∧
  Graph.predecessors (scenario_c a b c) "b" = {["a"]} ∧
  Graph.get_node (scenario_c a b c) "a" = Ok a ∧
  Graph.get_node (scenario_c a b c) "b" = Ok b ∧
  Graph.get_node (scenario_c a b c) "c" = Ok c.
Proof.
  intros Ha Hb Hc. unfold scenario_c, with_nodes. simpl.
  unfold Graph.add_node. rewrite Ha, Hb, Hc.
  repeat split; vm_compute; reflexivity.
Qed.

Lemma chain_shape (a b c : Node W) :
  node_id a = "a" → node_id b = "b" → node_id c = "c" →
  Graph.levels (chain a b c) = Ok [["a"]; ["b"]; ["c"]] ∧
  Graph.predecessors (chain a b c) "a" = ∅ ∧
  Graph.predecessors (chain a b c) "b" = {["a"]} ∧
  Graph.predecessors (chain a b c) "c" = {["b"]} ∧
  Graph.get_node (chain a b c) "a" = Ok a ∧
  Graph.get_node (chain a b c) "b" = Ok b ∧
  Graph.get_node (chain a b c) "c" = Ok c.
Proof.
  intros Ha Hb Hc. unfold chain, with_nodes. simpl.
  unfold Graph.add_node. rewrite Ha, Hb, Hc.
  repeat split; vm_compute; reflexivity.
Qed.

Lemma gated_shape (g s : Node W) :
  node_id g = "g" → node_id s = "s" →
  Graph.levels (gated g s) = Ok [["g"]; ["s"]] ∧
  Graph.predecessors (gated g s) "g" = ∅ ∧
  Graph.predecessors (gated g s) "s" = {["g"]} ∧
  Graph.get_node (gated g s) "g" = Ok g ∧
  Graph.get_node (gated g s) "s" = Ok s.
Proof.
  intros Hg Hs. unfold gated, with_nodes. simpl.
  unfold Graph.add_node. rewrite Hg, Hs.
  repeat split; vm_compute; reflexivity.
Qed.

(** C9, amended. In a run that is not a dry run, over the graph with the
    edge a→b and the node c on its own, where a fails and c succeeds: a is
    recorded FAILURE and c SUCCESS, b is never executed, and the run is not
    a success. With [fail_fast] off, b is recorded SKIPPED with the error
    "upstream dependency failed"; with [fail_fast] on, the run stops after
    the first level and b is not recorded. *)
Theorem failed_node_skips_dependent (a b c : Node W) (fail_fast : bool)
    sched ctx w :
  node_id a = "a" → node_id b = "b" → node_id c = "c" →
  obeys (λ _ _, True) (λ _ outcome, status (absorb outcome) = FAILURE)
        (run [Top "a"] a) →
  obeys (λ _ _, True) (λ _ outcome, status (absorb outcome) = SUCCESS)
        (run [Top "c"] c) →
  ∃ st' report ra rc,
    Runner.run (Runner.mk fail_fast false) (scenario_c a b c) sched ctx w
      = (st', Ok report) ∧
    Runner.results report !! "a" = Some ra ∧ status ra = FAILURE ∧
    Runner.results report !! "c" = Some rc ∧ status rc = SUCCESS ∧
    Runner.results report !! "b" =
      (if fail_fast then None else Some (Runner.skipped_upstream 1)) ∧
    (∀ e, e ∈ log st' → ¬ below [Top "b"] e) ∧
    Runner.success report = false.
Proof.
  intros Ha Hb Hc Hfail Hsucc.
  destruct (scenario_c_shape a b c Ha Hb Hc)
    as (Hlv & Pa & Pc & Pb & Ga & Gb & Gc).
  set (graph := scenario_c a b c) in *.
  set (rs0 := Runner.mkRunState (mkState ctx w []) ∅).
  set (P := λ (id : string) (outcome : exn NodeResult),
              (id = "a" → status (absorb outcome) = FAILURE) ∧
              (id = "c" → status (absorb outcome) = SUCCESS)).
  (* level 0: a and c *)
  destruct (run_level_skips graph (sched 0) 0 ["a"; "c"] rs0 P)
    as (rs1 & new1 & Hrun1 & Hlog1 & Hnew1 & Hframe1 & Hids1).
  { apply NoDup_cons. split; [|apply NoDup_singleton].
    intros Hin. by apply list_elem_of_singleton in Hin. }
  { intros id p Hid Hp.
    apply elem_of_cons in Hid as [->|Hid].
    - rewrite Pa in Hp. by apply elem_of_empty in Hp.
    - apply list_elem_of_singleton in Hid as ->. rewrite Pc in Hp.
      by apply elem_of_empty in Hp. }
  { intros id Hid _.
    apply elem_of_cons in Hid as [->|Hid].
    - exists a. split; [done|].
      eapply obeys_mono; [| |exact Hfail]; [done|].
      intros s o Ho. split; intros E; [done | discriminate E].
    - apply list_elem_of_singleton in Hid as ->. exists c. split; [done|].
      eapply obeys_mono; [| |exact Hsucc]; [done|].
      intros s o Ho. split; intros E; [discriminate E | done]. }
  pose proof (Hids1 "a" ltac:(by left)) as Ea.
  rewrite (should_skip_none graph "a" _ Pa) in Ea.
  destruct Ea as [(ra & Hra & Hexa & _) _].
  apply executed_result_status in Hexa as (oa & [Hoa _] & Hsa & _).
  rewrite (Hoa eq_refl) in Hsa.
  pose proof (Hids1 "c" ltac:(by right; left)) as Ec.
  rewrite (should_skip_none graph "c" _ Pc) in Ec.
  destruct Ec as [(rc & Hrc & Hexc & _) _].
  apply executed_result_status in Hexc as (oc & [_ Hoc] & Hsc & _).
  rewrite (Hoc eq_refl) in Hsc.
  assert (Hb1 : Runner.report_results rs1 !! "b" = None).
  { rewrite Hframe1; [done|]. intros Hin.
    apply elem_of_cons in Hin as [Hin|Hin]; [done|].
    by apply list_elem_of_singleton in Hin. }
  assert (Hlog1' : ∀ e, e ∈ log (Runner.nodes_state rs1) → ¬ below [Top "b"] e).
  { intros e He. rewrite Hlog1 in He. simpl in He.
    rewrite Forall_forall in Hnew1.
    eapply level_event_not_below; [by apply Hnew1|].
    intros Hin. apply list_elem_of_filter in Hin as [_ Hin].
    apply elem_of_cons in Hin as [Hin|Hin]; [done|].
    by apply list_elem_of_singleton in Hin. }
  assert (Hfailed : Runner.level_failed ["a"; "c"] (Runner.report_results rs1)
                    = true).
  { eapply level_failed_true; [|exact Hra|exact Hsa]. by left. }
  unfold Runner.run. rewrite Hlv.
  cbn [Runner.run_levels Runner.dry_run Runner.fail_fast].
  fold rs0. rewrite Hrun1, Hfailed.
  destruct fail_fast; cbn [andb].
  - eexists (Runner.nodes_state rs1), _, ra, rc.
    split; [reflexivity|]. cbn [Runner.results].
    split; [exact Hra|]. split; [exact Hsa|]. split; [exact Hrc|].
    split; [exact Hsc|]. split; [exact Hb1|]. split; [exact Hlog1'|].
    eapply success_false; [exact Hra | exact Hsa].
  - (* level 1: b *)
    destruct (run_level_skips graph (sched (0 + 1)) (0 + 1) ["b"] rs1
                (λ _ _, True))
      as (rs2 & new2 & Hrun2 & Hlog2 & Hnew2 & Hframe2 & Hids2).
    { apply NoDup_singleton. }
    { intros id p Hid Hp. apply list_elem_of_singleton in Hid as ->.
      rewrite Pb in Hp. apply elem_of_singleton in Hp as ->.
      intros Hin. by apply list_elem_of_singleton in Hin. }
    { intros id Hid _. apply list_elem_of_singleton in Hid as ->.
      exists b. split; [done | apply obeys_True]. }
    assert (Hskip : Runner._should_skip "b" graph (Runner.report_results rs1)
                    = true).
    { rewrite (should_skip_single graph "b" "a" _ Pb), Hra.
      by apply bool_decide_eq_true. }
    pose proof (Hids2 "b" ltac:(by left)) as Eb. rewrite Hskip in Eb.
    assert (new2 = []) as ->.
    { apply level_event_nil. rewrite filter_cons, Hskip in Hnew2.
      by rewrite decide_False in Hnew2. }
    rewrite app_nil_r in Hlog2.
    cbn [Runner.run_levels Runner.dry_run Runner.fail_fast andb].
    rewrite Hrun2.
    assert (Ha2 : Runner.report_results rs2 !! "a" = Some ra).
    { rewrite Hframe2; [exact Hra|].
      intros Hin. by apply list_elem_of_singleton in Hin. }
    assert (Hc2 : Runner.report_results rs2 !! "c" = Some rc).
    { rewrite Hframe2; [exact Hrc|].
      intros Hin. by apply list_elem_of_singleton in Hin. }
    eexists (Runner.nodes_state rs2), _, ra, rc.
    split; [reflexivity|]. cbn [Runner.results].
    rewrite Hlog2.
    split; [exact Ha2|]. split; [exact Hsa|]. split; [exact Hc2|].
    split; [exact Hsc|]. split; [exact Eb|]. split; [exact Hlog1'|].
    eapply success_false; [exact Ha2 | exact Hsa].
Qed.

(** *** The chain a→b→c and the gate *)

(** A level made of one node. *)
Lemma run_level_single graph sched level_idx id rs node
    (P : exn NodeResult → Prop) :
  id ∉ Graph.predecessors graph id →
  Graph.get_node graph id = Ok node →
  (Runner._should_skip id graph (Runner.report_results rs) = false →
   obeys (λ _ _, True) (λ _ outcome, P outcome) (run [Top id] node)) →
  ∃ rs' new,
    Runner.run_level graph sched level_idx [id] rs = (rs', Ok ()) ∧
    log (Runner.nodes_state rs') = log (Runner.nodes_state rs) ++ new ∧
    Forall (Runner.level_event
              (filter (λ id, Runner._should_skip id graph
                               (Runner.report_results rs) = false) [id])) new ∧
    (∀ id', id' ≠ id →
       Runner.report_results rs' !! id' = Runner.report_results rs !! id') ∧
    (if Runner._should_skip id graph (Runner.report_results rs)
     then Runner.report_results rs' !! id =
            Some (Runner.skipped_upstream level_idx)
     else Runner.ended
            (λ _ r, Runner.executed_result P level_idx r) id rs').
Proof.
  intros Hself Hnode Hobeys.
  destruct (run_level_skips graph sched level_idx [id] rs (λ _, P))
    as (rs' & new & Hrun & Hlog & Hnew & Hframe & Hids).
  - apply NoDup_singleton.
  - intros i p Hi Hp Hin. apply list_elem_of_singleton in Hi as ->.
    apply list_elem_of_singleton in Hin as ->. by apply Hself.
  - intros i Hi Hskip. apply list_elem_of_singleton in Hi as ->.
    exists node. split; [exact Hnode | by apply Hobeys].
  - exists rs', new. split; [exact Hrun|]. split; [exact Hlog|].
    split; [exact Hnew|]. split.
    + intros id' Hne. apply Hframe. intros Hin.
      by apply list_elem_of_singleton in Hin.
    + apply Hids. by apply list_elem_of_singleton.
Qed.

Lemma single_level_not_below level new e id :
  Forall (Runner.level_event (filter (λ i, level i = false) [id])) new →
  e ∈ new → ∀ other, other ≠ id → ¬ below [Top other] e.
Proof.
  intros Hnew He other Hne. rewrite Forall_forall in Hnew.
  eapply level_event_not_below; [by apply Hnew|].
  intros Hin. apply list_elem_of_filter in Hin as [_ Hin].
  by apply list_elem_of_singleton in Hin.
Qed.

Lemma chain_run (a b c : Node W) (Pc : exn NodeResult → Prop) sched ctx w :
  node_id a = "a" → node_id b = "b" → node_id c = "c" →
  obeys (λ _ _, True) (λ _ outcome, status (absorb outcome) = FAILURE)
        (run [Top "a"] a) →
  obeys (λ _ _, True) (λ _ outcome, Pc outcome) (run [Top "c"] c) →
  ∃ st' report ra rc,
    Runner.run (Runner.mk false false) (chain a b c) sched ctx w
      = (st', Ok report) ∧
    Runner.results report !! "a" = Some ra ∧ status ra = FAILURE ∧
    Runner.results report !! "b" = Some (Runner.skipped_upstream 1) ∧
    Runner.results report !! "c" = Some rc ∧
    Runner.executed_result Pc 2 rc ∧
    Executed [Top "c"] ∈ log st' ∧
    (∀ e, e ∈ log st' → ¬ below [Top "b"] e).
Proof.
  intros Ha Hb Hc Hfail Hc_run.
  destruct (chain_shape a b c Ha Hb Hc) as (Hlv & Pa & Pb & Pc' & Ga & Gb & Gc).
  set (graph := chain a b c) in *.
  set (rs0 := Runner.mkRunState (mkState ctx w []) ∅).
  set (failing := λ outcome : exn NodeResult,
         status (absorb outcome) = FAILURE).
  (* level 0: a *)
  destruct (run_level_single graph (sched 0) 0 "a" rs0 a failing)
    as (rs1 & new1 & Hrun1 & Hlog1 & Hnew1 & Hframe1 & Ea).
  { rewrite Pa. apply not_elem_of_empty. }
  { exact Ga. }
  { intros _. exact Hfail. }
  rewrite (should_skip_none graph "a" _ Pa) in Ea.
  destruct Ea as [(ra & Hra & Hexa & _) _].
  apply executed_result_status in Hexa as (oa & Hoa & Hsa & _).
  unfold failing in Hoa. rewrite Hoa in Hsa.
  (* level 1: b *)
  destruct (run_level_single graph (sched (0 + 1)) (0 + 1) "b" rs1 b
              (λ _, True))
    as (rs2 & new2 & Hrun2 & Hlog2 & Hnew2 & Hframe2 & Eb).
  { rewrite Pb. intros Hin. by apply elem_of_singleton in Hin. }
  { exact Gb. }
  { intros _. apply obeys_True. }
  assert (Hskip : Runner._should_skip "b" graph (Runner.report_results rs1)
                  = true).
  { rewrite (should_skip_single graph "b" "a" _ Pb), Hra.
    by apply bool_decide_eq_true. }
  rewrite Hskip in Eb.
  assert (new2 = []) as ->.
  { apply level_event_nil. rewrite filter_cons, Hskip in Hnew2.
    by rewrite decide_False in Hnew2. }
  rewrite app_nil_r in Hlog2.
  assert (Ha2 : Runner.report_results rs2 !! "a" = Some ra)
    by (rewrite Hframe2 by done; exact Hra).
  (* level 2: c *)
  destruct (run_level_single graph (sched (0 + 1 + 1)) (0 + 1 + 1) "c" rs2 c Pc)
    as (rs3 & new3 & Hrun3 & Hlog3 & Hnew3 & Hframe3 & Ec).
  { rewrite Pc'. intros Hin. by apply elem_of_singleton in Hin. }
  { exact Gc. }
  { intros _. exact Hc_run. }
  assert (Hrun_c : Runner._should_skip "c" graph (Runner.report_results rs2)
                   = false).
  { rewrite (should_skip_single graph "c" "b" _ Pc'), Eb. done. }
  rewrite Hrun_c in Ec.
  destruct Ec as [(rc & Hrc & Hexc & _) Hlogc].
  assert (Ha3 : Runner.report_results rs3 !! "a" = Some ra)
    by (rewrite Hframe3 by done; exact Ha2).
  assert (Hb3 : Runner.report_results rs3 !! "b"
                = Some (Runner.skipped_upstream 1))
    by (rewrite Hframe3 by done; exact Eb).
  assert (Hlog3' : ∀ e, e ∈ log (Runner.nodes_state rs3) →
                        ¬ below [Top "b"] e).
  { intros e He. rewrite Hlog3, Hlog2, Hlog1 in He.
    apply elem_of_app in He as [He|He].
    - apply elem_of_app in He as [He|He]; [by apply elem_of_nil in He|].
      eapply single_level_not_below; [exact Hnew1 | exact He | done].
    - eapply single_level_not_below; [exact Hnew3 | exact He | done]. }
  unfold Runner.run. rewrite Hlv.
  cbn [Runner.run_levels Runner.dry_run Runner.fail_fast andb].
  fold rs0. rewrite Hrun1. cbn [andb]. rewrite Hrun2, Hrun3.
  eexists (Runner.nodes_state rs3), _, ra, rc.
  split; [reflexivity|]. cbn [Runner.results].
  split; [exact Ha3|]. split; [exact Hsa|]. split; [exact Hb3|].
  split; [exact Hrc|]. split; [exact Hexc|]. split; [exact Hlogc|].
  exact Hlog3'.
Qed.

Lemma gated_run predicate reason (s : Node W) (Ps : exn NodeResult → Prop)
    fail_fast sched ctx w :
  (∀ ctx, predicate ctx = false) → node_id s = "s" →
  obeys (λ _ _, True) (λ _ outcome, Ps outcome) (run [Top "s"] s) →
  ∃ st' report rg rs_,
    Runner.run (Runner.mk fail_fast false)
               (gated (GateNode "g" predicate reason) s) sched ctx w
      = (st', Ok report) ∧
    Runner.results report !! "g" = Some rg ∧ status rg = SKIPPED ∧
    error rg = Some reason ∧
    Runner.results report !! "s" = Some rs_ ∧
    Runner.executed_result Ps 1 rs_ ∧
    Executed [Top "s"] ∈ log st'.
Proof.
  intros Hpred Hs Hs_run.
  destruct (gated_shape (GateNode "g" predicate reason) s eq_refl Hs)
    as (Hlv & Pg & Ps' & Gg & Gs).
  set (graph := gated (GateNode "g" predicate reason) s) in *.
  set (rs0 := Runner.mkRunState (mkState ctx w []) ∅).
  set (closed := λ outcome : exn NodeResult,
         status (absorb outcome) = SKIPPED ∧
         error (absorb outcome) = Some reason).
  (* level 0: the gate *)
  destruct (run_level_single graph (sched 0) 0 "g" rs0
              (GateNode "g" predicate reason) closed)
    as (rs1 & new1 & Hrun1 & Hlog1 & Hnew1 & Hframe1 & Eg).
  { rewrite Pg. apply not_elem_of_empty. }
  { exact Gg. }
  { intros _. cbn [run]. unfold gate_run.
    apply obeys_atomic. intros st. rewrite Hpred. done. }
  rewrite (should_skip_none graph "g" _ Pg) in Eg.
  destruct Eg as [(rg & Hrg & Hexg & _) _].
  apply executed_result_status in Hexg as (og & [Hog1 Hog2] & Hsg & _ & Heg & _).
  rewrite Hog1 in Hsg. rewrite Hog2 in Heg.
  assert (Hnf : Runner.level_failed ["g"] (Runner.report_results rs1) = false).
  { unfold Runner.level_failed. cbn [existsb]. rewrite Hrg. cbn. rewrite Hsg.
    done. }
  (* level 1: the successor *)
  destruct (run_level_single graph (sched (0 + 1)) (0 + 1) "s" rs1 s Ps)
    as (rs2 & new2 & Hrun2 & Hlog2 & Hnew2 & Hframe2 & Es).
  { rewrite Ps'. intros Hin. by apply elem_of_singleton in Hin. }
  { exact Gs. }
  { intros _. exact Hs_run. }
  assert (Hrun_s : Runner._should_skip "s" graph (Runner.report_results rs1)
                   = false).
  { rewrite (should_skip_single graph "s" "g" _ Ps'), Hrg, Hsg. done. }
  rewrite Hrun_s in Es.
  destruct Es as [(rs_ & Hrs & Hexs & _) Hlogs].
  assert (Hg2 : Runner.report_results rs2 !! "g" = Some rg)
    by (rewrite Hframe2 by done; exact Hrg).
  unfold Runner.run. rewrite Hlv.
  cbn [Runner.run_levels Runner.dry_run Runner.fail_fast].
  fold rs0. rewrite Hrun1, Hnf, andb_false_r, Hrun2.
  eexists (Runner.nodes_state rs2), _, rg, rs_.
  split; [by destruct (_ && _)|]. cbn [Runner.results].
  split; [exact Hg2|]. split; [exact Hsg|].
  split; [exact Heg|]. split; [exact Hrs|]. split; [exact Hexs|]. exact Hlogs.
Qed.


End claims.

Lemma fail_node_obeys id msg :
  obeys (λ _ _, True) (λ _ outcome, status (absorb outcome) = FAILURE)
        (run [Top id] (FailNode id msg)).
Proof. intros s. split; [done|]. reflexivity. Qed.

Lemma success_node_obeys id outs :
  obeys (λ _ _, True) (λ _ outcome, status (absorb outcome) = SUCCESS)
        (run [Top id] (SuccessNode id outs)).
Proof. intros s. split; [done|]. reflexivity. Qed.

Lemma failed_node_skips_dependent_witness :
  ∃ st' report ra rc,
    Runner.run (Runner.mk false false)
      (scenario_c (FailNode "a" "boom") (SuccessNode "b" ∅) (SuccessNode "c" ∅))
      (λ _, [1; 0]%nat) (Context.new None) () = (st', Ok report) ∧
    Runner.results report !! "a" = Some ra ∧ status ra = FAILURE ∧
    Runner.results report !! "c" = Some rc ∧ status rc = SUCCESS ∧
    Runner.results report !! "b" =
      (if false then None else Some (Runner.skipped_upstream 1)) ∧
    (∀ e, e ∈ log st' → ¬ below [Top "b"] e) ∧
    Runner.success report = false.
Proof.
  apply (failed_node_skips_dependent (FailNode "a" "boom") (SuccessNode "b" ∅)
           (SuccessNode "c" ∅) false (λ _, [1; 0]%nat) (Context.new None) ()).
  - reflexivity.
  - reflexivity.
  - reflexivity.
  - apply fail_node_obeys.
  - apply success_node_obeys.
Defined.

(** C9, as stated, fails with [fail_fast] on: the run is not a dry run, a
    fails, there is the edge a→b and c is on its own, yet b is not recorded
    in the report at all. *)
Lemma fail_fast_drops_dependent_counterexample :
  ∃ st' report,
    Runner.run (Runner.mk true false) scenario_c_test (λ _, [])
               (Context.new None) () = (st', Ok report) ∧
    (status <$> Runner.results report !! "a") = Some FAILURE ∧
    (status <$> Runner.results report !! "c") = Some SUCCESS ∧
    Runner.results report !! "b" = None.
Proof.
  eexists _, _. split; [vm_compute; reflexivity|].
  repeat split; vm_compute; reflexivity.
Qed.

Lemma gated_open_test_wf : Graph.wf gated_open_test.
Proof.
  unfold gated_open_test, gated.
  apply GraphClaims.of_res_add_edge_wf. apply with_nodes_wf.
Qed.

Lemma gate_keeps key path predicate reason :
  obeys (Runner.keeps key) (λ _ _, True)
        (run path (GateNode (W:=unit) "g" predicate reason)).
Proof.
  cbn [run]. apply obeys_atomic. intros st.
  by destruct (predicate (ctx st)).
Qed.

Lemma peek_keeps key path id key' :
  obeys (Runner.keeps key) (λ _ _, True) (run path (PeekNode id key')).
Proof. intros st. split; [done|]. simpl. intros st'. by split. Qed.

Lemma merges_precede_next_level_witness :
  (∃ st' report chunks,
    Runner.run Runner.defaults gated_open_test (λ _, [])
               (Context.new None) () = (st', Ok report) ∧
    log st' = concat chunks ∧
    (length chunks ≤ length [["g"]; ["s"]])%nat ∧
    (∀ i level chunk,
       [["g"]; ["s"]] !! i = Some level → chunks !! i = Some chunk →
       Forall (Runner.level_event level) chunk ∧
       ∀ id r, id ∈ level → Runner.results report !! id = Some r →
         status r = SUCCESS →
         Executed [Top id] ∈ chunk ∧ Merged id ∈ chunk) ∧
    ∀ i,
      let rs0 := Runner.mkRunState (mkState (Context.new None) () []) ∅ in
      let rs_i :=
        (Runner.run_levels Runner.defaults gated_open_test (λ _, []) 0
           (take i [["g"]; ["s"]]) rs0).1 in
      (Runner.run_levels Runner.defaults gated_open_test (λ _, []) 0
         [["g"]; ["s"]] rs0 =
         Runner.run_levels Runner.defaults gated_open_test (λ _, [])
           (Z.of_nat i) (drop i [["g"]; ["s"]]) rs_i ∨
       Runner.run_levels Runner.defaults gated_open_test (λ _, []) 0
         [["g"]; ["s"]] rs0 =
         Runner.run_levels Runner.defaults gated_open_test (λ _, []) 0
           (take i [["g"]; ["s"]]) rs0) ∧
      (∀ id r, Runner.report_results rs_i !! id = Some r →
         Runner.results report !! id = Some r ∧
         ∃ j level, (j < i)%nat ∧ [["g"]; ["s"]] !! j = Some level ∧
                    id ∈ level) ∧
      ∀ p k,
        (∀ id node, Graph.get_node gated_open_test id = Ok node →
           obeys (Runner.keeps (Context.qualified p k)) (λ _ _, True)
                 (run [Top id] node)) →
        (∀ id k', id ∈ Graph.node_ids gated_open_test → id ≠ p →
           Context.qualified id k' ≠ Context.qualified p k) →
        ∀ r v, Runner.report_results rs_i !! p = Some r →
          status r = SUCCESS → outputs r !! k = Some v →
          Context._data (ctx (Runner.nodes_state rs_i))
            !! Context.qualified p k = Some v) ∧
  (* what the gate published is in the context that the level of s
     starts from *)
  Context._data
    (ctx (Runner.nodes_state
            (Runner.run_levels Runner.defaults gated_open_test (λ _, []) 0
               (take 1 [["g"]; ["s"]])
               (Runner.mkRunState (mkState (Context.new None) () []) ∅)).1))
    !! Context.qualified "g" "gate_open" = Some (VBool true) ∧
  (* and s, of the next level, finds it there *)
  (∃ st' report rs_,
     Runner.run Runner.defaults gated_open_test (λ _, [])
                (Context.new None) () = (st', Ok report) ∧
     Runner.results report !! "s" = Some rs_ ∧
     outputs rs_ = {["seen" := VBool true]}).
Proof.
  pose proof (merges_precede_next_level Runner.defaults gated_open_test
                (λ _, []) (Context.new None) () [["g"]; ["s"]]
                gated_open_test_wf eq_refl) as Hthm.
  split; [exact Hthm|]. split.
  2:{ eexists _, _, _. split; [vm_compute; reflexivity|].
      split; vm_compute; reflexivity. }
  destruct Hthm as (st' & report & chunks & _ & _ & _ & _ & Hvisible).
  destruct (Hvisible 1%nat) as (_ & _ & Hpublished).
  eapply (Hpublished "g" "gate_open").
  - intros id node. unfold Graph.get_node.
    change (Graph._nodes gated_open_test)
      with [("g", GateNode (W:=unit) "g" (λ _, true) "closed");
            ("s", PeekNode "s" "g.gate_open")].
    simpl.
    destruct (decide (id = "g")) as [->|_].
    { intros [= <-]. apply gate_keeps. }
    destruct (decide (id = "s")) as [->|_]; [|done].
    intros [= <-]. apply peek_keeps.
  - intros id k' Hid Hne.
    apply elem_of_cons in Hid as [->|Hid]; [done|].
    apply list_elem_of_singleton in Hid as ->. done.
  - vm_compute. reflexivity.
  - reflexivity.
  - vm_compute. reflexivity.
Defined.

Lemma success_node_returns id outs :
  obeys (λ _ _, True)
        (λ _ outcome, outcome = Return {| status := SUCCESS; outputs := outs;
                                          error := None; metadata := ∅ |})
        (run [Top id] (SuccessNode id outs)).
Proof. intros s. split; [done|]. reflexivity. Qed.

Lemma gate_fork_wf : Graph.wf gate_fork.
Proof.
  unfold gate_fork.
  do 3 apply GraphClaims.of_res_add_edge_wf. apply with_nodes_wf.
Qed.



End RunnerClaims.

(** ** More about core/graph.py *)

Module GraphFacts.
Import Graph GraphProofs Examples.

Section facts.
Context {Node : Type}.
Implicit Types (g : Graph.t (Node:=Node)).

(** *** The registry *)

Lemma dict_get_set_ne k k' (n : Node) d :
  k' ≠ k → dict_get k' (dict_set k n d) = dict_get k' d.
Proof.
  intros Hne. induction d as [|[k0 n0] d IH]; simpl.
  - by rewrite decide_False.
  - destruct (decide (k = k0)) as [->|Hk]; simpl.
    + by rewrite !decide_False.
    + by rewrite IH.
Qed.

Lemma dict_get_is_Some k (d : list (string * Node)) :
  is_Some (dict_get k d) ↔ k ∈ d.*1.
Proof.
  induction d as [|[k0 n0] d IH]; simpl.
  - split; [by intros [? ?] | by intros ?%elem_of_nil].
  - destruct (decide (k = k0)) as [->|Hk].
    + split; [intros _; by left | eauto].
    + rewrite IH. split; [by right|].
      intros [?|?]%elem_of_cons; [done|done].
Qed.

Lemma dict_get_set_id (node_id : Node → string) k n m d :
  (∀ k' m', dict_get k' d = Some m' → node_id m' = k') →
  dict_get k (dict_set (node_id n) n d) = Some m → node_id m = k.
Proof.
  intros Hd Hget. destruct (decide (k = node_id n)) as [->|Hne].
  - rewrite dict_get_set in Hget. congruence.
  - rewrite dict_get_set_ne in Hget by done. by apply Hd.
Qed.

(** *** [add_edge] *)

Lemma set_add_lookup k x (d d' : gmap string (gset string)) k' :
  set_add k x d = Ok d' →
  default ∅ (d' !! k') =
    if decide (k' = k) then default ∅ (d !! k) ∪ {[x]} else default ∅ (d !! k').
Proof.
  unfold set_add. destruct (d !! k) as [s|] eqn:Hk; [|done].
  intros [= <-]. destruct (decide (k' = k)) as [->|Hne].
  - by rewrite lookup_insert_eq.
  - by rewrite lookup_insert_ne.
Qed.

Lemma add_edge_registered source target g :
  wf g → source ∈ node_ids g → target ∈ node_ids g →
  ∃ s p,
    _edges g !! source = Some s ∧ _reverse g !! target = Some p ∧
    add_edge source target g =
      Ok {| _nodes := _nodes g;
            _edges := <[source := s ∪ {[target]}]> (_edges g);
            _reverse := <[target := p ∪ {[source]}]> (_reverse g) |}.
Proof.
  intros Hwf Hs Ht.
  destruct (proj2 (wf_edges_dom g Hwf source) Hs) as [s Hse].
  destruct (proj2 (wf_reverse_dom g Hwf target) Ht) as [p Hpr].
  exists s, p. split; [done|]. split; [done|].
  unfold add_edge, contains. rewrite !bool_decide_eq_true_2 by done.
  simpl. unfold set_add. rewrite Hse, Hpr. done.
Qed.

(** *** The groups that the loop of [levels] emits *)

(** Every turn of the loop emits the queue that it found, which is not
    empty. *)
Lemma while_queue_groups g fuel : ∀ lv st,
  wf g → kahn_inv g (concat lv) st →
  (length (node_ids g) ≤ fuel + length (concat lv))%nat →
  ∃ more st',
    while_queue fuel g lv st = Ok (lv ++ more, st') ∧
    Forall (λ l, l ≠ []) more ∧
    head more = match queue st with [] => None | _ :: _ => Some (queue st) end.
Proof.
  induction fuel as [|fuel IH]; intros lv st Hwf Hinv Hfuel.
  - pose proof (inv_length_le g _ _ Hinv) as Hle.
    rewrite length_app in Hle.
    destruct (queue st) as [|a q] eqn:Hq; [|simpl in *; lia].
    exists [], st. simpl. rewrite Hq, app_nil_r. done.
  - destruct (queue st) as [|a q] eqn:Hq.
    { exists [], st. simpl. rewrite Hq, app_nil_r. done. }
    destruct (drain_spec g (queue st) [] (concat lv) [] st Hwf Hinv)
      as (st1 & new & Hdrain & Hq1 & Hinv1); [by rewrite app_nil_r|].
    simpl in Hdrain, Hq1.
    assert (Hcat : concat (lv ++ [queue st]) = concat lv ++ queue st).
    { rewrite concat_app. simpl. by rewrite app_nil_r. }
    rewrite <- Hcat in Hinv1.
    destruct (IH (lv ++ [queue st]) st1 Hwf Hinv1)
      as (more & st' & Hrun & Hne & _).
    { rewrite Hcat, length_app, Hq. simpl. lia. }
    exists (queue st :: more), st'. split; [|split].
    + cbn [while_queue]. rewrite Hq. rewrite <- Hq. rewrite Hdrain. simpl.
      rewrite Hrun. by rewrite <- app_assoc.
    + constructor; [by rewrite Hq | done].
    + by rewrite Hq.
Qed.

Lemma levels_groups g lv :
  wf g → levels g = Ok lv →
  Forall (λ l, l ≠ []) lv ∧
  head lv = match queue (init g) with
            | [] => None
            | _ :: _ => Some (queue (init g))
            end.
Proof.
  intros Hwf Hlv.
  destruct (while_queue_groups g (length (_nodes g)) [] (init g) Hwf)
    as (more & st' & Hrun & Hne & Hhead).
  - by apply init_inv.
  - unfold node_ids. rewrite length_fmap. simpl. lia.
  - unfold levels in Hlv. rewrite Hrun in Hlv. simpl in Hlv.
    case_bool_decide; [done|]. by injection Hlv as <-.
Qed.

Lemma init_queue g :
  wf g → queue (init g) = filter (λ v, predecessors g v = ∅) (node_ids g).
Proof.
  intros Hwf. unfold init. simpl. apply filter_ext_elem. intros v Hv.
  rewrite init_in_degree_lookup by done. split.
  - intros Hz. assert (size (predecessors g v) = 0%nat) as Hsz
      by (injection Hz; lia).
    by apply size_empty_inv, leibniz_equiv in Hsz.
  - intros ->. by rewrite size_empty.
Qed.

Lemma concat_nonempty_length (lv : list (list string)) :
  Forall (λ l, l ≠ []) lv → (length lv ≤ length (concat lv))%nat.
Proof.
  induction 1 as [|l lv Hl _ IH]; simpl; [done|].
  rewrite length_app. destruct l; [done|]. simpl. lia.
Qed.

End facts.

(** X1. The outcome of [add_edge] on a graph kept by the interface: it raises
    [ValueError] for an unknown source, then for an unknown target (the
    source is checked first), and succeeds exactly when both ids are
    registered. *)
Theorem add_edge_outcome {Node} source target (g : Graph.t (Node:=Node)) :
  wf g →
  (add_edge source target g = Raise (ValueError "source" source) ↔
     source ∉ node_ids g) ∧
  (add_edge source target g = Raise (ValueError "target" target) ↔
     source ∈ node_ids g ∧ target ∉ node_ids g) ∧
  ((∃ g', add_edge source target g = Ok g') ↔
     source ∈ node_ids g ∧ target ∈ node_ids g).
Proof.
  intros Hwf.
  destruct (decide (source ∈ node_ids g)) as [Hs|Hs].
  - destruct (decide (target ∈ node_ids g)) as [Ht|Ht].
    + destruct (add_edge_registered source target g Hwf Hs Ht)
        as (s & p & _ & _ & ->).
      split; [split; [done|done]|]. split; [split; [done|tauto]|].
      split; [done | eauto].
    + assert (add_edge source target g = Raise (ValueError "target" target))
        as ->.
      { unfold add_edge, contains.
        rewrite bool_decide_eq_true_2, bool_decide_eq_false_2 by done. done. }
      split; [split; [done|done]|]. split; [done|].
      split; [by intros [? ?] | tauto].
  - assert (add_edge source target g = Raise (ValueError "source" source))
      as ->.
    { unfold add_edge, contains. by rewrite bool_decide_eq_false_2. }
    split; [done|]. split; [split; [done|tauto]|].
    split; [by intros [? ?] | tauto].
Qed.

Lemma add_edge_outcome_witness :
  (add_edge "a" "zz" tagged_edge = Raise (ValueError "source" "a") ↔
     "a" ∉ node_ids tagged_edge) ∧
  (add_edge "a" "zz" tagged_edge = Raise (ValueError "target" "zz") ↔
     "a" ∈ node_ids tagged_edge ∧ "zz" ∉ node_ids tagged_edge) ∧
  ((∃ g', add_edge "a" "zz" tagged_edge = Ok g') ↔
     "a" ∈ node_ids tagged_edge ∧ "zz" ∈ node_ids tagged_edge).
Proof.
  apply (add_edge_outcome "a" "zz" tagged_edge).
  apply GraphClaims.tagged_edge_wf.
Defined.

(** X2. What a successful [add_edge] changes: the target joins the successors
    of the source and the source the predecessors of the target; the
    registry and every other adjacency entry stay as they were. *)
Theorem add_edge_adjacency {Node} source target (g g' : Graph.t (Node:=Node)) :
  wf g → add_edge source target g = Ok g' →
  _nodes g' = _nodes g ∧
  (∀ u, successors g' u =
          if decide (u = source) then successors g u ∪ {[target]}
          else successors g u) ∧
  (∀ v, predecessors g' v =
          if decide (v = target) then predecessors g v ∪ {[source]}
          else predecessors g v).
Proof.
  intros Hwf Hadd.
  destruct (proj1 (proj2 (proj2 (add_edge_outcome source target g Hwf)))
              (ex_intro _ g' Hadd)) as [Hs Ht].
  destruct (add_edge_registered source target g Hwf Hs Ht)
    as (s & p & Hse & Hpr & Heq).
  rewrite Heq in Hadd. injection Hadd as <-.
  split; [done|]. split.
  - intros u. unfold successors. simpl.
    destruct (decide (u = source)) as [->|Hne].
    + by rewrite lookup_insert_eq, Hse.
    + by rewrite lookup_insert_ne.
  - intros v. unfold predecessors. simpl.
    destruct (decide (v = target)) as [->|Hne].
    + by rewrite lookup_insert_eq, Hpr.
    + by rewrite lookup_insert_ne.
Qed.

Lemma add_edge_adjacency_witness :
  _nodes (ids ["a"; "b"]) = _nodes (ids ["a"; "b"]) ∧
  (∀ u, successors (of_res (add_edge "a" "b" (ids ["a"; "b"]))) u =
          if decide (u = "a") then successors (ids ["a"; "b"]) u ∪ {["b"]}
          else successors (ids ["a"; "b"]) u) ∧
  (∀ v, predecessors (of_res (add_edge "a" "b" (ids ["a"; "b"]))) v =
          if decide (v = "b") then predecessors (ids ["a"; "b"]) v ∪ {["a"]}
          else predecessors (ids ["a"; "b"]) v).
Proof.
  apply (add_edge_adjacency "a" "b" (ids ["a"; "b"])
           (of_res (add_edge "a" "b" (ids ["a"; "b"])))).
  - apply GraphClaims.ids_wf.
  - reflexivity.
Defined.

(** X3. Edges form a set: adding an edge that is already there changes
    nothing. *)
Theorem add_edge_twice {Node} source target (g g' : Graph.t (Node:=Node)) :
  wf g → add_edge source target g = Ok g' →
  add_edge source target g' = Ok g'.
Proof.
  intros Hwf Hadd.
  destruct (proj1 (proj2 (proj2 (add_edge_outcome source target g Hwf)))
              (ex_intro _ g' Hadd)) as [Hs Ht].
  destruct (add_edge_registered source target g Hwf Hs Ht)
    as (s & p & Hse & Hpr & Heq).
  rewrite Heq in Hadd. injection Hadd as <-.
  unfold add_edge, contains. simpl.
  rewrite !bool_decide_eq_true_2 by done. simpl.
  unfold set_add. rewrite !lookup_insert_eq. simpl.
  rewrite !insert_insert_eq. do 2 f_equal.
  - f_equal. set_solver.
  - f_equal. set_solver.
Qed.

Lemma add_edge_twice_witness :
  add_edge "a" "b" (of_res (add_edge "a" "b" (ids ["a"; "b"]))) =
    Ok (of_res (add_edge "a" "b" (ids ["a"; "b"]))).
Proof.
  apply (add_edge_twice "a" "b" (ids ["a"; "b"])).
  - apply GraphClaims.ids_wf.
  - reflexivity.
Defined.

(** X4. [get_node] raises [KeyError] exactly for the ids that are not
    registered; [add_node] makes it return the node added under that
    node's id and leaves it alone elsewhere, and the length of the graph
    grows by one for a fresh id only. *)
Theorem get_node_registry {Node} (node_id : Node → string) node nid
    (g : Graph.t (Node:=Node)) :
  (get_node g nid = Raise (KeyError nid) ↔ nid ∉ node_ids g) ∧
  ((∃ n, get_node g nid = Ok n) ↔ nid ∈ node_ids g) ∧
  get_node (add_node node_id node g) nid =
    (if decide (nid = node_id node) then Ok node else get_node g nid) ∧
  len (add_node node_id node g) =
    (if decide (node_id node ∈ node_ids g) then len g else len g + 1).
Proof.
  pose proof (dict_get_is_Some nid (_nodes g)) as Hsome.
  unfold get_node, node_ids. split; [|split; [|split]].
  - destruct (dict_get nid (_nodes g)) as [n|].
    + split; [done|]. intros Hn. exfalso. apply Hn, Hsome. eauto.
    + split; [|done]. intros _ Hin. apply Hsome in Hin. by destruct Hin.
  - destruct (dict_get nid (_nodes g)) as [n|].
    + split; [|eauto]. intros _. apply Hsome. eauto.
    + split; [by intros [? ?]|]. intros Hin. apply Hsome in Hin.
      by destruct Hin.
  - simpl. destruct (decide (nid = node_id node)) as [->|Hne].
    + by rewrite dict_get_set.
    + by rewrite dict_get_set_ne.
  - unfold len. simpl.
    rewrite <- !(length_fmap fst), dict_set_fst.
    destruct (decide (node_id node ∈ (_nodes g).*1)); [done|].
    rewrite length_app. simpl. lia.
Qed.

(** X5. The invariant of the graphs built through [add_node] and [add_edge]:
    ids are registered once, each node is stored under its own id, the two
    adjacency maps mirror each other, edges join registered nodes only,
    and an id that is not registered has neither predecessors nor
    successors. *)
Theorem built_invariant {Node} (node_id : Node → string)
    (g : Graph.t (Node:=Node)) :
  built node_id g →
  NoDup (node_ids g) ∧
  (∀ nid n, get_node g nid = Ok n → node_id n = nid) ∧
  (∀ u v, v ∈ successors g u ↔ u ∈ predecessors g v) ∧
  (∀ u v, v ∈ successors g u → u ∈ node_ids g ∧ v ∈ node_ids g) ∧
  (∀ v, v ∉ node_ids g → predecessors g v = ∅ ∧ successors g v = ∅).
Proof.
  intros Hb. pose proof (built_wf node_id g Hb) as Hwf.
  split; [apply (wf_nodup g Hwf)|]. split; [|split; [|split]].
  - assert (∀ nid n, dict_get nid (_nodes g) = Some n → node_id n = nid)
      as Hid.
    { clear Hwf. induction Hb as [|node g Hb IH|source target g g' Hb IH Hadd].
      - done.
      - intros nid n. simpl. by apply dict_get_set_id.
      - destruct (add_edge_adjacency source target g g'
                    (built_wf node_id g Hb) Hadd) as [-> _]. done. }
    intros nid n. unfold get_node.
    destruct (dict_get nid (_nodes g)) as [m|] eqn:Hm; [|done].
    intros [= <-]. by apply Hid.
  - apply (wf_mirror g Hwf).
  - intros u v. by apply successors_registered.
  - intros v Hv. unfold predecessors, successors.
    rewrite <- (wf_reverse_dom g Hwf), <- eq_None_not_Some in Hv.
    pose proof Hv as Hv'. rewrite eq_None_not_Some, (wf_reverse_dom g Hwf),
      <- (wf_edges_dom g Hwf), <- eq_None_not_Some in Hv'.
    by rewrite Hv, Hv'.
Qed.

Lemma tagged_edge_built : built fst tagged_edge.
Proof.
  apply (built_add_edge fst "a" "b"
           (add_node fst ("b", 0%nat) (add_node fst ("a", 1%nat) Graph.empty))).
  - apply built_add_node, built_add_node, built_empty.
  - reflexivity.
Qed.

Lemma built_invariant_witness :
  NoDup (node_ids tagged_edge) ∧
  (∀ nid n, get_node tagged_edge nid = Ok n → fst n = nid) ∧
  (∀ u v, v ∈ successors tagged_edge u ↔ u ∈ predecessors tagged_edge v) ∧
  (∀ u v, v ∈ successors tagged_edge u →
          u ∈ node_ids tagged_edge ∧ v ∈ node_ids tagged_edge) ∧
  (∀ v, v ∉ node_ids tagged_edge →
        predecessors tagged_edge v = ∅ ∧ successors tagged_edge v = ∅).
Proof. apply (built_invariant fst tagged_edge), tagged_edge_built. Defined.

(** X6. [levels] never emits an empty group, so there are at most as many
    groups as nodes; the first group lists the nodes without predecessors
    in the order of their registration. *)
Theorem levels_groups_nonempty {Node} (g : Graph.t (Node:=Node)) lv :
  wf g → levels g = Ok lv →
  Forall (λ level, level ≠ []) lv ∧
  (length lv ≤ length (node_ids g))%nat ∧
  head lv =
    (if decide (node_ids g = []) then None
     else Some (filter (λ v, predecessors g v = ∅) (node_ids g))).
Proof.
  intros Hwf Hlv.
  destruct (levels_groups g lv Hwf Hlv) as [Hne Hhead].
  destruct (levels_outcome g Hwf) as [(lv' & Hok & Hperm & _)|(n & Hr & _)];
    [|congruence].
  assert (lv' = lv) as -> by congruence.
  split; [done|]. split.
  - rewrite <- Hperm. by apply concat_nonempty_length.
  - rewrite (init_queue g Hwf) in Hhead.
    destruct (filter _ (node_ids g)) as [|r roots] eqn:Hroots.
    + (* no root: nothing was emitted, so nothing is registered *)
      destruct lv as [|l lv]; [|done]. simpl in Hperm.
      apply Permutation_nil_l in Hperm. by rewrite decide_True.
    + rewrite decide_False; [done|]. intros Hnil. by rewrite Hnil in Hroots.
Qed.

Lemma levels_groups_nonempty_witness :
  Forall (λ level, level ≠ []) [["a"]; ["c"; "b"]; ["d"]] ∧
  (length [["a"]; ["c"; "b"]; ["d"]] ≤ length (node_ids diamond))%nat ∧
  head [["a"]; ["c"; "b"]; ["d"]] =
    (if decide (node_ids diamond = []) then None
     else Some (filter (λ v, predecessors diamond v = ∅) (node_ids diamond))).
Proof.
  apply (levels_groups_nonempty diamond).
  - apply GraphClaims.diamond_wf.
  - vm_compute. reflexivity.
Defined.

(** X7. A graph without edges has one group, the registered ids in the order
    of their registration. *)
Theorem levels_without_edges {Node} (g : Graph.t (Node:=Node)) :
  wf g → node_ids g ≠ [] → (∀ v, predecessors g v = ∅) →
  levels g = Ok [node_ids g].
Proof.
  intros Hwf Hne Hno.
  destruct (levels_outcome g Hwf) as [(lv & Hok & Hperm & _)|(n & _ & _ & Hc)].
  - destruct (levels_groups g lv Hwf Hok) as [Hall Hhead].
    rewrite (init_queue g Hwf) in Hhead.
    assert (filter (λ v, predecessors g v = ∅) (node_ids g) = node_ids g)
      as Hflt.
    { clear -Hno. induction (node_ids g) as [|v l IH]; [done|].
      rewrite filter_cons, decide_True by done. by rewrite IH. }
    rewrite Hflt in Hhead.
    destruct (node_ids g) as [|v l] eqn:Hids; [done|].
    destruct lv as [|l0 lv]; [done|]. injection Hhead as ->.
    destruct lv as [|l1 lv]; [exact Hok|].
    (* a second group would hold a node twice *)
    exfalso. apply Forall_cons in Hall as [_ Hall].
    apply Forall_cons in Hall as [Hl1 _].
    apply Permutation_length in Hperm. simpl in Hperm.
    rewrite !length_app in Hperm. destruct l1; [done|]. simpl in Hperm. lia.
  - exfalso. destruct Hc as [v Hv].
    assert (∃ u, edge g u v) as [u Hu].
    { clear -Hv. induction Hv; eauto. }
    apply (wf_mirror g Hwf) in Hu. rewrite Hno in Hu.
    by apply elem_of_empty in Hu.
Qed.

Lemma ids_no_predecessors l v : predecessors (ids l) v = ∅.
Proof.
  unfold ids.
  assert (predecessors (Graph.empty (Node:=string)) v = ∅) as Hempty by done.
  revert Hempty. generalize (Graph.empty (Node:=string)).
  induction l as [|n l IH]; intros g Hg; simpl; [done|].
  apply IH. unfold predecessors, add_node. simpl.
  by rewrite setdefault_lookup.
Qed.

Lemma levels_without_edges_witness :
  levels (ids ["b"; "a"; "c"]) = Ok [node_ids (ids ["b"; "a"; "c"])].
Proof.
  apply (levels_without_edges (ids ["b"; "a"; "c"])).
  - apply GraphClaims.ids_wf.
  - done.
  - apply ids_no_predecessors.
Defined.

(** X8. Nodes of one group are independent: no edge joins two nodes of the
    same group, in either direction. *)
Theorem levels_group_independent {Node} (g : Graph.t (Node:=Node)) lv i level
    u v :
  wf g → levels g = Ok lv → lv !! i = Some level → u ∈ level → v ∈ level →
  ¬ edge g u v ∧ ¬ edge g v u.
Proof.
  intros Hwf Hlv Hi Hu Hv.
  destruct (levels_outcome g Hwf) as [(lv' & Hok & Hperm & Hinv)|(n & Hr & _)];
    [|congruence].
  assert (lv' = lv) as -> by congruence.
  assert (Hnd : NoDup (concat lv)) by (rewrite Hperm; apply (wf_nodup g Hwf)).
  pose proof (group_index_lookup lv u i level Hnd Hi Hu) as Eu.
  pose proof (group_index_lookup lv v i level Hnd Hi Hv) as Ev.
  split; intros Hedge;
    destruct (levels_inv_edge g lv _ _ Hwf Hperm Hinv Hedge)
      as (i1 & i2 & H1 & H2 & Hlt);
    simplify_eq; lia.
Qed.

Lemma levels_group_independent_witness :
  ¬ edge diamond "b" "c" ∧ ¬ edge diamond "c" "b".
Proof.
  apply (levels_group_independent diamond [["a"]; ["c"; "b"]; ["d"]] 1
           ["c"; "b"] "b" "c").
  - apply GraphClaims.diamond_wf.
  - vm_compute. reflexivity.
  - reflexivity.
  - by right; left.
  - by left.
Defined.

(** X9. [add_edge] does not reject an edge from a node to itself; the
    dependency of a node on itself surfaces when [levels] is read, as a
    [CycleError]. *)
Theorem self_loop_cycle_error {Node} (g : Graph.t (Node:=Node)) v :
  wf g → v ∈ node_ids g →
  ∃ g' n, add_edge v v g = Ok g' ∧
          levels g' = Raise (CycleError n (len g')).
Proof.
  intros Hwf Hv.
  destruct (add_edge_registered v v g Hwf Hv Hv) as (s & p & Hs & Hp & Hadd).
  eexists _. pose proof (add_edge_wf v v g _ Hwf Hadd) as Hwf'.
  destruct (add_edge_adjacency v v g _ Hwf Hadd) as (_ & Hsucc & _).
  destruct (levels_outcome _ Hwf') as [(lv & Hok & Hperm & Hinv)|(n & Hr & _)].
  - exfalso. apply (levels_ok_acyclic _ lv Hwf' Hperm Hinv v).
    apply tc_once. unfold edge. rewrite Hsucc, decide_True by done.
    set_solver.
  - exists n. split; [exact Hadd | exact Hr].
Qed.

Lemma self_loop_cycle_error_witness :
  ∃ g' n, add_edge "a" "a" (ids ["a"; "b"]) = Ok g' ∧
          levels g' = Raise (CycleError n (len g')).
Proof.
  apply (self_loop_cycle_error (ids ["a"; "b"]) "a").
  - apply GraphClaims.ids_wf.
  - by left.
Defined.

Lemma levels_ext {Node} (g g' : Graph.t (Node:=Node)) :
  node_ids g = node_ids g' → _edges g = _edges g' → _reverse g = _reverse g' →
  levels g = levels g'.
Proof.
  intros Hids He Hr.
  assert (Hsucc : ∀ u, successors g u = successors g' u)
    by (intros u; unfold successors; by rewrite He).
  assert (Hlen : length (_nodes g) = length (_nodes g')).
  { rewrite <- !(length_fmap fst). by fold (node_ids g); rewrite Hids. }
  assert (Hpop : ∀ level st, pop g level st = pop g' level st).
  { intros level st. unfold pop. destruct (queue st); [done|].
    by rewrite Hsucc. }
  assert (Hdrain : ∀ n level st, drain g n level st = drain g' n level st).
  { induction n as [|n IH]; intros level st; simpl; [done|].
    rewrite Hpop. destruct (pop g' level st) as [[lvl s']| |]; simpl; auto. }
  assert (Hwhile : ∀ fuel lv st,
            while_queue fuel g lv st = while_queue fuel g' lv st).
  { induction fuel as [|fuel IH]; intros lv st; simpl.
    - done.
    - destruct (queue st) eqn:Hq; [done|]. rewrite Hdrain.
      destruct (drain g' _ [] st) as [[lvl s']| |]; simpl; auto. }
  assert (Hinit : init g = init g').
  { unfold init, init_in_degree, predecessors. by rewrite Hids, Hr. }
  unfold levels, len. by rewrite Hlen, Hinit, Hwhile.
Qed.

(** X10. Replacing a registered node by another one with the same id does not
    change the levels. *)
Theorem levels_reregister {Node} (node_id : Node → string) node
    (g : Graph.t (Node:=Node)) :
  wf g → node_id node ∈ node_ids g →
  levels (add_node node_id node g) = levels g.
Proof.
  intros Hwf Hin. apply levels_ext.
  - unfold add_node, node_ids. simpl.
    by rewrite dict_set_fst, decide_True.
  - simpl. apply setdefault_present. by apply (wf_edges_dom g Hwf).
  - simpl. apply setdefault_present. by apply (wf_reverse_dom g Hwf).
Qed.

Lemma levels_reregister_witness :
  levels (add_node fst ("a", 2%nat) tagged_edge) = levels tagged_edge.
Proof.
  apply (levels_reregister fst ("a", 2%nat) tagged_edge).
  - apply GraphClaims.tagged_edge_wf.
  - by left.
Defined.

(** X11. The order in which two edges are added does not matter. *)
Theorem add_edge_comm {Node} s1 t1 s2 t2 (g g1 g12 : Graph.t (Node:=Node)) :
  wf g → add_edge s1 t1 g = Ok g1 → add_edge s2 t2 g1 = Ok g12 →
  ∃ g2, add_edge s2 t2 g = Ok g2 ∧ add_edge s1 t1 g2 = Ok g12.
Proof.
  intros Hwf H1 H12.
  pose proof (add_edge_wf s1 t1 g g1 Hwf H1) as Hwf1.
  destruct (proj1 (proj2 (proj2 (add_edge_outcome s1 t1 g Hwf)))
              (ex_intro _ g1 H1)) as [Hs1 Ht1].
  destruct (proj1 (proj2 (proj2 (add_edge_outcome s2 t2 g1 Hwf1)))
              (ex_intro _ g12 H12)) as [Hs2 Ht2].
  destruct (add_edge_adjacency s1 t1 g g1 Hwf H1) as (Hn1 & _).
  unfold node_ids in Hs2, Ht2. rewrite Hn1 in Hs2, Ht2.
  destruct (add_edge_registered s2 t2 g Hwf Hs2 Ht2) as (S2 & P2 & _ & _ & H2).
  match type of H2 with _ = Ok ?x => set (g2 := x) in * end.
  exists g2. split; [exact H2|].
  pose proof (add_edge_wf s2 t2 g g2 Hwf H2) as Hwf2.
  destruct (add_edge_registered s1 t1 g2 Hwf2 Hs1 Ht1)
    as (S1' & P1' & _ & _ & H21).
  match type of H21 with _ = Ok ?x => set (g21 := x) in * end.
  rewrite H21. f_equal.
  (* both orders give the same three components *)
  destruct (add_edge_adjacency s1 t1 g g1 Hwf H1) as (_ & Hsu1 & Hpr1).
  destruct (add_edge_adjacency s2 t2 g1 g12 Hwf1 H12) as (Hn12 & Hsu12 & Hpr12).
  destruct (add_edge_adjacency s2 t2 g g2 Hwf H2) as (Hn2 & Hsu2 & Hpr2).
  destruct (add_edge_adjacency s1 t1 g2 g21 Hwf2 H21) as (Hn21 & Hsu21 & Hpr21).
  assert (Hdom_e : ∀ u, is_Some (_edges g21 !! u) ↔ is_Some (_edges g12 !! u)).
  { intros u. rewrite (wf_edges_dom g12 (add_edge_wf _ _ _ _ Hwf1 H12)).
    rewrite (wf_edges_dom g21 (add_edge_wf _ _ _ _ Hwf2 H21)).
    unfold node_ids. by rewrite Hn21, Hn12, Hn1, Hn2. }
  assert (Hdom_r : ∀ u, is_Some (_reverse g21 !! u) ↔ is_Some (_reverse g12 !! u)).
  { intros u. rewrite (wf_reverse_dom g12 (add_edge_wf _ _ _ _ Hwf1 H12)).
    rewrite (wf_reverse_dom g21 (add_edge_wf _ _ _ _ Hwf2 H21)).
    unfold node_ids. by rewrite Hn21, Hn12, Hn1, Hn2. }
  assert (He : _edges g21 = _edges g12).
  { apply map_eq. intros u. specialize (Hsu21 u). specialize (Hsu12 u).
    rewrite Hsu2 in Hsu21. rewrite Hsu1 in Hsu12.
    unfold successors in Hsu21, Hsu12 at 1.
    specialize (Hdom_e u).
    destruct (_edges g21 !! u) as [x|], (_edges g12 !! u) as [y|];
      simpl in *; try done.
    - f_equal. rewrite Hsu21, Hsu12.
      repeat case_decide; set_solver.
    - destruct Hdom_e as [Hd _]. by destruct Hd.
    - destruct Hdom_e as [_ Hd]. by destruct Hd. }
  assert (Hr : _reverse g21 = _reverse g12).
  { apply map_eq. intros u. specialize (Hpr21 u). specialize (Hpr12 u).
    rewrite Hpr2 in Hpr21. rewrite Hpr1 in Hpr12.
    unfold predecessors in Hpr21, Hpr12 at 1.
    specialize (Hdom_r u).
    destruct (_reverse g21 !! u) as [x|], (_reverse g12 !! u) as [y|];
      simpl in *; try done.
    - f_equal. rewrite Hpr21, Hpr12.
      repeat case_decide; set_solver.
    - destruct Hdom_r as [Hd _]. by destruct Hd.
    - destruct Hdom_r as [_ Hd]. by destruct Hd. }
  destruct g12 as [n12 e12 r12], g21 as [n21 e21 r21]. simpl in *.
  congruence.
Qed.

Lemma add_edge_comm_witness :
  ∃ g2, add_edge "a" "c" (ids ["a"; "b"; "c"]) = Ok g2 ∧
        add_edge "a" "b" g2 =
          Ok (of_res (add_edge "a" "c"
                (of_res (add_edge "a" "b" (ids ["a"; "b"; "c"]))))).
Proof.
  apply (add_edge_comm "a" "b" "a" "c" (ids ["a"; "b"; "c"])
           (of_res (add_edge "a" "b" (ids ["a"; "b"; "c"])))).
  - apply GraphClaims.ids_wf.
  - reflexivity.
  - reflexivity.
Defined.

End GraphFacts.

(** ** More about core/context.py *)

Module ContextFacts.
Import Context ContextProofs.

#[local] Instance qualified_Inj ns : Inj (=) (=) (qualified ns).
Proof. intros k1 k2. apply qualified_inj. Qed.

Lemma merge_data ns m ctx :
  _data (merge ns m ctx) = kmap (qualified ns) m ∪ _data ctx.
Proof.
  apply map_eq. intros key. rewrite lookup_union.
  destruct (kmap (qualified ns) m !! key) as [v|] eqn:Hk.
  - apply lookup_kmap_Some in Hk as (k & -> & Hk); [|apply qualified_Inj].
    rewrite (merge_written ns m ctx k v Hk).
    by destruct (_data ctx !! qualified ns k).
  - rewrite merge_other.
    + by destruct (_data ctx !! key).
    + intros k [v Hv] <-.
      rewrite (lookup_kmap (qualified ns)) in Hk by apply qualified_Inj.
      congruence.
Qed.

Lemma t_eq (ctx1 ctx2 : t) : _data ctx1 = _data ctx2 → ctx1 = ctx2.
Proof. destruct ctx1, ctx2. simpl. by intros ->. Qed.

(** *** The regular expression *)

Lemma brace_free_append a b :
  brace_free (a +:+ b) = brace_free a && brace_free b.
Proof.
  induction a as [|c a IH]; simpl; [done|]. by rewrite IH, andb_assoc.
Qed.

Lemma qualified_not_empty ns k : qualified ns k ≠ "".
Proof. unfold qualified. by destruct ns. Qed.

Lemma sub_identity repl : ∀ s,
  (∀ pre key post, s = pre +:+ "{" +:+ key +:+ "}" +:+ post →
     repl key = "{" +:+ key +:+ "}") →
  _TEMPLATE_RE_sub repl s = s.
Proof.
  intros s. remember (String.length s) as n eqn:Hn.
  revert s Hn. induction (lt_wf n) as [n _ IH]. intros s -> Hrepl.
  rewrite sub_unfold.
  destruct (_TEMPLATE_RE_match s) as [[key rest]|] eqn:Hm.
  - apply match_Some in Hm as [-> _].
    rewrite (Hrepl "" key rest) by done.
    rewrite (IH (String.length rest)); [by rewrite !append_assoc | | done |].
    + simpl. rewrite !length_append. simpl. lia.
    + intros pre k post ->.
      apply (Hrepl ("{" +:+ key +:+ "}" +:+ pre) k post).
      by rewrite !append_assoc.
  - destruct s as [|c s]; [done|]. f_equal.
    apply (IH (String.length s)); [simpl; lia | done |].
    intros pre k post ->. by apply (Hrepl (String c pre) k post).
Qed.

(** X12. The store: a value that was [set] is what [get] returns and makes the
    key a member, whatever the default; other keys are not touched; setting
    a key again overwrites; [get] of a key that is not a member returns
    the default. *)
Theorem set_get_contains ctx key value value' key' d :
  get (set key value ctx) key d = value ∧
  contains (set key value ctx) key = true ∧
  (key' ≠ key →
     get (set key value ctx) key' d = get ctx key' d ∧
     contains (set key value ctx) key' = contains ctx key') ∧
  set key value' (set key value ctx) = set key value' ctx ∧
  (contains ctx key = false → get ctx key d = d) ∧
  get (new None) key d = d.
Proof.
  unfold get, contains, set. simpl.
  rewrite lookup_insert_eq. split; [done|].
  split; [by apply bool_decide_eq_true_2|]. split; [|split; [|split]].
  - intros Hne. by rewrite lookup_insert_ne.
  - by rewrite insert_insert_eq.
  - intros Hc. apply bool_decide_eq_false in Hc.
    destruct (_data ctx !! key); [|done]. exfalso. eauto.
  - done.
Qed.

(** X13. [merge] as one step: the context afterwards is the one before,
    overridden at the keys [namespace.k] by the outputs. It does not
    depend on the order in which the outputs are visited, and no key is
    lost. *)
Theorem merge_snapshot namespace outputs ctx :
  snapshot (merge namespace outputs ctx) =
    kmap (qualified namespace) outputs ∪ snapshot ctx ∧
  dom (snapshot ctx) ⊆ dom (snapshot (merge namespace outputs ctx)) ∧
  ∀ k, contains (merge namespace outputs ctx) (qualified namespace k) =
         bool_decide (is_Some (outputs !! k)) ||
         contains ctx (qualified namespace k).
Proof.
  unfold snapshot. rewrite merge_data. split; [done|]. split.
  - rewrite dom_union. set_solver.
  - intros k. unfold contains. rewrite merge_data, lookup_union.
    rewrite (lookup_kmap (qualified namespace)) by apply qualified_Inj.
    destruct (outputs !! k) as [v|], (_data ctx !! qualified namespace k);
      simpl; repeat case_bool_decide; try done;
      exfalso; eauto; by match goal with H : is_Some None |- _ => destruct H end.
Qed.

(** X14. Merges under one namespace compose: merging [m1] and then [m2] is
    merging [m2] overriding [m1]; merging nothing changes nothing, and
    merging the same outputs again changes nothing. *)
Theorem merge_compose namespace (m1 m2 : gmap string Value) ctx :
  merge namespace m2 (merge namespace m1 ctx) = merge namespace (m2 ∪ m1) ctx ∧
  merge namespace ∅ ctx = ctx ∧
  merge namespace m1 (merge namespace m1 ctx) = merge namespace m1 ctx.
Proof.
  split; [|split]; apply t_eq; rewrite !merge_data.
  - rewrite (kmap_union (qualified namespace)) by apply qualified_Inj.
    by rewrite (assoc (∪)).
  - by rewrite kmap_empty, (left_id ∅ (∪)).
  - by rewrite (assoc (∪)), (idemp (∪)).
Qed.

(** X15. A template is returned as it is when no key that stands between
    braces in it is in the context; so it is for every template on an
    empty context. *)
Theorem format_template_missing (str : Value → string) ctx template :
  (∀ pre key post, template = pre +:+ "{" +:+ key +:+ "}" +:+ post →
     _data ctx !! key = None) →
  format_template str ctx template = template.
Proof.
  intros Hmissing. unfold format_template. apply sub_identity.
  intros pre key post Heq. unfold _replace.
  by rewrite (Hmissing pre key post Heq).
Qed.

(** X16. What a node publishes can be used in a template: after
    [merge namespace outputs], a placeholder for [namespace.k] is replaced
    by the stringified output stored under [k], provided neither the
    namespace nor the key holds a brace. *)
Theorem format_template_merged (str : Value → string) ctx namespace outputs
    k v pre post :
  brace_free namespace = true → brace_free k = true →
  outputs !! k = Some v →
  format_template str (merge namespace outputs ctx)
    (pre +:+ "{" +:+ qualified namespace k +:+ "}" +:+ post) =
  format_template str (merge namespace outputs ctx) pre +:+ str v +:+
  format_template str (merge namespace outputs ctx) post.
Proof.
  intros Hns Hk Hv. unfold format_template.
  change (pre +:+ "{" +:+ qualified namespace k +:+ "}" +:+ post)
    with (pre +:+ String "{" (qualified namespace k +:+ "}" +:+ post)).
  rewrite sub_append_open.
  change (String "{" (qualified namespace k +:+ "}" +:+ post))
    with ("{" +:+ qualified namespace k +:+ "}" +:+ post).
  rewrite sub_placeholder.
  - unfold _replace. by rewrite (merge_written namespace outputs ctx k v Hv).
  - apply qualified_not_empty.
  - unfold qualified. rewrite !brace_free_append, Hns, Hk. done.
Qed.

Lemma format_template_merged_witness :
  format_template str_scalar (merge "step_1" {["output" := VStr "data"]} (new None))
    ("got: " +:+ "{" +:+ qualified "step_1" "output" +:+ "}" +:+ "") =
  format_template str_scalar
    (merge "step_1" {["output" := VStr "data"]} (new None)) "got: " +:+
  str_scalar (VStr "data") +:+
  format_template str_scalar
    (merge "step_1" {["output" := VStr "data"]} (new None)) "".
Proof.
  apply (format_template_merged str_scalar (new None) "step_1"
           {["output" := VStr "data"]} "output" (VStr "data") "got: " "").
  - reflexivity.
  - reflexivity.
  - reflexivity.
Defined.

Lemma format_template_missing_witness :
  format_template str_scalar ctx_step "{a}!" = "{a}!".
Proof.
  apply (format_template_missing str_scalar ctx_step "{a}!").
  intros pre key post Heq.
  change (_data ctx_step) with
    ({["step_1.output" := VStr "data"]} : gmap string Value).
  apply lookup_singleton_ne. intros <-.
  do 4 (destruct pre as [|? pre]; simpl in Heq;
        [discriminate Heq | injection Heq as _ Heq]).
  destruct pre; discriminate Heq.
Defined.

End ContextFacts.

(** ** More about nodes/control.py *)

Section control_facts.
Context `{World W}.

Lemma absorb_passes pass_key outcome elapsed :
  passes pass_key outcome →
  truthy (default (VBool false)
            (outputs (metadata_setdefault "duration_ms" elapsed
                        (absorb outcome)) !! pass_key)) = true.
Proof.
  intros Hp.
  destruct (metadata_setdefault_fields "duration_ms" elapsed (absorb outcome))
    as (_ & -> & _).
  by destruct outcome as [r|msg].
Qed.

Lemma attempts_range_cons N :
  1 ≤ N → ∃ rest, attempts_range N = 1 :: rest.
Proof.
  intros HN. unfold attempts_range.
  destruct (Z.to_nat N) as [|m] eqn:Hm; [lia|]. simpl. eauto.
Qed.

(** X17. A retry node whose [max_retries] is not positive makes no attempt: it
    executes neither node, leaves the state alone and returns FAILURE
    after 0 attempts. *)
Theorem retry_node_no_attempts (path : list Role) (node_id : string)
    (verify_node fix_node : Node W) (N : Z) (pass_key : string) :
  N ≤ 0 →
  ∀ st,
    finish (run path (RetryNode node_id verify_node fix_node N pass_key)) st =
      (st, Return {| status := FAILURE;
                     outputs := {["passed" := VBool false;
                                  "attempts" := VInt 0]};
                     error := Some "Verification failed after 0 attempts";
                     metadata := {["attempts" := VList []]} |}).
Proof.
  intros HN st. cbn [run]. unfold attempts_range.
  replace (Z.to_nat N) with 0%nat by lia. reflexivity.
Qed.

(** X18. A retry node with [max_retries ≥ 1] whose verify node yields a truthy
    [pass_key] returns SUCCESS after one attempt, whatever the
    interleaving: its outputs are those of the verify result, completed by
    [passed: True] and [attempts: 1] for the keys that the verify result
    does not define. Run on its own, it executes verify once and fix
    never, and merges the outputs of the verify result into the context
    under [node_id.verify]. *)
Theorem retry_node_passes_first (path : list Role) (node_id : string)
    (verify_node fix_node : Node W) (N : Z) (pass_key : string) :
  1 ≤ N →
  obeys (λ _ _, True) (λ _ outcome, passes pass_key outcome)
        (run (path ++ [Verify]) verify_node) →
  let passed (last_verify : NodeResult) : NodeResult :=
    {| status := SUCCESS;
       outputs := outputs last_verify ∪
                  {["passed" := VBool true; "attempts" := VInt 1]};
       error := None;
       metadata :=
         {["attempts" :=
             VList [VDict [("attempt", VInt 1);
                           ("passed",
                            default (VBool false)
                              (outputs last_verify !! pass_key));
                           ("error", opt_str (error last_verify))]]]} |} in
  obeys (λ _ _, True) (λ _ out, ∃ last_verify, out = Return (passed last_verify))
        (run path (RetryNode node_id verify_node fix_node N pass_key)) ∧
  ∀ st, ∃ st1 last_verify new,
    finish (execute (path ++ [Verify]) verify_node) st
      = (st1, Return last_verify) ∧
    finish (run path (RetryNode node_id verify_node fix_node N pass_key)) st
      = (with_ctx (Context.merge (node_id +:+ ".verify") (outputs last_verify))
                  st1,
         Return (passed last_verify)) ∧
    log st1 = log st ++ new ∧
    filter (direct path) new = [Executed (path ++ [Verify])].
Proof.
  intros HN Hverify passed.
  destruct (attempts_range_cons N HN) as [rest Hrange].
  split.
  - cbn [run]. rewrite Hrange. cbn [retry_loop]. unfold bind_exn.
    eapply (obeys_bind _ (λ out, ∃ lv, out = Return lv ∧
              truthy (default (VBool false) (outputs lv !! pass_key)) = true));
      [done| |].
    + eapply obeys_mono;
        [| |apply (obeys_execute_body (path ++ [Verify]) _ (passes pass_key))].
      * done.
      * intros _ out (outcome & elapsed & Hp & ->). eexists. split; [done|].
        by apply absorb_passes.
      * eapply obeys_mono;
          [| |apply (obeys_conj _ _ _ _ _
                       (run_appends verify_node (path ++ [Verify])) Hverify)];
          naive_solver.
    + intros out (lv & -> & Hpass).
      eapply (obeys_bind _ (λ _, True)); [done| |].
      * by apply obeys_atomic.
      * intros [] _. rewrite Hpass. apply obeys_ret; [done|].
        intros _. by exists lv.
  - intros st.
    destruct (finish_execute (path ++ [Verify]) verify_node st)
      as (st1 & outcome & inner & Hrun & Hexec & Hlog & Hin).
    assert (Hpass : passes pass_key outcome).
    { pose proof (obeys_finish _ _ _ (λ _ _ _ _ _, I) Hverify
                    (log_event (Executed (path ++ [Verify])) st)) as [_ Hp].
      by rewrite Hrun in Hp. }
    eexists st1, _, (Executed (path ++ [Verify]) :: inner).
    split; [exact Hexec|]. split; [|split; [exact Hlog|]].
    + cbn [run]. rewrite Hrange. cbn [retry_loop]. unfold bind_exn.
      rewrite finish_bind. fold (execute (path ++ [Verify]) verify_node).
      rewrite Hexec. cbn zeta iota beta.
      rewrite finish_bind, finish_atomic. cbn zeta iota beta.
      rewrite (absorb_passes pass_key outcome _ Hpass).
      by rewrite finish_ret.
    + rewrite filter_cons, decide_True by (by left).
      f_equal. by eapply filter_direct_inner.
Qed.

Section retry_any.
Context (path : list Role) (node_id : string) (verify_node fix_node : Node W)
        (max_retries : Z) (pass_key : string).

Lemma finish_any role (n : Node W) st :
  ∃ st' r inner,
    finish (execute (path ++ [role]) n) st = (st', Return r) ∧
    log st' = log st ++ Executed (path ++ [role]) :: inner ∧
    filter (direct path) inner = [].
Proof.
  destruct (finish_execute (path ++ [role]) n st)
    as (st' & outcome & inner & Hrun & Hexec & Hlog & Hin).
  eexists st', _, inner. split; [exact Hexec|]. split; [done|].
  by eapply filter_direct_inner.
Qed.

(** The loop for any verify and fix nodes: it ends after [k] attempts,
    with verify executed [k] times and fix [k - 1] times, in turn. *)
Lemma finish_retry_loop_any m : ∀ i last_verify attempts st,
  max_retries = Z.of_nat (i + S m) →
  ∃ st' result new k,
    finish (retry_loop node_id (execute (path ++ [Verify]) verify_node)
              (execute (path ++ [Fix]) fix_node) max_retries pass_key
              ((λ i, Z.of_nat i) <$> seq (S i) (S m)) last_verify attempts) st
      = (st', Return result) ∧
    log st' = log st ++ new ∧
    (1 ≤ k ≤ S m)%nat ∧
    filter (direct path) new =
      concat (replicate (k - 1)
                [Executed (path ++ [Verify]); Executed (path ++ [Fix])]) ++
      [Executed (path ++ [Verify])] ∧
    (status result = SUCCESS ∨ status result = FAILURE ∧ k = S m).
Proof.
  induction m as [|m IH]; intros i last_verify attempts st HN.
  - destruct (finish_any Verify verify_node st)
      as (st1 & lv & inner & Hv & Hlog & Hflt).
    cbn [seq fmap list_fmap retry_loop]. unfold bind_exn.
    rewrite finish_bind, Hv. rewrite finish_bind, finish_atomic.
    cbn beta iota zeta.
    destruct (truthy (default (VBool false) (outputs lv !! pass_key))).
    + rewrite finish_ret.
      eexists _, _, (Executed (path ++ [Verify]) :: inner), 1%nat.
      split; [done|]. split; [done|]. split; [lia|]. split; [|by left].
      rewrite filter_cons, decide_True by (by left). by rewrite Hflt.
    + rewrite bool_decide_false by lia. cbn [retry_loop]. rewrite finish_ret.
      eexists _, _, (Executed (path ++ [Verify]) :: inner), 1%nat.
      split; [done|]. split; [done|]. split; [lia|]. split; [|by right].
      rewrite filter_cons, decide_True by (by left). by rewrite Hflt.
  - destruct (finish_any Verify verify_node st)
      as (st1 & lv & inner & Hv & Hlog & Hflt).
    change (seq (S i) (S (S m))) with (S i :: seq (S (S i)) (S m)).
    rewrite fmap_cons. cbn [retry_loop]. unfold bind_exn.
    rewrite finish_bind, Hv. rewrite finish_bind, finish_atomic.
    cbn beta iota zeta.
    destruct (truthy (default (VBool false) (outputs lv !! pass_key))).
    + rewrite finish_ret.
      eexists _, _, (Executed (path ++ [Verify]) :: inner), 1%nat.
      split; [done|]. split; [done|]. split; [lia|]. split; [|by left].
      rewrite filter_cons, decide_True by (by left). by rewrite Hflt.
    + rewrite bool_decide_true by lia.
      set (st1' := with_ctx (Context.merge (node_id +:+ ".verify")
                               (outputs lv)) st1).
      destruct (finish_any Fix fix_node st1')
        as (st2 & fr & inner2 & Hf & Hlog2 & Hflt2).
      rewrite finish_bind, Hf. rewrite finish_bind, finish_atomic.
      cbn beta iota zeta.
      set (st2' := with_ctx (Context.merge (node_id +:+ ".fix")
                               (outputs fr)) st2).
      match goal with
      | |- context [retry_loop _ _ _ _ _ _ ?lvo ?att] =>
          destruct (IH (S i) lvo att st2')
            as (st' & result & new & k & Hrun & Hlog' & Hk & Hflt' & Hres);
            [lia|]
      end.
      rewrite Hrun.
      eexists st', result,
        (Executed (path ++ [Verify]) :: inner ++
         Executed (path ++ [Fix]) :: inner2 ++ new), (S k).
      split; [done|]. split; [|split; [lia|split]].
      * rewrite Hlog'. unfold st2'. simpl. rewrite Hlog2. unfold st1'. simpl.
        rewrite Hlog. rewrite <- ?app_assoc. simpl. rewrite <- ?app_assoc.
        done.
      * change (Executed (path ++ [Verify]) :: inner ++
                Executed (path ++ [Fix]) :: inner2 ++ new)
          with ([Executed (path ++ [Verify])] ++ inner ++
                [Executed (path ++ [Fix])] ++ inner2 ++ new).
        rewrite !filter_app, (filter_direct_V path), (filter_direct_F path),
          Hflt, Hflt2, Hflt'.
        replace (S k - 1)%nat with (S (k - 1)) by lia. done.
      * destruct Hres as [?|[? ->]]; [by left | by right].
Qed.

End retry_any.

(** X19. A retry node with [max_retries ≥ 1] whose verify and fix nodes return
    or raise an [Exception] (which [execute] turns into a FAILURE result,
    so that the loop goes on): run on its own it makes some number [k] of
    attempts between 1 and [max_retries] and returns a result; it executes
    verify [k] times and fix [k - 1] times, in turn and verify last; the
    result is SUCCESS, or FAILURE after all [max_retries] attempts. What
    verify or fix raise outside [Exception] is not covered: [execute]
    lets it through. *)
Theorem retry_node_attempts (path : list Role) (node_id : string)
    (verify_node fix_node : Node W) (N : Z) (pass_key : string) st :
  1 ≤ N →
  ∃ st' result new k,
    finish (run path (RetryNode node_id verify_node fix_node N pass_key)) st
      = (st', Return result) ∧
    log st' = log st ++ new ∧
    (1 ≤ k ≤ Z.to_nat N)%nat ∧
    filter (direct path) new =
      concat (replicate (k - 1)
                [Executed (path ++ [Verify]); Executed (path ++ [Fix])]) ++
      [Executed (path ++ [Verify])] ∧
    (status result = SUCCESS ∨ status result = FAILURE ∧ k = Z.to_nat N).
Proof.
  intros HN. cbn [run]. unfold attempts_range.
  destruct (Z.to_nat N) as [|m] eqn:Hm; [lia|].
  apply (finish_retry_loop_any path node_id verify_node fix_node N pass_key
           m 0%nat None [] st).
  lia.
Qed.

End control_facts.

Import Scenario.

Lemma retry_node_no_attempts_witness :
  finish (run [Top "retry"]
            (RetryNode "retry" never_passing (SuccessNode "repair" ∅) 0
               "passed"))
         (mkState (Context.new None) () []) =
    (mkState (Context.new None) () [],
     Return {| status := FAILURE;
               outputs := {["passed" := VBool false; "attempts" := VInt 0]};
               error := Some "Verification failed after 0 attempts";
               metadata := {["attempts" := VList []]} |}).
Proof.
  apply (retry_node_no_attempts [Top "retry"] "retry" never_passing
           (SuccessNode "repair" ∅) 0 "passed").
  lia.
Defined.

Lemma retry_node_attempts_witness :
  ∃ st' result new k,
    finish (run [Top "retry"] retry3) (mkState (Context.new None) () [])
      = (st', Return result) ∧
    log st' = log (mkState (Context.new None) () []) ++ new ∧
    (1 ≤ k ≤ Z.to_nat 3)%nat ∧
    filter (direct [Top "retry"]) new =
      concat (replicate (k - 1)
                [Executed ([Top "retry"] ++ [Verify]);
                 Executed ([Top "retry"] ++ [Fix])]) ++
      [Executed ([Top "retry"] ++ [Verify])] ∧
    (status result = SUCCESS ∨ status result = FAILURE ∧ k = Z.to_nat 3).
Proof.
  apply (retry_node_attempts [Top "retry"] "retry" never_passing
           (SuccessNode "repair" ∅) 3 "passed"
           (mkState (Context.new None) () [])).
  lia.
Defined.

Lemma passing_obeys :
  obeys (λ _ _, True) (λ _ outcome, passes "passed" outcome)
        (run ([Top "retry"] ++ [Verify])
             (SuccessNode "check" {["passed" := VBool true; "attempts" := VInt 7]})).
Proof. intros s. split; [done|]. vm_compute. reflexivity. Qed.

Lemma retry_node_passes_first_witness :
  let verify := SuccessNode "check"
                  {["passed" := VBool true; "attempts" := VInt 7]} in
  let passed (last_verify : NodeResult) : NodeResult :=
    {| status := SUCCESS;
       outputs := outputs last_verify ∪
                  {["passed" := VBool true; "attempts" := VInt 1]};
       error := None;
       metadata :=
         {["attempts" :=
             VList [VDict [("attempt", VInt 1);
                           ("passed",
                            default (VBool false)
                              (outputs last_verify !! "passed"));
                           ("error", opt_str (error last_verify))]]]} |} in
  obeys (λ _ _, True) (λ _ out, ∃ last_verify, out = Return (passed last_verify))
        (run [Top "retry"]
             (RetryNode "retry" verify (SuccessNode "repair" ∅) 3 "passed")) ∧
  ∀ st, ∃ st1 last_verify new,
    finish (execute ([Top "retry"] ++ [Verify]) verify) st
      = (st1, Return last_verify) ∧
    finish (run [Top "retry"]
              (RetryNode "retry" verify (SuccessNode "repair" ∅) 3 "passed")) st
      = (with_ctx (Context.merge ("retry" +:+ ".verify") (outputs last_verify))
                  st1,
         Return (passed last_verify)) ∧
    log st1 = log st ++ new ∧
    filter (direct [Top "retry"]) new = [Executed ([Top "retry"] ++ [Verify])].
Proof.
  intros verify.
  apply (retry_node_passes_first [Top "retry"] "retry" verify
           (SuccessNode "repair" ∅) 3 "passed").
  - lia.
  - exact passing_obeys.
Defined.

(** ** More about core/runner.py *)

Module RunnerFacts.
Import Scenario RunnerProofs.

Section facts.
Context `{World W}.

Lemma dry_run_level_results level_idx level :
  ∀ (rs : Runner.RunState (W:=W)) id,
  id ∈ level →
  Runner.report_results (Runner.dry_run_level level_idx level rs) !! id =
    Some (Runner.dry_run_skipped level_idx).
Proof.
  unfold Runner.dry_run_level.
  induction level as [|id0 level IH] using rev_ind; intros rs id Hid.
  - by apply elem_of_nil in Hid.
  - rewrite foldl_app. simpl. destruct (decide (id = id0)) as [->|Hne].
    + by rewrite lookup_insert_eq.
    + rewrite lookup_insert_ne by done. apply IH.
      apply elem_of_app in Hid as [Hid|Hid]; [done|].
      by apply list_elem_of_singleton in Hid.
Qed.

Lemma run_levels_results self graph sched levels : ∀ level_idx rs,
  NoDup (concat levels) →
  (∀ id, id ∈ concat levels → ∃ node, Graph.get_node graph id = Ok node) →
  ∃ rs',
    Runner.run_levels self graph sched level_idx levels rs = (rs', Ok ()) ∧
    (Runner.dry_run self = true →
       Runner.nodes_state rs' = Runner.nodes_state rs) ∧
    (∀ id, id ∉ concat levels →
       Runner.report_results rs' !! id = Runner.report_results rs !! id) ∧
    (∀ i level id, levels !! i = Some level → id ∈ level →
       (Runner.dry_run self = false ∧ Runner.fail_fast self = true ∧
        Runner.report_results rs' !! id = Runner.report_results rs !! id) ∨
       ∃ r, Runner.report_results rs' !! id = Some r ∧
            Runner.recorded self graph id (level_idx + Z.of_nat i) r).
Proof.
  induction levels as [|level levels IH]; intros level_idx rs Hnd Hget.
  { exists rs. simpl. repeat split; try done. }
  simpl in Hnd. apply NoDup_app in Hnd as (Hnd1 & Hdis & Hnd2).
  assert (Hget2 : ∀ id, id ∈ concat levels →
            ∃ node, Graph.get_node graph id = Ok node).
  { intros id Hid. apply Hget. simpl. apply elem_of_app. by right. }
  assert (Hlater : ∀ i lvl id, levels !! i = Some lvl → id ∈ lvl → id ∉ level).
  { intros i lvl id Hl Hid Hin. apply (Hdis id Hin).
    apply GraphProofs.elem_of_concat. exists lvl. split; [done|].
    by eapply list_elem_of_lookup_2. }
  cbn [Runner.run_levels]. unfold Runner.recorded.
  destruct (Runner.dry_run self) eqn:Hdry.
  - destruct (dry_run_level_spec level_idx level rs) as (Hst & Hout & _).
    destruct (IH (level_idx + 1) (Runner.dry_run_level level_idx level rs)
                Hnd2 Hget2) as (rs' & Hrun & Hsame & Hframe & Hres).
    unfold Runner.recorded in Hres. rewrite Hdry in Hres.
    exists rs'. split; [done|]. split; [|split].
    + intros _. by rewrite Hsame, Hst.
    + intros id Hn. simpl in Hn. rewrite not_elem_of_app in Hn.
      destruct Hn as [Hn1 Hn2]. by rewrite Hframe, Hout.
    + intros [|i] lvl id Hl Hid; simpl in Hl.
      * injection Hl as <-. right. eexists. split; [|by rewrite Z.add_0_r].
        rewrite Hframe by (intros Hx; by apply (Hdis id)).
        by apply dry_run_level_results.
      * destruct (Hres i lvl id Hl Hid) as [(? & _)|(r & Hr & Hrec)]; [done|].
        right. exists r. split; [done|]. rewrite Hrec. f_equal. lia.
  - destruct (run_level_spec graph (sched level_idx) level_idx level rs Hnd1)
      as (rs1 & new & Hrun1 & Hlog1 & Hnew & Hframe1 & Hids).
    { intros id Hid. apply Hget. simpl. apply elem_of_app. by left. }
    rewrite Hrun1.
    assert (Hhere : ∀ id, id ∈ level →
              ∃ r, Runner.report_results rs1 !! id = Some r ∧
                   (r = Runner.skipped_upstream level_idx ∨
                    Runner.own_result graph id level_idx r)).
    { intros id Hid. destruct (Hids id Hid) as [Hsk|[(r & Hr & Hex & _) _]].
      - eexists. split; [exact Hsk | by left].
      - exists r. split; [done | by right]. }
    destruct (Runner.fail_fast self) eqn:Hff; cbn [andb].
    + destruct (Runner.level_failed level (Runner.report_results rs1)).
      * exists rs1. split; [done|]. split; [done|]. split.
        -- intros id Hn. simpl in Hn. rewrite not_elem_of_app in Hn.
           apply Hframe1. tauto.
        -- intros [|i] lvl id Hl Hid; simpl in Hl.
           ++ injection Hl as <-. right. rewrite Z.add_0_r. by apply Hhere.
           ++ left. split; [done|]. split; [done|].
              apply Hframe1. by eapply Hlater.
      * destruct (IH (level_idx + 1) rs1 Hnd2 Hget2)
          as (rs' & Hrun & _ & Hframe & Hres).
        unfold Runner.recorded in Hres. rewrite Hdry in Hres.
        exists rs'. split; [done|]. split; [done|]. split.
        -- intros id Hn. simpl in Hn. rewrite not_elem_of_app in Hn.
           destruct Hn as [Hn1 Hn2]. by rewrite Hframe, Hframe1.
        -- intros [|i] lvl id Hl Hid; simpl in Hl.
           ++ injection Hl as <-. right. rewrite Z.add_0_r.
              rewrite Hframe by (intros Hx; by apply (Hdis id)).
              by apply Hhere.
           ++ destruct (Hres i lvl id Hl Hid) as [(_ & _ & Heq)|(r & Hr & Hrec)].
              ** left. split; [done|]. split; [done|].
                 rewrite Heq. apply Hframe1. by eapply Hlater.
              ** right. exists r. split; [done|].
                 by replace (level_idx + Z.of_nat (S i))
                   with (level_idx + 1 + Z.of_nat i) by lia.
    + destruct (IH (level_idx + 1) rs1 Hnd2 Hget2)
        as (rs' & Hrun & _ & Hframe & Hres).
      unfold Runner.recorded in Hres. rewrite Hdry in Hres.
      exists rs'. split; [done|]. split; [done|]. split.
      * intros id Hn. simpl in Hn. rewrite not_elem_of_app in Hn.
        destruct Hn as [Hn1 Hn2]. by rewrite Hframe, Hframe1.
      * intros [|i] lvl id Hl Hid; simpl in Hl.
        -- injection Hl as <-. right. rewrite Z.add_0_r.
           rewrite Hframe by (intros Hx; by apply (Hdis id)).
           by apply Hhere.
        -- destruct (Hres i lvl id Hl Hid) as [(_ & Hff' & _)|(r & Hr & Hrec)];
             [congruence|].
           right. exists r. split; [done|].
           by replace (level_idx + Z.of_nat (S i))
             with (level_idx + 1 + Z.of_nat i) by lia.
Qed.

Lemma recorded_level self graph id level_idx r :
  Runner.recorded self graph id level_idx r → is_Some (metadata r !! "level").
Proof.
  unfold Runner.recorded. destruct (Runner.dry_run self).
  - intros ->. by eexists.
  - intros [->|Hex]; [by eexists|]. apply own_result_executed in Hex.
    by apply executed_result_status in Hex as (_ & _ & _ & _ & _ & _ & ?).
Qed.

Lemma success_spec (report : Runner.RunReport) :
  Runner.success report = true ↔
  ∀ id r, Runner.results report !! id = Some r → status r ≠ FAILURE.
Proof.
  unfold Runner.success. rewrite forallb_forall. split.
  - intros Hall id r Hr Hf.
    specialize (Hall (id, r)). simpl in Hall.
    rewrite <- list_elem_of_In, elem_of_map_to_list in Hall.
    apply Hall, bool_decide_eq_true in Hr. rewrite Hf in Hr.
    by destruct Hr.
  - intros Hall [id r] Hin. simpl.
    rewrite <- list_elem_of_In, elem_of_map_to_list in Hin.
    apply bool_decide_eq_true. specialize (Hall id r Hin).
    destruct (status r); [by left | done | by right].
Qed.

(** *** [summary] *)

Lemma status_value_inj s1 s2 : status_value s1 = status_value s2 → s1 = s2.
Proof. by destruct s1, s2. Qed.

Lemma count_status_fold (l : list NodeResult) : ∀ (acc : gmap string Z) s,
  default 0 (foldl Runner.count_status acc l !! status_value s) =
    default 0 (acc !! status_value s) +
    Z.of_nat (length (filter (λ r, status r = s) l)).
Proof.
  induction l as [|r l IH]; intros acc s; simpl; [lia|].
  rewrite IH. unfold Runner.count_status. rewrite filter_cons.
  destruct (decide (status r = s)) as [->|Hne].
  - rewrite lookup_insert_eq. simpl. lia.
  - rewrite lookup_insert_ne; [lia|]. intros Heq.
    by apply status_value_inj in Heq.
Qed.

Lemma count_status_keys (l : list NodeResult) : ∀ (acc : gmap string Z) k,
  is_Some (foldl Runner.count_status acc l !! k) →
  is_Some (acc !! k) ∨ ∃ r, r ∈ l ∧ k = status_value (status r).
Proof.
  induction l as [|r l IH]; intros acc k Hk; simpl in *; [by left|].
  destruct (IH _ k Hk) as [Hacc|(r' & Hr' & ->)].
  - unfold Runner.count_status in Hacc.
    destruct (decide (k = status_value (status r))) as [->|Hne].
    + right. exists r. split; [by left | done].
    + rewrite lookup_insert_ne in Hacc by done. by left.
  - right. exists r'. split; [by right | done].
Qed.

Lemma count_status_pos (l : list NodeResult) : ∀ (acc : gmap string Z) k n,
  (∀ k n, acc !! k = Some n → 0 < n) →
  foldl Runner.count_status acc l !! k = Some n → 0 < n.
Proof.
  induction l as [|r l IH]; intros acc k n Hacc Hk; simpl in *; [by eapply Hacc|].
  apply (IH (Runner.count_status acc r) k n); [|done].
  intros k' n'. unfold Runner.count_status.
  destruct (decide (k' = status_value (status r))) as [->|Hne].
  - rewrite lookup_insert_eq. intros [= <-].
    destruct (acc !! status_value (status r)) as [m|] eqn:Hm; simpl; [|lia].
    pose proof (Hacc _ _ Hm). lia.
  - rewrite lookup_insert_ne by done. apply Hacc.
Qed.

Lemma length_by_status (l : list NodeResult) :
  length l =
    (length (filter (λ r, status r = SUCCESS) l) +
     length (filter (λ r, status r = FAILURE) l) +
     length (filter (λ r, status r = SKIPPED) l))%nat.
Proof.
  induction l as [|r l IH]; [done|]. rewrite !filter_cons.
  destruct (status r); simpl; lia.
Qed.

Lemma group_index_None lv v : v ∉ concat lv → Graph.group_index lv v = None.
Proof.
  intros Hn. destruct (Graph.group_index lv v) as [i|] eqn:Hi; [|done].
  apply GraphProofs.group_index_Some in Hi as (l & Hl & Hv).
  exfalso. apply Hn, GraphProofs.elem_of_concat. exists l. split; [done|].
  by eapply list_elem_of_lookup_2.
Qed.

Lemma run_results self (graph : Graph.t (Node:=Node W)) sched ctx w lv :
  Graph.wf graph → Graph.levels graph = Ok lv →
  ∃ rs',
    Runner.run self graph sched ctx w =
      (Runner.nodes_state rs',
       Ok (Runner.mkReport (Runner.report_results rs')
             (Some (elapsed_ms (monotonic w)
                      (monotonic (world (Runner.nodes_state rs'))))))) ∧
    (Runner.dry_run self = true → Runner.nodes_state rs' = mkState ctx w []) ∧
    (∀ id, id ∉ Graph.node_ids graph → Runner.report_results rs' !! id = None) ∧
    (∀ i level id, lv !! i = Some level → id ∈ level →
       (Runner.dry_run self = false ∧ Runner.fail_fast self = true ∧
        Runner.report_results rs' !! id = None) ∨
       ∃ r, Runner.report_results rs' !! id = Some r ∧
            Runner.recorded self graph id (Z.of_nat i) r).
Proof.
  intros Hwf Hlv.
  destruct (levels_registered graph lv Hwf Hlv) as (Hnd & Hreg & _).
  destruct (run_levels_results self graph sched lv 0
              (Runner.mkRunState (mkState ctx w []) ∅) Hnd)
    as (rs' & Hrun & Hsame & Hframe & Hres).
  { intros id Hid. apply get_node_registered. by apply Hreg. }
  exists rs'. split; [|split; [|split]].
  - unfold Runner.run. rewrite Hlv. cbn zeta. by rewrite Hrun.
  - exact Hsame.
  - intros id Hid. rewrite Hframe; [done|]. by rewrite Hreg.
  - intros i level id Hl Hid.
    destruct (Hres i level id Hl Hid) as [(? & ? & Heq)|(r & Hr & Hrec)].
    + left. by rewrite Heq.
    + right. exists r. by rewrite Z.add_0_l in Hrec.
Qed.

Lemma level_failed_false level (results : gmap string NodeResult) id r :
  Runner.level_failed level results = false →
  id ∈ level → results !! id = Some r → status r ≠ FAILURE.
Proof.
  intros Hf Hid Hr Hs.
  by rewrite (level_failed_true level results id r Hid Hr Hs) in Hf.
Qed.

(** With fail-fast on, the levels are processed up to the first one in
    which a node failed: [k] is the number of levels processed. *)
Lemma run_levels_stop self graph sched levels : ∀ level_idx rs,
  Runner.dry_run self = false → Runner.fail_fast self = true →
  NoDup (concat levels) →
  (∀ id, id ∈ concat levels → ∃ node, Graph.get_node graph id = Ok node) →
  ∃ rs' k,
    Runner.run_levels self graph sched level_idx levels rs = (rs', Ok ()) ∧
    appends (Runner.level_event (concat (take k levels)))
            (Runner.nodes_state rs) (Runner.nodes_state rs') ∧
    (∀ id, id ∉ concat (take k levels) →
       Runner.report_results rs' !! id = Runner.report_results rs !! id) ∧
    (∀ i level id r, (S i < k)%nat → levels !! i = Some level → id ∈ level →
       Runner.report_results rs' !! id = Some r → status r ≠ FAILURE).
Proof.
  intros level_idx rs Hdry Hff. revert level_idx rs.
  induction levels as [|level levels IH]; intros level_idx rs Hnd Hget.
  { exists rs, 0%nat. simpl. split; [done|]. split; [apply appends_refl|].
    split; [done|]. intros; lia. }
  simpl in Hnd. apply NoDup_app in Hnd as (Hnd1 & Hdis & Hnd2).
  assert (Hget2 : ∀ id, id ∈ concat levels →
            ∃ node, Graph.get_node graph id = Ok node).
  { intros id Hid. apply Hget. simpl. apply elem_of_app. by right. }
  cbn [Runner.run_levels]. rewrite Hdry, Hff. cbn [andb].
  destruct (run_level_spec graph (sched level_idx) level_idx level rs Hnd1)
    as (rs1 & new & Hrun1 & Hlog1 & Hnew & Hframe1 & _).
  { intros id Hid. apply Hget. simpl. apply elem_of_app. by left. }
  rewrite Hrun1.
  destruct (Runner.level_failed level (Runner.report_results rs1)) eqn:Hfail.
  - exists rs1, 1%nat. split; [done|]. cbn [take concat].
    rewrite app_nil_r. split; [by exists new|]. split; [exact Hframe1|].
    intros; lia.
  - destruct (IH (level_idx + 1) rs1 Hnd2 Hget2)
      as (rs' & k & Hrun & (new' & Hlog & Hnew') & Hframe & Hclean).
    exists rs', (S k). split; [done|]. simpl. split; [|split].
    + exists (new ++ new'). split; [by rewrite Hlog, Hlog1, app_assoc|].
      apply Forall_app. split.
      * eapply Forall_impl; [exact Hnew|]. intros e.
        apply level_event_mono. intros id Hid. apply elem_of_app. by left.
      * eapply Forall_impl; [exact Hnew'|]. intros e.
        apply level_event_mono. intros id Hid. apply elem_of_app. by right.
    + intros id Hn. rewrite not_elem_of_app in Hn. destruct Hn as [Hn1 Hn2].
      by rewrite Hframe, Hframe1.
    + intros [|i] lvl id r Hlt Hl Hid Hr; simpl in Hl.
      * injection Hl as <-.
        rewrite Hframe in Hr.
        -- by eapply level_failed_false.
        -- intros Hin. apply (Hdis id Hid).
           apply GraphProofs.elem_of_concat in Hin as (l & Hl & Hin).
           apply GraphProofs.elem_of_concat. exists l. split; [done|].
           apply list_elem_of_lookup in Hin as [j Hj].
           rewrite lookup_take_Some in Hj.
           by eapply list_elem_of_lookup_2, Hj.
      * apply (Hclean i lvl id r); [lia|done..].
Qed.

Lemma concat_split {A} (ls : list (list A)) : ∀ l1 y l3,
  concat ls = l1 ++ y :: l3 →
  ∃ i c a b, ls !! i = Some c ∧ c = a ++ y :: b ∧
             l1 = concat (take i ls) ++ a.
Proof.
  induction ls as [|c ls IH]; intros l1 y l3 Heq; simpl in Heq.
  - by destruct l1.
  - destruct (decide (length l1 < length c)%nat) as [Hlt|Hge].
    + (* the occurrence is in the first chunk *)
      exists 0%nat, c, l1, (drop (S (length l1)) c). split; [done|].
      split; [|done].
      assert (take (length l1) c = l1) as Ht.
      { apply (f_equal (take (length l1))) in Heq.
        rewrite take_app_le in Heq by lia.
        by rewrite take_app_length in Heq. }
      assert (c !! length l1 = Some y) as Hy.
      { apply (f_equal (λ l, l !! length l1)) in Heq.
        rewrite lookup_app_l in Heq by done.
        by rewrite list_lookup_middle in Heq. }
      rewrite <- Ht at 1. rewrite <- (take_drop_middle c (length l1) y Hy) at 1.
      by rewrite Ht.
    + assert (l1 = c ++ drop (length c) l1) as Hl1.
      { apply (f_equal (take (length c))) in Heq.
        rewrite take_app_length, take_app_le in Heq by lia.
        rewrite Heq at 1. by rewrite take_drop. }
      rewrite Hl1, <- app_assoc in Heq. apply app_inv_head in Heq.
      destruct (IH _ _ _ Heq) as (i & c' & a & b & Hi & Hc & Hd).
      exists (S i), c', a, b. split; [done|]. split; [done|].
      simpl. by rewrite <- app_assoc, <- Hd.
Qed.

End facts.

(** X20. Skipping in any graph, without fail-fast and outside a dry run: a
    node with a direct predecessor recorded FAILURE is recorded SKIPPED
    with the error "upstream dependency failed" and the index of its
    group, and its [execute] is never called; every other node is
    executed, and what is recorded for it is the result that a call of
    [execute] on this very node returned, with the level added. *)
Theorem skip_semantics `{World W} (graph : Graph.t (Node:=Node W))
    sched ctx w lv :
  Graph.wf graph → Graph.levels graph = Ok lv →
  ∃ st' report,
    Runner.run (Runner.mk false false) graph sched ctx w = (st', Ok report) ∧
    ∀ id, id ∈ Graph.node_ids graph →
      ((∃ p r, p ∈ Graph.predecessors graph id ∧
               Runner.results report !! p = Some r ∧ status r = FAILURE) →
       (∃ i, Graph.group_index lv id = Some i ∧
             Runner.results report !! id =
               Some (Runner.skipped_upstream (Z.of_nat i))) ∧
       ∀ e, e ∈ log st' → ¬ below [Top id] e) ∧
      ((∀ p r, p ∈ Graph.predecessors graph id →
               Runner.results report !! p = Some r → status r ≠ FAILURE) →
       ∃ i r node st_start st_end result,
         Graph.group_index lv id = Some i ∧
         Runner.results report !! id = Some r ∧
         Graph.get_node graph id = Ok node ∧
         completes (execute [Top id] node) st_start st_end (Return result) ∧
         r = metadata_setdefault "level" (VInt (Z.of_nat i)) result ∧
         Executed [Top id] ∈ log st').
Proof.
  intros Hwf Hlv.
  destruct (run_skip_semantics graph sched ctx w lv Hwf Hlv)
    as (rs' & Hrun & Hres).
  eexists _, _. split; [exact Hrun|].
  cbn [Runner.results]. intros id Hid.
  destruct (Hres id Hid) as (i & Hi & Hcase).
  destruct (Runner._should_skip id graph (Runner.report_results rs'))
    eqn:Hskip.
  - destruct Hcase as [Hsk Hnever]. split.
    + intros _. split; [by exists i | done].
    + intros Hno. apply should_skip_iff in Hskip as (p & r & Hp & Hr & Hs).
      by destruct (Hno p r Hp Hr).
  - split.
    + intros Hsome. apply should_skip_iff in Hsome. congruence.
    + intros _.
      destruct Hcase
        as (r & Hr & (node & st & st' & result & Hn & Hc & ->) & He).
      eexists i, _, node, st, st', result. repeat split; done.
Qed.

Lemma skip_semantics_witness :
  ∃ st' report,
    Runner.run (Runner.mk false false) scenario_c_test (λ _, [0; 0]%nat)
               (Context.new None) () = (st', Ok report) ∧
    ∀ id, id ∈ Graph.node_ids scenario_c_test →
      ((∃ p r, p ∈ Graph.predecessors scenario_c_test id ∧
               Runner.results report !! p = Some r ∧ status r = FAILURE) →
       (∃ i, Graph.group_index [["a"; "c"]; ["b"]] id = Some i ∧
             Runner.results report !! id =
               Some (Runner.skipped_upstream (Z.of_nat i))) ∧
       ∀ e, e ∈ log st' → ¬ below [Top id] e) ∧
      ((∀ p r, p ∈ Graph.predecessors scenario_c_test id →
               Runner.results report !! p = Some r → status r ≠ FAILURE) →
       ∃ i r node st_start st_end result,
         Graph.group_index [["a"; "c"]; ["b"]] id = Some i ∧
         Runner.results report !! id = Some r ∧
         Graph.get_node scenario_c_test id = Ok node ∧
         completes (execute [Top id] node) st_start st_end (Return result) ∧
         r = metadata_setdefault "level" (VInt (Z.of_nat i)) result ∧
         Executed [Top id] ∈ log st').
Proof.
  apply (skip_semantics scenario_c_test (λ _, [0; 0]%nat) (Context.new None) ()
           [["a"; "c"]; ["b"]]).
  - unfold scenario_c_test, scenario_c.
    apply GraphClaims.of_res_add_edge_wf. apply RunnerClaims.with_nodes_wf.
  - vm_compute. reflexivity.
Defined.

(** X21. Data flows along the edges: whenever [execute] is called for a
    node, the outputs of each of its direct predecessors that ends
    recorded as SUCCESS have already been merged into the context. This
    holds for every configuration of the runner and every
    interleaving. *)
Theorem predecessor_merged_before_start `{World W} (self : Runner.t)
    (graph : Graph.t (Node:=Node W)) sched ctx w lv :
  Graph.wf graph → Graph.levels graph = Ok lv →
  ∃ st' report,
    Runner.run self graph sched ctx w = (st', Ok report) ∧
    ∀ p v r before after,
      p ∈ Graph.predecessors graph v →
      Runner.results report !! p = Some r → status r = SUCCESS →
      log st' = before ++ Executed [Top v] :: after →
      Merged p ∈ before.
Proof.
  intros Hwf Hlv.
  destruct (levels_registered graph lv Hwf Hlv) as (Hnd & Hreg & _).
  destruct (run_levels_spec self graph sched lv 0
              (Runner.mkRunState (mkState ctx w []) ∅) Hnd)
    as (rs' & chunks & Hrun & Hlog & Hlen & Hframe & Hchunks).
  { intros id Hid. apply get_node_registered. by apply Hreg. }
  simpl in Hlog.
  eexists _, _. split.
  { unfold Runner.run. rewrite Hlv. cbn zeta. by rewrite Hrun. }
  cbn [Runner.results].
  (* an entry of the task of [id] sits in the chunk of the level of [id] *)
  assert (Hown : ∀ k chunk id e, chunks !! k = Some chunk → e ∈ chunk →
            e = Merged id ∨ e = Executed [Top id] →
            ∃ level, lv !! k = Some level ∧ id ∈ level).
  { intros k chunk id e Hk He Hshape.
    destruct (lookup_lt_is_Some_2 lv k) as [level Hl].
    { apply lookup_lt_Some in Hk. lia. }
    destruct (Hchunks k level chunk Hl Hk) as [Hall _].
    rewrite Forall_forall in Hall.
    destruct (Hall e He) as (id' & Hid' & Hev).
    pose proof (task_event_owner id' id e Hev Hshape) as ->. eauto. }
  intros p v r before after Hp Hr Hs Hsplit.
  rewrite Hlog in Hsplit.
  destruct (concat_split chunks _ _ _ Hsplit)
    as (i & c & a & b & Hi & Hc & ->).
  destruct (Hown i c v (Executed [Top v]) Hi) as (level & Hl & Hv);
    [rewrite Hc; set_solver | by right |].
  (* the level of the predecessor *)
  assert (Hpreg : p ∈ concat lv).
  { apply Hreg. apply (Graph.wf_mirror graph Hwf) in Hp.
    by apply (GraphProofs.successors_registered graph p v Hwf) in Hp as [? _]. }
  destruct (GraphProofs.group_index_is_Some lv p Hpreg) as [j Hj].
  destruct (GraphProofs.group_index_Some lv p j Hj) as (level' & Hl' & Hpl).
  assert (Hji : (j < i)%nat).
  { destruct (decide (j < i)%nat) as [|Hge]; [done|]. exfalso.
    apply (levels_preds_before graph lv Hwf Hlv i level v p Hl Hv Hp).
    apply GraphProofs.elem_of_concat. exists level'. split; [done|].
    apply list_elem_of_lookup. exists (j - i)%nat.
    rewrite lookup_drop. by replace (i + (j - i))%nat with j by lia. }
  (* its merge is in the chunk of that level *)
  destruct (lookup_lt_is_Some_2 chunks j) as [cj Hcj].
  { apply lookup_lt_Some in Hi. lia. }
  destruct (Hchunks j level' cj Hl' Hcj) as [_ Hin].
  destruct (Hin p r Hpl Hr Hs) as [Hm _]. rewrite Hlog in Hm.
  apply GraphProofs.elem_of_concat in Hm as (ck & Hmk & Hck).
  apply list_elem_of_lookup in Hck as [k Hk].
  destruct (Hown k ck p (Merged p) Hk Hmk) as (level'' & Hl'' & Hpl'');
    [by left|].
  pose proof (GraphProofs.group_index_lookup lv p k level'' Hnd Hl'' Hpl'') as E.
  assert (k = j) as -> by congruence.
  apply elem_of_app. left. apply GraphProofs.elem_of_concat.
  exists ck. split; [done|]. apply list_elem_of_lookup. exists j.
  by rewrite lookup_take_Some.
Qed.

Lemma predecessor_merged_before_start_witness :
  ∃ st' report,
    Runner.run Runner.defaults gated_open_test (λ _, []) (Context.new None) ()
      = (st', Ok report) ∧
    ∀ p v r before after,
      p ∈ Graph.predecessors gated_open_test v →
      Runner.results report !! p = Some r → status r = SUCCESS →
      log st' = before ++ Executed [Top v] :: after →
      Merged p ∈ before.
Proof.
  apply (predecessor_merged_before_start Runner.defaults gated_open_test
           (λ _, []) (Context.new None) () [["g"]; ["s"]]).
  - unfold gated_open_test, gated.
    apply GraphClaims.of_res_add_edge_wf. apply RunnerClaims.with_nodes_wf.
  - vm_compute. reflexivity.
Defined.

(** X22. With fail-fast on, the first level in which a node failed is the last
    one processed: the nodes of all later levels get no entry in the
    report and are never executed. *)
Theorem fail_fast_stops `{World W} (graph : Graph.t (Node:=Node W))
    sched ctx w lv :
  Graph.wf graph → Graph.levels graph = Ok lv →
  ∃ st' report,
    Runner.run (Runner.mk true false) graph sched ctx w = (st', Ok report) ∧
    ∀ i level id r,
      lv !! i = Some level → id ∈ level →
      Runner.results report !! id = Some r → status r = FAILURE →
      ∀ j level' id', (i < j)%nat → lv !! j = Some level' → id' ∈ level' →
        Runner.results report !! id' = None ∧
        ∀ e, e ∈ log st' → ¬ below [Top id'] e.
Proof.
  intros Hwf Hlv.
  destruct (levels_registered graph lv Hwf Hlv) as (Hnd & Hreg & _).
  destruct (run_levels_stop (Runner.mk true false) graph sched lv 0
              (Runner.mkRunState (mkState ctx w []) ∅) eq_refl eq_refl Hnd)
    as (rs' & k & Hrun & (new & Hlog & Hnew) & Hframe & Hclean).
  { intros id Hid. apply get_node_registered. by apply Hreg. }
  eexists _, _. split.
  { unfold Runner.run. rewrite Hlv. cbn zeta. by rewrite Hrun. }
  cbn [Runner.results].
  (* a node among the levels processed is in one of the first k levels *)
  assert (Hin_take : ∀ x j l, lv !! j = Some l → x ∈ l →
            x ∈ concat (take k lv) → (j < k)%nat).
  { intros x j l Hl Hx Hin.
    apply GraphProofs.elem_of_concat in Hin as (l' & Hx' & Hl').
    apply list_elem_of_lookup in Hl' as [j' Hj'].
    rewrite lookup_take_Some in Hj'. destruct Hj' as [Hj' Hlt].
    pose proof (GraphProofs.group_index_lookup lv x j l Hnd Hl Hx) as E1.
    pose proof (GraphProofs.group_index_lookup lv x j' l' Hnd Hj' Hx') as E2.
    assert (j = j') by congruence. by subst. }
  intros i level id r Hl Hid Hr Hs j level' id' Hij Hl' Hid'.
  assert (Hik : (i < k)%nat).
  { apply (Hin_take id i level Hl Hid).
    destruct (decide (id ∈ concat (take k lv))) as [|Hn]; [done|].
    rewrite Hframe in Hr by done. done. }
  assert (Hki : ¬ (S i < k)%nat).
  { intros Hlt. by apply (Hclean i level id r Hlt Hl Hid Hr). }
  assert (Hout : id' ∉ concat (take k lv)).
  { intros Hin. pose proof (Hin_take id' j level' Hl' Hid' Hin). lia. }
  split.
  - by rewrite Hframe.
  - intros e He. simpl in Hlog. rewrite Hlog in He.
    rewrite Forall_forall in Hnew.
    eapply level_event_not_below; [by apply Hnew | done].
Qed.

Lemma fail_fast_stops_witness :
  ∃ st' report,
    Runner.run (Runner.mk true false) chain_test (λ _, []) (Context.new None) ()
      = (st', Ok report) ∧
    ∀ i level id r,
      [["a"]; ["b"]; ["c"]] !! i = Some level → id ∈ level →
      Runner.results report !! id = Some r → status r = FAILURE →
      ∀ j level' id', (i < j)%nat →
        [["a"]; ["b"]; ["c"]] !! j = Some level' → id' ∈ level' →
        Runner.results report !! id' = None ∧
        ∀ e, e ∈ log st' → ¬ below [Top id'] e.
Proof.
  apply (fail_fast_stops chain_test (λ _, []) (Context.new None) ()
           [["a"]; ["b"]; ["c"]]).
  - unfold chain_test, chain.
    do 2 apply GraphClaims.of_res_add_edge_wf. apply RunnerClaims.with_nodes_wf.
  - vm_compute. reflexivity.
Defined.

(** X23. [Runner.run] on a graph kept by the interface either returns a report,
    when the graph is acyclic, or raises [CycleError] before any node is
    executed and with the context untouched, when it has a cycle. No
    exception of a node reaches the caller. *)
Theorem run_outcome `{World W} (self : Runner.t)
    (graph : Graph.t (Node:=Node W)) sched ctx w :
  Graph.wf graph →
  (Graph.acyclic graph ∧
   ∃ st' report, Runner.run self graph sched ctx w = (st', Ok report)) ∨
  (Graph.cyclic graph ∧
   ∃ n, Runner.run self graph sched ctx w =
          (mkState ctx w [], Raise (CycleError n (Graph.len graph)))).
Proof.
  intros Hwf.
  destruct (GraphProofs.levels_outcome graph Hwf)
    as [(lv & Hok & _)|(n & Hr & _ & Hc)].
  - left. destruct (levels_registered graph lv Hwf Hok) as (_ & _ & Hac).
    split; [done|].
    destruct (run_results self graph sched ctx w lv Hwf Hok) as (rs' & Hrun & _).
    eauto.
  - right. split; [done|]. exists n. unfold Runner.run. by rewrite Hr.
Qed.

Lemma run_outcome_witness :
  (Graph.acyclic chain_test ∧
   ∃ st' report,
     Runner.run Runner.defaults chain_test (λ _, []) (Context.new None) ()
       = (st', Ok report)) ∨
  (Graph.cyclic chain_test ∧
   ∃ n, Runner.run Runner.defaults chain_test (λ _, []) (Context.new None) ()
          = (mkState (Context.new None) () [],
             Raise (CycleError n (Graph.len chain_test)))).
Proof.
  apply (run_outcome Runner.defaults chain_test (λ _, []) (Context.new None) ()).
  unfold chain_test, chain.
  do 2 apply GraphClaims.of_res_add_edge_wf. apply RunnerClaims.with_nodes_wf.
Defined.

(** X24. Every entry of the report belongs to a registered node and is what the
    runner records for that node at the level of its group: the dry-run
    record in a dry run, and otherwise either the record of a skip for an
    upstream failure or the result that a call of [execute] on the node
    registered under that id returned, with the level added. In all cases
    the metadata hold the level. *)
Theorem report_entries `{World W} (self : Runner.t)
    (graph : Graph.t (Node:=Node W)) sched ctx w lv :
  Graph.wf graph → Graph.levels graph = Ok lv →
  ∃ st' report,
    Runner.run self graph sched ctx w = (st', Ok report) ∧
    ∀ id r, Runner.results report !! id = Some r →
      ∃ i level,
        lv !! i = Some level ∧ id ∈ level ∧
        (if Runner.dry_run self then r = Runner.dry_run_skipped (Z.of_nat i)
         else r = Runner.skipped_upstream (Z.of_nat i) ∨
              ∃ node st_start st_end result,
                Graph.get_node graph id = Ok node ∧
                completes (execute [Top id] node) st_start st_end
                          (Return result) ∧
                r = metadata_setdefault "level" (VInt (Z.of_nat i)) result) ∧
        is_Some (metadata r !! "level").
Proof.
  intros Hwf Hlv.
  destruct (levels_registered graph lv Hwf Hlv) as (_ & Hreg & _).
  destruct (run_results self graph sched ctx w lv Hwf Hlv)
    as (rs' & Hrun & _ & Hout & Hres).
  eexists _, _. split; [exact Hrun|]. cbn [Runner.results].
  intros id r Hr.
  destruct (decide (id ∈ Graph.node_ids graph)) as [Hid|Hid].
  - apply Hreg, GraphProofs.elem_of_concat in Hid as (level & Hid & Hl).
    apply list_elem_of_lookup in Hl as [i Hi].
    destruct (Hres i level id Hi Hid) as [(_ & _ & Hn)|(r' & Hr' & Hrec)];
      [congruence|].
    assert (r' = r) as -> by congruence.
    exists i, level. split; [done|]. split; [done|]. split; [exact Hrec|].
    by eapply recorded_level.
  - rewrite Hout in Hr by done. done.
Qed.

Lemma report_entries_witness :
  ∃ st' report,
    Runner.run Runner.defaults chain_test (λ _, [])
               (Context.new None) () = (st', Ok report) ∧
    ∀ id r, Runner.results report !! id = Some r →
      ∃ i level,
        [["a"]; ["b"]; ["c"]] !! i = Some level ∧ id ∈ level ∧
        (if Runner.dry_run Runner.defaults
         then r = Runner.dry_run_skipped (Z.of_nat i)
         else r = Runner.skipped_upstream (Z.of_nat i) ∨
              ∃ node st_start st_end result,
                Graph.get_node chain_test id = Ok node ∧
                completes (execute [Top id] node) st_start st_end
                          (Return result) ∧
                r = metadata_setdefault "level" (VInt (Z.of_nat i)) result) ∧
        is_Some (metadata r !! "level").
Proof.
  apply (report_entries Runner.defaults chain_test (λ _, [])
           (Context.new None) () [["a"]; ["b"]; ["c"]]).
  - unfold chain_test, chain.
    do 2 apply GraphClaims.of_res_add_edge_wf. apply RunnerClaims.with_nodes_wf.
  - vm_compute. reflexivity.
Defined.

(** X25. Without fail-fast, or in a dry run, the report has an entry for every
    registered node and for nothing else. *)
Theorem report_complete `{World W} (self : Runner.t)
    (graph : Graph.t (Node:=Node W)) sched ctx w lv :
  Graph.wf graph → Graph.levels graph = Ok lv →
  Runner.fail_fast self = false ∨ Runner.dry_run self = true →
  ∃ st' report,
    Runner.run self graph sched ctx w = (st', Ok report) ∧
    ∀ id, is_Some (Runner.results report !! id) ↔ id ∈ Graph.node_ids graph.
Proof.
  intros Hwf Hlv Hmode.
  destruct (levels_registered graph lv Hwf Hlv) as (_ & Hreg & _).
  destruct (run_results self graph sched ctx w lv Hwf Hlv)
    as (rs' & Hrun & _ & Hout & Hres).
  eexists _, _. split; [exact Hrun|]. cbn [Runner.results].
  intros id. split.
  - intros Hsome. destruct (decide (id ∈ Graph.node_ids graph)) as [|Hid];
      [done|].
    rewrite Hout in Hsome by done. by destruct Hsome.
  - intros Hid.
    apply Hreg, GraphProofs.elem_of_concat in Hid as (level & Hid & Hl).
    apply list_elem_of_lookup in Hl as [i Hi].
    destruct (Hres i level id Hi Hid) as [(Hd & Hf & _)|(r & Hr & _)].
    + destruct Hmode; congruence.
    + eauto.
Qed.

Lemma report_complete_witness :
  ∃ st' report,
    Runner.run Runner.defaults chain_test (λ _, []) (Context.new None) ()
      = (st', Ok report) ∧
    ∀ id, is_Some (Runner.results report !! id) ↔
          id ∈ Graph.node_ids chain_test.
Proof.
  apply (report_complete Runner.defaults chain_test (λ _, [])
           (Context.new None) () [["a"]; ["b"]; ["c"]]).
  - unfold chain_test, chain.
    do 2 apply GraphClaims.of_res_add_edge_wf. apply RunnerClaims.with_nodes_wf.
  - vm_compute. reflexivity.
  - by left.
Defined.

(** X26. A dry run executes nothing and leaves the context alone: every
    registered node is recorded SKIPPED with [dry_run: True] and the index
    of its group in the metadata, and the report is a success, whatever
    [fail_fast] is. *)
Theorem dry_run_report `{World W} (fail_fast : bool)
    (graph : Graph.t (Node:=Node W)) sched ctx w lv :
  Graph.wf graph → Graph.levels graph = Ok lv →
  ∃ report,
    Runner.run (Runner.mk fail_fast true) graph sched ctx w
      = (mkState ctx w [], Ok report) ∧
    (∀ id, Runner.results report !! id =
             (λ i, Runner.dry_run_skipped (Z.of_nat i)) <$>
               Graph.group_index lv id) ∧
    Runner.success report = true.
Proof.
  intros Hwf Hlv.
  destruct (levels_registered graph lv Hwf Hlv) as (Hnd & Hreg & _).
  destruct (run_results (Runner.mk fail_fast true) graph sched ctx w lv Hwf Hlv)
    as (rs' & Hrun & Hsame & Hout & Hres).
  rewrite (Hsame eq_refl) in Hrun.
  assert (Hall : ∀ id, Runner.report_results rs' !! id =
            (λ i, Runner.dry_run_skipped (Z.of_nat i)) <$>
              Graph.group_index lv id).
  { intros id. destruct (decide (id ∈ concat lv)) as [Hid|Hid].
    - destruct (GraphProofs.group_index_is_Some lv id Hid) as [i Hi].
      rewrite Hi. simpl.
      destruct (GraphProofs.group_index_Some lv id i Hi) as (level & Hl & Hin).
      destruct (Hres i level id Hl Hin) as [(Hd & _)|(r & Hr & Hrec)];
        [done|].
      unfold Runner.recorded in Hrec. simpl in Hrec. by rewrite Hr, Hrec.
    - rewrite (group_index_None lv id Hid). simpl. apply Hout.
      by rewrite <- Hreg. }
  eexists. split; [exact Hrun|]. split; [exact Hall|].
  apply success_spec. cbn [Runner.results]. intros id r Hr.
  rewrite Hall in Hr. destruct (Graph.group_index lv id); [|done].
  by injection Hr as <-.
Qed.

Lemma dry_run_report_witness :
  ∃ report,
    Runner.run (Runner.mk true true) chain_test (λ _, []) (Context.new None) ()
      = (mkState (Context.new None) () [], Ok report) ∧
    (∀ id, Runner.results report !! id =
             (λ i, Runner.dry_run_skipped (Z.of_nat i)) <$>
               Graph.group_index [["a"]; ["b"]; ["c"]] id) ∧
    Runner.success report = true.
Proof.
  apply (dry_run_report true chain_test (λ _, []) (Context.new None) ()
           [["a"]; ["b"]; ["c"]]).
  - unfold chain_test, chain.
    do 2 apply GraphClaims.of_res_add_edge_wf. apply RunnerClaims.with_nodes_wf.
  - vm_compute. reflexivity.
Defined.

(** X27. A report is a success exactly when none of its results is a
    FAILURE; SKIPPED results do not count against it. *)
Theorem success_iff_no_failure `{World W} (report : Runner.RunReport) :
  (Runner.success report = true ↔
     ∀ id r, Runner.results report !! id = Some r → status r ≠ FAILURE) ∧
  (Runner.success report = false ↔
     ∃ id r, Runner.results report !! id = Some r ∧ status r = FAILURE).
Proof.
  split; [apply success_spec|].
  split.
  - intros Hf. unfold Runner.success in Hf.
    apply not_true_iff_false in Hf. rewrite forallb_forall in Hf.
    destruct (decide (Exists (λ kr : string * NodeResult, status kr.2 = FAILURE)
                        (map_to_list (Runner.results report)))) as [Hex|Hno].
    + apply Exists_exists in Hex as ([id r] & Hin & Hs).
      apply elem_of_map_to_list in Hin. eauto.
    + exfalso. apply Hf. intros [id r] Hin. apply bool_decide_eq_true.
      apply list_elem_of_In in Hin. simpl.
      destruct (status r) eqn:Hs; [by left| |by right].
      exfalso. apply Hno, Exists_exists. exists (id, r). by split.
  - intros (id & r & Hr & Hs). destruct report as [results d].
    by eapply success_false.
Qed.

(** X28. The counts of [summary]: under the value of each status, [by_status]
    holds the number of results with that status, and no entry when there
    is none; it has no other keys; the counts add up to [total], the
    number of results; and the summary reports a success exactly when
    [by_status] has no entry for failures. *)
Theorem summary_counts `{World W} (report : Runner.RunReport) :
  let count st :=
    Z.of_nat (length (filter (λ r, status r = st)
                        (map_to_list (Runner.results report)).*2)) in
  (∀ st, Runner.by_status (Runner.summary report) !! status_value st =
           if decide (count st = 0) then None else Some (count st)) ∧
  (∀ k, is_Some (Runner.by_status (Runner.summary report) !! k) →
        ∃ st, k = status_value st) ∧
  Runner.total (Runner.summary report) =
    count SUCCESS + count FAILURE + count SKIPPED ∧
  (Runner.summary_success (Runner.summary report) = true ↔
     Runner.by_status (Runner.summary report) !! "failure" = None).
Proof.
  intros count. unfold Runner.summary. cbn [Runner.by_status Runner.total
    Runner.summary_success].
  set (l := (map_to_list (Runner.results report)).*2) in *.
  assert (Hcount : ∀ st, foldl Runner.count_status ∅ l !! status_value st =
            if decide (count st = 0) then None else Some (count st)).
  { intros st. pose proof (count_status_fold l ∅ st) as Hc.
    rewrite lookup_empty in Hc. simpl in Hc. fold (count st) in Hc.
    destruct (foldl Runner.count_status ∅ l !! status_value st) as [n|] eqn:Hn;
      simpl in Hc.
    - apply count_status_pos in Hn; [|by intros ? ? ?%lookup_empty_Some].
      rewrite decide_False by lia. f_equal. lia.
    - by rewrite decide_True by lia. }
  split; [exact Hcount|]. split; [|split].
  - intros k Hk. apply count_status_keys in Hk as [[? Hk]|(r & _ & ->)];
      [by rewrite lookup_empty in Hk | eauto].
  - unfold count. rewrite <- !Nat2Z.inj_add, <- length_by_status.
    unfold l. by rewrite length_fmap, length_map_to_list.
  - change "failure" with (status_value FAILURE). rewrite Hcount.
    rewrite success_spec. split.
    + intros Hno. rewrite decide_True; [done|].
      unfold count. destruct (filter _ l) as [|r rest] eqn:Hflt; [done|].
      exfalso. assert (r ∈ filter (λ r, status r = FAILURE) l) as Hin
        by (rewrite Hflt; by left).
      apply list_elem_of_filter in Hin as [Hs Hin].
      apply list_elem_of_fmap in Hin as ([id r'] & -> & Hin).
      apply elem_of_map_to_list in Hin. by apply (Hno id r').
    + case_decide as Hz; [|done]. intros _ id r Hr Hs.
      assert (r ∈ filter (λ r, status r = FAILURE) l) as Hin.
      { apply list_elem_of_filter. split; [done|].
        apply list_elem_of_fmap. exists (id, r). split; [done|].
        by apply elem_of_map_to_list. }
      unfold count in Hz. destruct (filter _ l); [by apply elem_of_nil in Hin|].
      simpl in Hz. lia.
Qed.

End RunnerFacts.

(** ** Each node is executed at most once *)

Module RunnerOnce.
Import Scenario RunnerProofs RunnerFacts.

Section once.
Context `{World W}.

Lemma calls_app id (l1 l2 : list Event) :
  Runner.calls id (l1 ++ l2) = (Runner.calls id l1 + Runner.calls id l2)%nat.
Proof. unfold Runner.calls. by rewrite filter_app, length_app. Qed.

Lemma calls_none id (l : list Event) :
  Forall (λ e, e ≠ Executed [Top id]) l → Runner.calls id l = 0%nat.
Proof.
  unfold Runner.calls. induction 1 as [|e l He _ IH]; [done|].
  by rewrite filter_cons, decide_False.
Qed.

Lemma strictly_below_not_top id x e :
  strictly_below [Top id] e → e ≠ Executed [Top x].
Proof. intros (role & more & ->) [=]. Qed.

Lemma appends_inner_calls id (st st' : State W) x :
  appends (strictly_below [Top id]) st st' →
  Runner.calls x (log st') = Runner.calls x (log st).
Proof.
  intros (new & -> & Hnew). rewrite calls_app, (calls_none x new); [lia|].
  eapply Forall_impl; [exact Hnew|]. intros e. apply strictly_below_not_top.
Qed.

Lemma no_call_refl (rs : Runner.RunState (W:=W)) : Runner.no_call rs rs.
Proof. by intros id. Qed.

Lemma no_call_trans (rs1 rs2 rs3 : Runner.RunState (W:=W)) :
  Runner.no_call rs1 rs2 → Runner.no_call rs2 rs3 → Runner.no_call rs1 rs3.
Proof. intros H12 H23 id. by rewrite H23, H12. Qed.

(** What follows [execute] in the task of a node makes no call. *)
Lemma record_no_call id level_idx (out : exn NodeResult) :
  obeys Runner.no_call (λ _ _, True)
    (match out with
     | Return result =>
         atomic (λ rs : Runner.RunState (W:=W),
           let result := metadata_setdefault "level" (VInt level_idx) result in
           let rs :=
             if bool_decide (status result = SUCCESS)
             then Runner.mkRunState
                    (log_event (Merged id)
                       (with_ctx (Context.merge id (outputs result))
                                 (Runner.nodes_state rs)))
                    (Runner.report_results rs)
             else rs in
           (Runner.record id result rs, Ok ()))
     | Raises msg => ret (Raise (Fault msg))
     end).
Proof.
  destruct out as [result|msg].
  - apply obeys_atomic. intros rs. cbn zeta. split; [|done].
    intros x. unfold Runner.record. case_bool_decide; simpl; [|done].
    rewrite calls_app, (calls_none x [Merged id]); [lia|].
    by apply Forall_singleton.
  - apply obeys_ret; [apply no_call_refl | done].
Qed.

Lemma run_node_first_call graph id node level_idx :
  Graph.get_node graph id = Ok node →
  Runner.first_call id (Runner._run_node id graph level_idx).
Proof.
  intros Hget rs. unfold Runner._run_node. rewrite Hget.
  unfold execute, execute_body. cbn [lift bind resume]. cbn beta zeta.
  pose proof (run_appends node [Top id]) as Hra.
  destruct (bind (run [Top id] node) _) as [kb] eqn:Eb.
  assert (Hb : obeys (appends (strictly_below [Top id])) (λ _ _, True)
                 (Segment kb)).
  { rewrite <- Eb. eapply (obeys_bind _ (λ _, True)).
    - apply appends_trans.
    - exact Hra.
    - intros a _. apply obeys_atomic. intros st'. simpl.
      split; [apply appends_refl | done]. }
  simpl in Hb.
  destruct (Hb (log_event (Executed [Top id]) (Runner.nodes_state rs)))
    as [Happ Hrest].
  assert (Hentry : ∀ x,
            Runner.calls x
              (log (kb (log_event (Executed [Top id])
                          (Runner.nodes_state rs))).1) =
            (Runner.calls x (log (Runner.nodes_state rs)) +
             if decide (x = id) then 1 else 0)%nat).
  { intros x. rewrite (appends_inner_calls id _ _ x Happ).
    cbn [log log_event]. rewrite calls_app. f_equal.
    destruct (decide (x = id)) as [->|Hne].
    - unfold Runner.calls. by rewrite filter_cons, decide_True.
    - apply calls_none, Forall_singleton. intros [=]. done. }
  cbn [resume].
  destruct (kb (log_event (Executed [Top id]) (Runner.nodes_state rs)))
    as [st1 [out|c']] eqn:Ek; cbn [fst snd] in *.
  - (* [execute] did not suspend *)
    pose proof (record_no_call id level_idx out) as Hrec.
    destruct out as [result|msg].
    + simpl in Hrec. destruct (Hrec (Runner.mkRunState st1
                                       (Runner.report_results rs))) as [Hn _].
      cbn [atomic resume] in *. cbn zeta in *.
      split; [|done]. intros x. simpl in *. rewrite <- Hentry. apply Hn.
    + simpl. split; [|done]. intros x. by rewrite <- Hentry.
  - split; [exact Hentry|].
    eapply (obeys_bind _ (λ _, True)).
    + apply no_call_trans.
    + eapply obeys_lift; [| |exact Hrest].
      * intros t s' Happ' x. simpl. by eapply appends_inner_calls.
      * done.
    + intros out _. apply record_no_call.
Qed.

(** *** Tasks that are still to start *)

Lemma pending_calls_app x (l1 l2 : list (string * bool)) :
  Runner.pending_calls x (l1 ++ l2) =
    (Runner.pending_calls x l1 + Runner.pending_calls x l2)%nat.
Proof. unfold Runner.pending_calls. by rewrite filter_app, length_app. Qed.

Lemma pending_calls_cons x item (l : list (string * bool)) :
  Runner.pending_calls x (item :: l) =
    ((if decide (item = (x, false)) then 1 else 0) +
     Runner.pending_calls x l)%nat.
Proof.
  unfold Runner.pending_calls. rewrite filter_cons.
  by destruct (decide (item = (x, false))).
Qed.

Lemma pending_calls_delete x (items : list (string * bool)) i item :
  items !! i = Some item →
  Runner.pending_calls x items =
    ((if decide (item = (x, false)) then 1 else 0) +
     Runner.pending_calls x (delete i items))%nat.
Proof.
  intros Hi. destruct (delete_middle items i item Hi) as [El Ed].
  rewrite Ed. rewrite El at 1.
  rewrite !pending_calls_app, pending_calls_cons. lia.
Qed.

Lemma pending_calls_started x (items : list (string * bool)) i id b :
  items !! i = Some (id, b) →
  Runner.pending_calls x (<[i := (id, true)]> items) =
    Runner.pending_calls x (delete i items).
Proof.
  intros Hi. destruct (delete_middle items i (id, b) Hi) as [El Ed].
  rewrite Ed, insert_take_drop by (by eapply lookup_lt_Some).
  rewrite !pending_calls_app, pending_calls_cons.
  by rewrite decide_False.
Qed.

Lemma pending_calls_fresh x (ids : list string) :
  NoDup ids →
  Runner.pending_calls x ((λ id, (id, false)) <$> ids) =
    if decide (x ∈ ids) then 1%nat else 0%nat.
Proof.
  induction 1 as [|id ids Hid _ IH]; [done|].
  rewrite fmap_cons, pending_calls_cons, IH.
  destruct (decide (x = id)) as [->|Hne].
  - rewrite decide_True by done. rewrite decide_False by done.
    rewrite decide_True; [done | by left].
  - rewrite decide_False by congruence.
    destruct (decide (x ∈ ids)) as [Hin|Hin].
    + rewrite decide_True; [done | by right].
    + rewrite decide_False; [done|].
      intros [?|?]%elem_of_cons; done.
Qed.

Lemma resume_calls item (c : coro (Runner.RunState (W:=W)) (res unit)) rs x :
  Runner.task_calls item c →
  Runner.calls x (log (Runner.nodes_state (resume c rs).1)) =
    (Runner.calls x (log (Runner.nodes_state rs)) +
     if decide (item = (x, false)) then 1 else 0)%nat ∧
  match (resume c rs).2 with
  | inl _ => True
  | inr c' => Runner.task_calls (item.1, true) c'
  end.
Proof.
  destruct item as [id [|]]; unfold Runner.task_calls; simpl; intros Hc.
  - destruct c as [k]. simpl in *. destruct (Hc rs) as [Hn Hrest].
    rewrite decide_False by done. rewrite Hn. split; [lia|].
    by destruct (k rs) as [rs1 [a|c']].
  - destruct (Hc rs) as [Hn Hrest]. rewrite Hn. split.
    + destruct (decide (x = id)) as [->|Hne].
      * by rewrite decide_True.
      * rewrite decide_False; [done | congruence].
    + by destruct (resume c rs) as [rs1 [a|c']].
Qed.

Lemma finish_calls item (c : coro (Runner.RunState (W:=W)) (res unit)) rs x :
  Runner.task_calls item c →
  Runner.calls x (log (Runner.nodes_state (finish c rs).1)) =
    (Runner.calls x (log (Runner.nodes_state rs)) +
     if decide (item = (x, false)) then 1 else 0)%nat.
Proof.
  intros Hc. destruct (resume_calls item c rs x Hc) as [Hfirst Hrest].
  rewrite finish_resume.
  destruct (resume c rs) as [rs1 [a|c']]; simpl in *; [done|].
  unfold Runner.task_calls in Hrest. simpl in Hrest.
  destruct (obeys_finish _ _ _ no_call_trans Hrest rs1) as [Hn _].
  by rewrite Hn.
Qed.

Lemma gather_rest_calls x : ∀ items tasks (rs : Runner.RunState (W:=W)),
  Forall2 Runner.task_calls items tasks →
  (Runner.calls x (log (Runner.nodes_state (Runner.gather_rest tasks rs).1)) ≤
   Runner.calls x (log (Runner.nodes_state rs)) +
   Runner.pending_calls x items)%nat.
Proof.
  induction items as [|item items IH]; intros tasks rs Hall.
  - apply Forall2_nil_inv_l in Hall as ->. simpl. lia.
  - apply Forall2_cons_inv_l in Hall as (c & tasks' & Hc & Hall & ->).
    pose proof (finish_calls item c rs x Hc) as Hf.
    rewrite pending_calls_cons. simpl.
    destruct (finish c rs) as [rs1 [u|e|]]; simpl in *; [|lia..].
    specialize (IH tasks' rs1 Hall). lia.
Qed.

Lemma gather_calls x sched : ∀ items tasks (rs : Runner.RunState (W:=W)),
  Forall2 Runner.task_calls items tasks →
  (Runner.calls x (log (Runner.nodes_state (Runner.gather sched tasks rs).1)) ≤
   Runner.calls x (log (Runner.nodes_state rs)) +
   Runner.pending_calls x items)%nat.
Proof.
  induction sched as [|i sched IH]; intros items tasks rs Hall.
  { by apply gather_rest_calls. }
  cbn [Runner.gather].
  destruct (tasks !! i) as [c|] eqn:Ei; [|by apply IH].
  destruct (Forall2_lookup_r _ _ _ _ _ Hall Ei) as (item & Hitem & Hc).
  destruct (resume_calls item c rs x Hc) as [Hfirst Hrest].
  rewrite (pending_calls_delete x items i item Hitem).
  destruct (resume c rs) as [rs1 [[u|e|]|c']]; simpl in *; [|lia..|].
  - specialize (IH (delete i items) (delete i tasks) rs1
                  (Forall2_delete _ _ _ _ Hall)). lia.
  - destruct item as [id b].
    specialize (IH (<[i := (id, true)]> items) (<[i := c']> tasks) rs1).
    rewrite (pending_calls_started x items i id b Hitem) in IH.
    etrans; [apply IH|lia]. by apply Forall2_insert.
Qed.

Lemma run_level_calls graph sched level_idx level
    (rs : Runner.RunState (W:=W)) x :
  NoDup level →
  (∀ id, id ∈ level → ∃ node, Graph.get_node graph id = Ok node) →
  (Runner.calls x (log (Runner.nodes_state
                          (Runner.run_level graph sched level_idx level rs).1)) ≤
   Runner.calls x (log (Runner.nodes_state rs)) +
   if decide (x ∈ level) then 1 else 0)%nat.
Proof.
  intros Hnd Hget. unfold Runner.run_level.
  destruct (schedule_level_spec graph level_idx level [] rs Hnd)
    as (run_ids & rs1 & Hsched & Hsub & Hst & _).
  rewrite Hsched. cbn [app]. rewrite <- Hst.
  assert (Hle : (Runner.pending_calls x ((λ id, (id, false)) <$> run_ids) ≤
                 if decide (x ∈ level) then 1 else 0)%nat).
  { rewrite pending_calls_fresh by (by eapply sublist_NoDup).
    destruct (decide (x ∈ run_ids)) as [Hin|]; [|lia].
    rewrite decide_True; [done|]. by eapply elem_of_sublist. }
  assert (Hall : Forall2 Runner.task_calls ((λ id, (id, false)) <$> run_ids)
            ((λ id, Runner._run_node id graph level_idx) <$> run_ids)).
  { apply Forall2_fmap, Forall_Forall2_diag, Forall_forall.
    intros id Hid. destruct (Hget id) as [node Hnode].
    { by eapply elem_of_sublist. }
    unfold Runner.task_calls. simpl. by eapply run_node_first_call. }
  pose proof (gather_calls x sched _ _ rs1 Hall) as Hg.
  destruct ((λ id, Runner._run_node id graph level_idx) <$> run_ids)
    as [|t ts]; cbn iota; [simpl; lia|].
  etrans; [apply Hg|lia].
Qed.

Lemma run_levels_calls self graph sched levels x :
  ∀ level_idx (rs : Runner.RunState (W:=W)),
  NoDup (concat levels) →
  (∀ id, id ∈ concat levels → ∃ node, Graph.get_node graph id = Ok node) →
  (Runner.calls x
     (log (Runner.nodes_state
             (Runner.run_levels self graph sched level_idx levels rs).1)) ≤
   Runner.calls x (log (Runner.nodes_state rs)) +
   if decide (x ∈ concat levels) then 1 else 0)%nat.
Proof.
  induction levels as [|level levels IH]; intros level_idx rs Hnd Hget.
  { simpl. lia. }
  simpl in Hnd. apply NoDup_app in Hnd as (Hnd1 & Hdis & Hnd2).
  assert (Hget1 : ∀ id, id ∈ level →
            ∃ node, Graph.get_node graph id = Ok node).
  { intros id Hid. apply Hget. simpl. apply elem_of_app. by left. }
  assert (Hget2 : ∀ id, id ∈ concat levels →
            ∃ node, Graph.get_node graph id = Ok node).
  { intros id Hid. apply Hget. simpl. apply elem_of_app. by right. }
  assert (Hsum : ((if decide (x ∈ level) then 1 else 0) +
                  (if decide (x ∈ concat levels) then 1 else 0) ≤
                  if decide (x ∈ concat (level :: levels)) then 1 else 0)%nat).
  { simpl. destruct (decide (x ∈ level)) as [H1|H1],
      (decide (x ∈ concat levels)) as [H2|H2].
    - by destruct (Hdis x H1).
    - rewrite decide_True; [lia | apply elem_of_app; by left].
    - rewrite decide_True; [lia | apply elem_of_app; by right].
    - lia. }
  cbn [Runner.run_levels]. destruct (Runner.dry_run self).
  - destruct (dry_run_level_spec level_idx level rs) as (Hst & _).
    specialize (IH (level_idx + 1) (Runner.dry_run_level level_idx level rs)
                  Hnd2 Hget2).
    rewrite Hst in IH. etrans; [apply IH|]. lia.
  - pose proof (run_level_calls graph (sched level_idx) level_idx level rs x
                  Hnd1 Hget1) as H1.
    destruct (Runner.run_level graph (sched level_idx) level_idx level rs)
      as [rs1 [u|e|]]; simpl in *; [|lia..].
    destruct (Runner.fail_fast self &&
              Runner.level_failed level (Runner.report_results rs1));
      simpl; [lia|].
    specialize (IH (level_idx + 1) rs1 Hnd2 Hget2). lia.
Qed.

End once.

(** X30. In a run, [execute] is called at most once for each node, and only
    for registered nodes, under every configuration of the runner and
    every interleaving of the tasks. *)
Theorem executes_at_most_once `{World W} (self : Runner.t)
    (graph : Graph.t (Node:=Node W)) sched ctx w lv :
  Graph.wf graph → Graph.levels graph = Ok lv →
  ∃ st' report,
    Runner.run self graph sched ctx w = (st', Ok report) ∧
    ∀ id, (Runner.calls id (log st') ≤ 1)%nat ∧
          (Executed [Top id] ∈ log st' → id ∈ Graph.node_ids graph).
Proof.
  intros Hwf Hlv.
  destruct (levels_registered graph lv Hwf Hlv) as (Hnd & Hreg & _).
  assert (Hget : ∀ id, id ∈ concat lv →
            ∃ node, Graph.get_node graph id = Ok node).
  { intros id Hid. apply get_node_registered. by apply Hreg. }
  destruct (run_levels_results self graph sched lv 0
              (Runner.mkRunState (mkState ctx w []) ∅) Hnd Hget)
    as (rs' & Hrun & _).
  eexists _, _. split.
  { unfold Runner.run. rewrite Hlv. cbn zeta. by rewrite Hrun. }
  intros id.
  pose proof (run_levels_calls self graph sched lv id 0
                (Runner.mkRunState (mkState ctx w []) ∅) Hnd Hget) as Hle.
  rewrite Hrun in Hle. simpl in Hle. split.
  - destruct (decide (id ∈ concat lv)); lia.
  - intros Hin. apply Hreg.
    destruct (decide (id ∈ concat lv)) as [|Hout]; [done|]. exfalso.
    assert (Executed [Top id] ∈
              filter (λ e, e = Executed [Top id])
                     (log (Runner.nodes_state rs'))) as Hf
      by (by apply list_elem_of_filter).
    unfold Runner.calls in Hle.
    destruct (filter _ (log (Runner.nodes_state rs'))); [|simpl in Hle; lia].
    by apply elem_of_nil in Hf.
Qed.

Lemma executes_at_most_once_witness :
  ∃ st' report,
    Runner.run Runner.defaults siblings (λ _, [1; 0; 0]%nat)
               (Context.new None) () = (st', Ok report) ∧
    ∀ id, (Runner.calls id (log st') ≤ 1)%nat ∧
          (Executed [Top id] ∈ log st' → id ∈ Graph.node_ids siblings).
Proof.
  apply (executes_at_most_once Runner.defaults siblings (λ _, [1; 0; 0]%nat)
           (Context.new None) () [["a"; "b"]]).
  - exact RunnerClaims.siblings_wf.
  - exact RunnerClaims.siblings_levels.
Defined.

End RunnerOnce.
